(** * Creator/assignment matcher: scoring, ranking, resilience and health

    A shallow embedding of the matching service
    ([services/matching-service/utils/matcher.js],
    [services/matching-service/server.js]) and of the resilience code it
    relies on ([shared/services/pinecone.js], [bedrock.js], [openai.js],
    [healthMonitor.js], [serviceManager.js]).

    Modelling conventions.
    - A JavaScript number is a value of [num]: a rational, one of the two
      infinities, or NaN.  Arithmetic on finite values is exact (binary64
      rounding error and the sign of zero are not modelled); the special
      values follow IEEE 754 as JavaScript exposes it.  The engine computes
      in binary64, so a computed value can differ from the exact one in
      its last bits, and a number printed with four decimals, or a
      comparison against a tolerance, can then fall on the other side.
      The properties of computed values are therefore stated up to
      [Claims.fpError], far above the rounding error of binary64 on the
      values at hand and far below the fourth decimal; [Binary64] holds
      the arithmetic of the engine itself, for evaluating the code on
      given inputs.
    - A string is a [string] of ASCII characters; [toLowerCase] and the
      [\s] class act on ASCII.
    - A property that may be absent is an [option]; [None] is [undefined].
    - A function that can throw returns a [result]. *)

From Stdlib Require Import ZArith QArith Qround Qabs Qreduction Qminmax.
From Stdlib Require Import Floats.SpecFloat.
From Stdlib Require Import List String Ascii Bool Lia Lqa.
From Stdlib Require Import Sorted Permutation.
Import ListNotations.

Set Implicit Arguments.

(** ** Thrown values *)

(** An error object, with the properties the code reads.
    [err_retry_after] is the [retry-after] header of the response, when
    there is one and it is not the empty string, as the number that its
    text reads as. *)
Record Error := mkError {
  err_name : string;
  err_message : string;
  err_code : option string;
  err_status : option Z;
  err_retry_after : option Z
}.

Definition result (A : Type) : Type := (Error + A)%type.

Definition Ok {A} (a : A) : result A := inr a.
Definition Throw {A} (e : Error) : result A := inl e.

Definition bind {A B} (r : result A) (k : A -> result B) : result B :=
  match r with
  | inl e => inl e
  | inr a => k a
  end.

Notation "x <- r ;; k" := (bind r (fun x => k))
  (at level 61, r at next level, right associativity).

(** Reading a property of [undefined]. *)
Definition TypeError : Error :=
  mkError "TypeError" "Cannot read properties of undefined" None None None.

Fixpoint mapM {A B} (f : A -> result B) (l : list A) : result (list B) :=
  match l with
  | [] => Ok []
  | x :: t => y <- f x ;; ys <- mapM f t ;; Ok (y :: ys)
  end.

(** ** JavaScript numbers *)

Module JSNum.

Local Open Scope Q_scope.

Inductive num : Type :=
| Fin (q : Q)
| PInf
| NInf
| NaN.

Definition of_Z (z : Z) : num := Fin (inject_Z z).
Definition of_nat (n : nat) : num := Fin (inject_Z (Z.of_nat n)).

(** The same number (not JavaScript's [===]: here NaN is the same as NaN). *)
Definition num_eq (a b : num) : Prop :=
  match a, b with
  | Fin x, Fin y => x == y
  | PInf, PInf | NInf, NInf | NaN, NaN => True
  | _, _ => False
  end.

Definition is_NaN (a : num) : bool :=
  match a with NaN => true | _ => false end.

Definition is_finite (a : num) : bool :=
  match a with Fin _ => true | _ => false end.

Definition Qltb (x y : Q) : bool := negb (Qle_bool y x).

(** [a + b] *)
Definition add (a b : num) : num :=
  match a, b with
  | NaN, _ | _, NaN => NaN
  | Fin x, Fin y => Fin (x + y)
  | PInf, NInf | NInf, PInf => NaN
  | PInf, _ | _, PInf => PInf
  | NInf, _ | _, NInf => NInf
  end.

Definition neg (a : num) : num :=
  match a with
  | Fin x => Fin (- x)
  | PInf => NInf
  | NInf => PInf
  | NaN => NaN
  end.

(** [a - b] *)
Definition sub (a b : num) : num := add a (neg b).

(** An infinity of sign [positive] times the finite [q]. *)
Definition inf_times (positive : bool) (q : Q) : num :=
  if Qeq_bool q 0 then NaN
  else if Bool.eqb positive (Qltb 0 q) then PInf else NInf.

(** [a * b] *)
Definition mul (a b : num) : num :=
  match a, b with
  | NaN, _ | _, NaN => NaN
  | Fin x, Fin y => Fin (x * y)
  | PInf, Fin y => inf_times true y
  | NInf, Fin y => inf_times false y
  | Fin x, PInf => inf_times true x
  | Fin x, NInf => inf_times false x
  | PInf, PInf | NInf, NInf => PInf
  | PInf, NInf | NInf, PInf => NInf
  end.

(** [a / b]; a finite value over zero is an infinity, zero over zero NaN. *)
Definition div (a b : num) : num :=
  match a, b with
  | NaN, _ | _, NaN => NaN
  | Fin x, Fin y =>
      if Qeq_bool y 0 then
        if Qeq_bool x 0 then NaN else if Qltb 0 x then PInf else NInf
      else Fin (x / y)
  | Fin _, PInf | Fin _, NInf => Fin 0
  | PInf, Fin y => if Qle_bool 0 y then PInf else NInf
  | NInf, Fin y => if Qle_bool 0 y then NInf else PInf
  | _, _ => NaN
  end.

(** [Math.abs] *)
Definition abs (a : num) : num :=
  match a with
  | Fin x => Fin (Qabs x)
  | PInf | NInf => PInf
  | NaN => NaN
  end.

(** [a > b]; false as soon as one side is NaN. *)
Definition gt (a b : num) : bool :=
  match a, b with
  | NaN, _ | _, NaN => false
  | Fin x, Fin y => Qltb y x
  | PInf, PInf => false
  | PInf, _ => true
  | _, NInf => negb (match a with NInf => true | _ => false end)
  | _, _ => false
  end.

Definition lt (a b : num) : bool := gt b a.

(** [a !== b]; NaN differs from everything, itself included. *)
Definition strict_neq (a b : num) : bool :=
  match a, b with
  | NaN, _ | _, NaN => true
  | Fin x, Fin y => negb (Qeq_bool x y)
  | PInf, PInf | NInf, NInf => false
  | _, _ => true
  end.

(** [Math.min(a, b)] *)
Definition min (a b : num) : num :=
  match a, b with
  | NaN, _ | _, NaN => NaN
  | NInf, _ | _, NInf => NInf
  | PInf, x | x, PInf => x
  | Fin x, Fin y => if Qle_bool x y then Fin x else Fin y
  end.

(** Truthiness of a number: zero and NaN are falsy. *)
Definition truthy (a : num) : bool :=
  match a with
  | Fin x => negb (Qeq_bool x 0)
  | NaN => false
  | _ => true
  end.

(** [a || d] on numbers. *)
Definition or_else (a d : num) : num := if truthy a then a else d.

(** The integer [n] that [Number.prototype.toFixed(4)] prints over [10^4]:
    for a non-negative [x], the [n] with [n / 10^4 - x] closest to zero,
    the larger one on a tie. *)
Definition fixed4_digits (x : Q) : Z := Qfloor (x * 10000 + (1 # 2)).

(** [parseFloat(q.toFixed(4))] for a finite [q] below [10^21] in absolute
    value: the sign is taken off, the magnitude is rounded, the sign is put
    back. *)
Definition round4 (q : Q) : Q :=
  let n := fixed4_digits (Qabs q) in
  if Qltb q 0 then (- n # 10000) else (n # 10000).

(** [parseFloat(a.toFixed(4))].  From [10^21] on, [toFixed] prints the
    number in full (as [String(a)] does), so parsing gives it back; the
    special values print as "Infinity", "-Infinity" and "NaN", which
    [parseFloat] reads back. *)
Definition toFixed4 (a : num) : num :=
  match a with
  | Fin q =>
      if Qle_bool (10 ^ 21) (Qabs q) then Fin q else Fin (round4 q)
  | other => other
  end.

(** Square root of a non-negative rational [n / d] in lowest terms, as
    [floor (sqrt (n * d) * 2^64) / (d * 2^64)]: below the real square root
    by less than [2^-64], and exact on squares.  The model of
    [Math.pow(q, 0.5)] on finite values. *)
Definition Qsqrt (q : Q) : Q :=
  let r := Qred q in
  Z.sqrt (Qnum r * Zpos (Qden r) * 4 ^ 64) # (Qden r * 2 ^ 64).

(** [Math.pow(a, 0.5)] *)
Definition pow_half (a : num) : num :=
  match a with
  | Fin q => if Qltb q 0 then NaN else Fin (Qsqrt q)
  | PInf | NInf => PInf
  | NaN => NaN
  end.

End JSNum.

Import JSNum.

(** ** JavaScript strings *)

Module JSString.

Local Open Scope string_scope.

(** [String.prototype.toLowerCase] on ASCII. *)
Definition lower_char (c : ascii) : ascii :=
  let n := nat_of_ascii c in
  if andb (Nat.leb 65 n) (Nat.leb n 90) then ascii_of_nat (n + 32) else c.

Fixpoint toLowerCase (s : string) : string :=
  match s with
  | EmptyString => EmptyString
  | String c t => String (lower_char c) (toLowerCase t)
  end.

(** A string is truthy when it is not empty. *)
Definition truthy_str (s : string) : bool := negb (String.eqb s "").

(** [o && ...] on an optional string: present and not empty. *)
Definition present (o : option string) : option string :=
  match o with
  | Some s => if truthy_str s then Some s else None
  | None => None
  end.

(** [Array.prototype.includes] on an array of strings. *)
Definition arr_includes (l : list string) (x : string) : bool :=
  existsb (String.eqb x) l.

(** [String.prototype.includes]: [sub] occurs somewhere in [s]. *)
Fixpoint str_includes (s sub : string) : bool :=
  if String.prefix sub s then true
  else match s with
       | EmptyString => false
       | String _ t => str_includes t sub
       end.

(** The class [\s] on ASCII: tab, line feed, vertical tab, form feed,
    carriage return, space. *)
Definition is_space (c : ascii) : bool :=
  let n := nat_of_ascii c in
  orb (andb (Nat.leb 9 n) (Nat.leb n 13)) (Nat.eqb n 32).

(** [s.split(/\s+/)]: the pieces between maximal runs of white space.
    [cur] is the piece being read, in reverse; [in_ws] tells that the last
    character read was white space. *)
Fixpoint rev_string (acc s : string) : string :=
  match s with
  | EmptyString => acc
  | String c t => rev_string (String c acc) t
  end.

Fixpoint split_ws_from (s cur : string) (in_ws : bool) : list string :=
  match s with
  | EmptyString => [rev_string "" cur]
  | String c t =>
      if is_space c then
        if in_ws then split_ws_from t cur true
        else rev_string "" cur :: split_ws_from t "" true
      else split_ws_from t (String c cur) false
  end.

Definition split_ws (s : string) : list string := split_ws_from s "" false.

(** [arr.join(' ')] *)
Fixpoint join_space (l : list string) : string :=
  match l with
  | [] => ""
  | [x] => x
  | x :: t => x ++ " " ++ join_space t
  end.

(** [`${o}`] in a template literal. *)
Definition interpolate (o : option string) : string :=
  match o with
  | Some s => s
  | None => "undefined"
  end.

End JSString.

Import JSString.

(** ** [Array.prototype.sort] with a comparison function

    The engine's sort is stable; it is modelled as the stable insertion
    sort: elements are taken in input order and each goes before the first
    element already placed that the comparison function puts after it.  A
    NaN returned by the comparison function counts as zero. *)

Module JSArray.

Section Sort.

Variable A : Type.
Variable comparefn : A -> A -> num.

(** [comparefn(x, y) < 0]: [x] must come before [y]. *)
Definition before (x y : A) : bool := lt (comparefn x y) (Fin 0).

Fixpoint insert (x : A) (l : list A) : list A :=
  match l with
  | [] => [x]
  | y :: t => if before x y then x :: y :: t else y :: insert x t
  end.

Definition sort (l : list A) : list A :=
  fold_left (fun placed x => insert x placed) l [].

End Sort.

(** [arr.slice(0, n)] *)
Definition slice0 {A} (n : nat) (l : list A) : list A := firstn n l.

End JSArray.

Import JSArray.

(** ** The matcher ([matcher.js]) *)

Module Matcher.

Local Open Scope string_scope.

Record TargetAudience := {
  locale : option string;
  demographic : option string
}.

Record Assignment := {
  topic : option string;
  keyTakeaway : option string;
  additionalContext : option string;
  targetAudience : option TargetAudience;
  creatorNiches : option (list string);
  creatorValues : option (list string);
  toneStyle : option string
}.

Record EngagementStyle := {
  tone : option (list string)
}.

Record Analysis := {
  summary : option string;
  primaryNiches : option (list string);
  secondaryNiches : option (list string);
  apparentValues : option (list string);
  audienceInterests : option (list string);
  engagementStyle : option EngagementStyle
}.

Record Creator := {
  uniqueId : option string;
  nickname : option string;
  heartCount : option Z;
  followerCount : option Z;
  region : option string;
  analysis : option Analysis
}.

Record ScoreBreakdown := {
  semanticSimilarity : num;
  nicheAlignment : num;
  audienceMatch : num;
  valueAlignment : num;
  nicheBoost : num
}.

Record Match := {
  creator : Creator;
  matchScore : num;
  scoreBreakdown : ScoreBreakdown
}.

Record Weights := {
  w_semanticSimilarity : num;
  w_nicheAlignment : num;
  w_audienceMatch : num;
  w_valueAlignment : num
}.

(** The weights set by the constructor. *)
Definition weights : Weights := {|
  w_semanticSimilarity := Fin (7 # 10);
  w_nicheAlignment := Fin (2 # 10);
  w_audienceMatch := Fin (5 # 100);
  w_valueAlignment := Fin (5 # 100)
|}.

(** [arr || []] *)
Definition or_empty (o : option (list string)) : list string :=
  match o with Some l => l | None => [] end.

(** [creator.analysis.<field>]: throws when [analysis] is undefined. *)
Definition analysis_of (c : Creator) : result Analysis :=
  match analysis c with
  | Some an => Ok an
  | None => Throw TypeError
  end.

Definition calculateNicheAlignment (a : Assignment) (c : Creator)
  : result nat :=
  match creatorNiches a with
  | None | Some [] => Ok 0%nat
  | Some niches =>
      an <- analysis_of c ;;
      let creatorNiches :=
        map toLowerCase
            (or_empty (primaryNiches an) ++ or_empty (secondaryNiches an)) in
      let matches :=
        filter (fun niche => arr_includes creatorNiches (toLowerCase niche))
               niches in
      Ok (List.length matches)
  end.

(** Factor 1: locale against region. *)
Definition localeFactor (ta : TargetAudience) (c : Creator) (acc : num * nat)
  : num * nat :=
  let (score, factors) := acc in
  match present (locale ta), present (region c) with
  | Some loc, Some reg =>
      ((if String.eqb (toLowerCase reg) (toLowerCase loc)
        then add score (Fin (4 # 10)) else score),
       S factors)
  | _, _ => (score, factors)
  end.

(** The words of the demographic found in the audience interests or in
    the summary, and all the words. *)
Definition demographicWords (d : string) : list string :=
  split_ws (toLowerCase d).

Definition matchedWords (d : string) (an : Analysis) : list string :=
  let audienceInterests :=
    join_space (map toLowerCase (or_empty (audienceInterests an))) in
  let summary :=
    toLowerCase (match summary an with Some s => s | None => "" end) in
  filter (fun word =>
            orb (str_includes audienceInterests word)
                (str_includes summary word))
         (demographicWords d).

(** Factor 2: demographic words. *)
Definition demographicFactor (ta : TargetAudience) (c : Creator)
  (acc : num * nat) : num * nat :=
  let (score, factors) := acc in
  match present (demographic ta), analysis c with
  | Some d, Some an =>
      let matched := matchedWords d an in
      ((if Nat.ltb 0 (List.length matched)
        then add score
               (mul (Fin (3 # 10))
                    (div (of_nat (List.length matched))
                         (of_nat (List.length (demographicWords d)))))
        else score),
       S factors)
  | _, _ => (score, factors)
  end.

Definition toneMatch (requested : string) (es : EngagementStyle) : bool :=
  let requestedTone := toLowerCase requested in
  let creatorTones := map toLowerCase (or_empty (tone es)) in
  existsb (fun t => orb (str_includes t requestedTone)
                        (str_includes requestedTone t))
          creatorTones.

(** Factor 3: tone.  [creator.analysis.engagementStyle] is read only when
    [assignment.toneStyle] is truthy, and throws when [analysis] is
    undefined. *)
Definition toneFactor (a : Assignment) (c : Creator) (acc : num * nat)
  : result (num * nat) :=
  let (score, factors) := acc in
  match present (toneStyle a) with
  | Some ts =>
      an <- analysis_of c ;;
      match engagementStyle an with
      | Some es =>
          Ok ((if toneMatch ts es then add score (Fin (3 # 10)) else score),
              S factors)
      | None => Ok (score, factors)
      end
  | None => Ok (score, factors)
  end.

Definition calculateAudienceMatch (a : Assignment) (c : Creator)
  : result num :=
  match targetAudience a with
  | None => Ok (Fin 0)
  | Some ta =>
      let acc := (Fin 0, 0%nat) in
      let acc := localeFactor ta c acc in
      let acc := demographicFactor ta c acc in
      acc <- toneFactor a c acc ;;
      let (score, factors) := acc : num * nat in
      Ok (if Nat.ltb 0 factors then score else Fin 0)
  end.

(** The audience score in closed form: what each factor adds, and their
    sum.  These are read off the three functions above and serve the
    proofs. *)
Definition localePart (ta : TargetAudience) (c : Creator) : Q :=
  match present (locale ta), present (region c) with
  | Some loc, Some reg =>
      if String.eqb (toLowerCase reg) (toLowerCase loc) then (4 # 10)%Q
      else 0%Q
  | _, _ => 0%Q
  end.

Definition demographicPart (ta : TargetAudience) (an : Analysis) : Q :=
  match present (demographic ta) with
  | Some d =>
      ((3 # 10) * (inject_Z (Z.of_nat (List.length (matchedWords d an)))
                   / inject_Z (Z.of_nat (List.length (demographicWords d)))))%Q
  | None => 0%Q
  end.

Definition tonePart (a : Assignment) (an : Analysis) : Q :=
  match present (toneStyle a), engagementStyle an with
  | Some ts, Some es => if toneMatch ts es then (3 # 10)%Q else 0%Q
  | _, _ => 0%Q
  end.

Definition audienceSum (a : Assignment) (c : Creator) (an : Analysis) : Q :=
  match targetAudience a with
  | Some ta => (localePart ta c + demographicPart ta an + tonePart a an)%Q
  | None => 0%Q
  end.

Definition calculateValueAlignment (a : Assignment) (c : Creator)
  : result num :=
  match creatorValues a with
  | None | Some [] => Ok (Fin 0)
  | Some values =>
      an <- analysis_of c ;;
      let creatorValues := map toLowerCase (or_empty (apparentValues an)) in
      let matches :=
        filter (fun val => arr_includes creatorValues (toLowerCase val))
               values in
      Ok (div (of_nat (List.length matches)) (of_nat (List.length values)))
  end.

(** [assignment.creatorNiches?.length || 1] *)
Definition maxNiches (a : Assignment) : nat :=
  match creatorNiches a with
  | Some (x :: t) => List.length (x :: t)
  | _ => 1
  end.

Definition normalizedSemanticScore (semanticScore : num) : num :=
  div (add semanticScore (Fin 1)) (Fin 2).

Definition nicheMatchRatio (a : Assignment) (nicheScore : nat) : num :=
  div (of_nat nicheScore) (of_nat (maxNiches a)).

Definition baseScore (normalized ratio audienceScore valueScore : num) : num :=
  add (add (add (mul normalized (w_semanticSimilarity weights))
                (mul ratio (w_nicheAlignment weights)))
           (mul audienceScore (w_audienceMatch weights)))
      (mul valueScore (w_valueAlignment weights)).

Definition calculateMatch (a : Assignment) (c : Creator) (semanticScore : num)
  : result Match :=
  nicheScore <- calculateNicheAlignment a c ;;
  audienceScore <- calculateAudienceMatch a c ;;
  valueScore <- calculateValueAlignment a c ;;
  let normalized := normalizedSemanticScore semanticScore in
  let ratio := nicheMatchRatio a nicheScore in
  let boost := pow_half ratio in
  let base := baseScore normalized ratio audienceScore valueScore in
  let totalScore := mul base (add (Fin 1) boost) in
  Ok {| creator := c;
        matchScore := toFixed4 (min (Fin 1) totalScore);
        scoreBreakdown := {|
          semanticSimilarity := toFixed4 normalized;
          nicheAlignment := of_nat nicheScore;
          audienceMatch := audienceScore;
          valueAlignment := valueScore;
          nicheBoost := toFixed4 boost |} |}.

(** [n || d] on an optional count. *)
Definition count_or (o : option Z) (d : Z) : num :=
  match o with
  | Some z => or_else (of_Z z) (of_Z d)
  | None => of_Z d
  end.

Definition engagement (c : Creator) : num :=
  div (count_or (heartCount c) 0) (count_or (followerCount c) 1).

Definition breakTie (matchA matchB : Match) : num :=
  let engagementA := engagement (creator matchA) in
  let engagementB := engagement (creator matchB) in
  if strict_neq engagementA engagementB then sub engagementB engagementA
  else sub (count_or (followerCount (creator matchB)) 0)
           (count_or (followerCount (creator matchA)) 0).

(** The comparison function handed to [sort] by [rankMatches]. *)
Definition compareMatches (a b : Match) : num :=
  let sa := scoreBreakdown a in
  let sb := scoreBreakdown b in
  if strict_neq (nicheAlignment sb) (nicheAlignment sa)
  then sub (nicheAlignment sb) (nicheAlignment sa)
  else if gt (abs (sub (semanticSimilarity sb) (semanticSimilarity sa)))
             (Fin (1 # 100))
  then sub (semanticSimilarity sb) (semanticSimilarity sa)
  else if gt (abs (sub (matchScore b) (matchScore a))) (Fin (1 # 1000))
  then sub (matchScore b) (matchScore a)
  else breakTie a b.

Definition rankMatches (matches : list Match) : list Match :=
  sort compareMatches matches.

End Matcher.

(** ** The arithmetic of the engine ([matcher.js], as evaluated)

    IEEE 754 binary64 with rounding to nearest, ties to even, as
    [SpecFloat] computes it.  The numbers of a match are the doubles
    nearest to their decimals, which is what reading a decimal gives.
    This is the arithmetic in which the engine evaluates the comparison
    function of [rankMatches] and the normalization of the semantic
    score. *)

Module Binary64.

Import Matcher.

Definition prec : Z := 53.
Definition emax : Z := 1024.

Definition f64 : Type := spec_float.

(** An integer as a double. *)
Definition of_Z (z : Z) : f64 := binary_normalize prec emax z 0 false.

(** The double nearest to [n / d], for [n] and [d] below [2^53]: the
    correctly rounded quotient of two integers that are doubles. *)
Definition of_Q (q : Q) : f64 :=
  SFdiv prec emax (of_Z (Qnum q)) (of_Z (Zpos (Qden q))).

Definition of_num (x : num) : f64 :=
  match x with
  | Fin q => of_Q q
  | PInf => S754_infinity false
  | NInf => S754_infinity true
  | NaN => S754_nan
  end.

(** The exact value of a finite double. *)
Definition to_Q (x : f64) : Q :=
  match x with
  | S754_finite s m e =>
      ((if s then -1 else 1) * inject_Z (Zpos m) * 2 ^ e)%Q
  | _ => 0%Q
  end.

Definition add64 (a b : f64) : f64 := SFadd prec emax a b.
Definition sub64 (a b : f64) : f64 := SFsub prec emax a b.
Definition div64 (a b : f64) : f64 := SFdiv prec emax a b.

(** [a > b] and [a !== b] *)
Definition gt64 (a b : f64) : bool := SFltb b a.
Definition strict_neq64 (a b : f64) : bool := negb (SFeqb a b).

(** [a || d] *)
Definition or_else64 (a d : f64) : f64 :=
  match a with
  | S754_zero _ | S754_nan => d
  | _ => a
  end.

Definition count_or (o : option Z) (d : Z) : f64 :=
  match o with
  | Some z => or_else64 (of_Z z) (of_Z d)
  | None => of_Z d
  end.

Definition engagement (c : Creator) : f64 :=
  div64 (count_or (heartCount c) 0) (count_or (followerCount c) 1).

Definition breakTie (matchA matchB : Match) : f64 :=
  let engagementA := engagement (creator matchA) in
  let engagementB := engagement (creator matchB) in
  if strict_neq64 engagementA engagementB
  then sub64 engagementB engagementA
  else sub64 (count_or (followerCount (creator matchB)) 0)
             (count_or (followerCount (creator matchA)) 0).

Definition compareMatches (a b : Match) : f64 :=
  let na := of_num (nicheAlignment (scoreBreakdown a)) in
  let nb := of_num (nicheAlignment (scoreBreakdown b)) in
  let sa := of_num (semanticSimilarity (scoreBreakdown a)) in
  let sb := of_num (semanticSimilarity (scoreBreakdown b)) in
  let ma := of_num (matchScore a) in
  let mb := of_num (matchScore b) in
  if strict_neq64 nb na then sub64 nb na
  else if gt64 (SFabs (sub64 sb sa)) (of_Q (1 # 100)) then sub64 sb sa
  else if gt64 (SFabs (sub64 mb ma)) (of_Q (1 # 1000)) then sub64 mb ma
  else breakTie a b.

(** The result of the comparison function as [sort] reads it: negative,
    positive, or neither. *)
Definition sign (x : f64) : num :=
  if SFltb x (S754_zero false) then Fin (-1)
  else if SFltb (S754_zero false) x then Fin 1
  else Fin 0.

Definition rankMatches (matches : list Match) : list Match :=
  sort (fun a b => sign (compareMatches a b)) matches.

(** [(semanticScore + 1) / 2] *)
Definition normalizedSemanticScore (semanticScore : f64) : f64 :=
  div64 (add64 semanticScore (of_Z 1)) (of_Z 2).

(** [parseFloat(x.toFixed(4))]: the decimal expansion of the double is
    rounded, half up on the magnitude, and the decimal read back. *)
Definition toFixed4 (x : f64) : f64 :=
  match x with
  | S754_finite _ _ _ =>
      if Qle_bool (10 ^ 21) (Qabs (to_Q x)) then x
      else of_Q (round4 (to_Q x))
  | S754_zero _ => S754_zero false
  | other => other
  end.

End Binary64.

(** ** The match endpoint ([server.js], [POST /matches]) *)

Module Server.

Import Matcher.
Local Open Scope string_scope.

(** One entry of [searchResults.matches]. *)
Record Candidate := {
  cand_id : string;
  cand_score : num
}.

(** The parsed [creators.json]: an object from creator id to creator, in
    property order. *)
Definition Catalog : Type := list (string * Creator).

Definition Embedding : Type := list num.

(** What the outside answers during one request. *)
Record World := {
  generateEmbedding : string -> result Embedding;
  queryVectors : Embedding -> nat -> result (option (list Candidate));
  loadCreators : result Catalog;
  generateCompletion : string -> result string;
  assignmentServiceUrl : option string
}.

(** The calls a request makes, in order. *)
Inductive Call :=
| CallGenerateEmbedding (text : string)
| CallQueryVectors (topK : nat)
| CallLoadCreators
| CallGenerateCompletion (prompt : string)
| CallPersist (assignmentId : string).

Record Request := {
  req_assignment : option Assignment;
  req_assignmentId : option string
}.

(** The three shapes of the JSON body: [{ error }]; the bare
    [{ assignment, matches: [], reasoning, isFallback }] sent when nothing
    was scored; and [{ success: true, data: { assignment, matches,
    reasoning, isFallback } }]. *)
Inductive Body :=
| BError (error : string)
| BNoMatches (a : Assignment) (reasoning : string) (isFallback : bool)
| BMatches (a : Assignment) (matches : list Match) (reasoning : string)
           (isFallback : bool).

Record Response := {
  status : Z;
  body : Body
}.

Definition TOP_K_QUERY : nat := 15.
Definition TOP_K : nat := 3.

Definition nl : string := String (ascii_of_nat 10) "".

Definition assignmentText (a : Assignment) : string :=
  interpolate (topic a) ++ " " ++ interpolate (keyTakeaway a) ++ " "
  ++ interpolate (additionalContext a).

(** Steps 1 and 2: embedding, then vector query; any throw turns the
    fallback on. *)
Definition vectorSearch (w : World) (text : string)
  : list Candidate * bool * list Call :=
  match generateEmbedding w text with
  | inl _ => ([], true, [CallGenerateEmbedding text])
  | inr assignmentEmbedding =>
      match queryVectors w assignmentEmbedding TOP_K_QUERY with
      | inl _ =>
          ([], true, [CallGenerateEmbedding text; CallQueryVectors TOP_K_QUERY])
      | inr matches =>
          (match matches with Some l => l | None => [] end, false,
           [CallGenerateEmbedding text; CallQueryVectors TOP_K_QUERY])
      end
  end.

(** The property of the parsed object under its own key [id]. *)
Fixpoint own (creators : Catalog) (id : string) : option Creator :=
  match creators with
  | [] => None
  | (k, c) :: t => if String.eqb k id then Some c else own t id
  end.

(** The names that the parsed object, as every object, inherits from
    [Object.prototype]. *)
Definition inheritedNames : list string :=
  ["constructor"; "__proto__"; "hasOwnProperty"; "isPrototypeOf";
   "propertyIsEnumerable"; "toLocaleString"; "toString"; "valueOf";
   "__defineGetter__"; "__defineSetter__"; "__lookupGetter__";
   "__lookupSetter__"].

(** What an inherited name gives: a function, or the prototype itself; a
    truthy value on which every property of a creator is undefined. *)
Definition inheritedMember : Creator := {|
  uniqueId := None;
  nickname := None;
  heartCount := None;
  followerCount := None;
  region := None;
  analysis := None
|}.

(** [creators[id]]: the own property, or else what the name inherits. *)
Definition lookup (creators : Catalog) (id : string) : option Creator :=
  match own creators id with
  | Some c => Some c
  | None =>
      if arr_includes inheritedNames id then Some inheritedMember else None
  end.

(** [Object.values(creators)] *)
Definition values (creators : Catalog) : list Creator := map snd creators.

(** Step 3 on the vector path: candidates without a catalog entry give
    [null] and are filtered out. *)
Fixpoint scoreCandidates (a : Assignment) (creators : Catalog)
  (candidates : list Candidate) : result (list Match) :=
  match candidates with
  | [] => Ok []
  | cand :: t =>
      match lookup creators (cand_id cand) with
      | None => scoreCandidates a creators t
      | Some c =>
          m <- calculateMatch a c (cand_score cand) ;;
          ms <- scoreCandidates a creators t ;;
          Ok (m :: ms)
      end
  end.

(** Step 3 on the fallback: every creator, with semantic score 0. *)
Definition scoreFallback (a : Assignment) (creators : Catalog)
  : result (list Match) :=
  mapM (fun c => calculateMatch a c (Fin 0)) (values creators).

Definition creatorLine (m : Match) : result string :=
  an <- analysis_of (creator m) ;;
  Ok ("- " ++ interpolate (nickname (creator m)) ++ ": "
      ++ interpolate (summary an)).

Fixpoint join_lines (l : list string) : string :=
  match l with
  | [] => ""
  | [x] => x
  | x :: t => x ++ nl ++ join_lines t
  end.

Definition reasoningPrompt (text creatorsInfo : string) (isFallback : bool)
  : string :=
  nl ++ "      Assignment: " ++ text ++ nl
  ++ "      " ++ nl
  ++ "      Top Creators:" ++ nl
  ++ "      " ++ creatorsInfo ++ nl
  ++ "      " ++ nl
  ++ "      For each creator, provide a brief match reasoning (1-3 sentences) explaining why they are suitable for this assignment." ++ nl
  ++ "      Ensure the reasoning reflects the mapping between the assignment goals and the creator's specific style/audience." ++ nl
  ++ "      "
  ++ (if isFallback
      then "Note: Results are currently based on attribute matching only due to maintenance."
      else "")
  ++ nl ++ "    ".

Definition cannedReasoning : string :=
  "AI reasoning generation currently unavailable. Please review creators based on their profile alignment.".

Definition noCreatorsReasoning : string :=
  "No suitable creators found for this assignment.".

(** The outer [catch]. *)
Definition failure (e : Error) : Response :=
  if str_includes (err_message e) "Circuit breaker"
  then {| status := 503; body := BError "Service temporarily unavailable" |}
  else {| status := 500; body := BError "Failed to create match" |}.

(** Step 6: results are written back when an id came with the request and
    the assignment service is configured; a failure there is only logged. *)
Definition persistCalls (req : Request) (w : World) : list Call :=
  match present (req_assignmentId req), present (assignmentServiceUrl w) with
  | Some id, Some _ => [CallPersist id]
  | _, _ => []
  end.

Definition postMatches (servicesInitialized : bool) (req : Request) (w : World)
  : Response * list Call :=
  if negb servicesInitialized then
    ({| status := 503; body := BError "External services not initialized" |},
     [])
  else
    match req_assignment req with
    | None =>
        ({| status := 400; body := BError "assignment is required" |}, [])
    | Some a =>
        let text := assignmentText a in
        let '(candidates, isFallback, calls) := vectorSearch w text in
        let calls := (calls ++ [CallLoadCreators])%list in
        match loadCreators w with
        | inl e => (failure e, calls)
        | inr creators =>
            let scored :=
              if isFallback then scoreFallback a creators
              else scoreCandidates a creators candidates in
            match scored with
            | inl e => (failure e, calls)
            | inr [] =>
                ({| status := 200;
                    body := BNoMatches a noCreatorsReasoning isFallback |},
                 calls)
            | inr scoredMatches =>
                let rankedMatches :=
                  slice0 TOP_K (rankMatches scoredMatches) in
                match mapM creatorLine rankedMatches with
                | inl e => (failure e, calls)
                | inr lines =>
                    let prompt :=
                      reasoningPrompt text (join_lines lines) isFallback in
                    let reasoning :=
                      match generateCompletion w prompt with
                      | inr r => r
                      | inl _ => cannedReasoning
                      end in
                    ({| status := 200;
                        body := BMatches a rankedMatches reasoning isFallback |},
                     (calls ++ [CallGenerateCompletion prompt]
                      ++ persistCalls req w)%list)
                end
            end
        end
    end.

Definition is_vector_call (c : Call) : bool :=
  match c with
  | CallGenerateEmbedding _ | CallQueryVectors _ => true
  | _ => false
  end.

End Server.

(** ** Retry and circuit breaker ([pinecone.js], [bedrock.js], [openai.js])

    The three adapters carry the same fields and the same
    [executeWithCircuitBreaker] and [handleFailure]; they differ in
    [executeWithRetry]. *)

Module Resilience.

Local Open Scope Z_scope.
Local Open Scope string_scope.

Inductive Adapter := Pinecone | Bedrock | OpenAI.

Inductive BreakerState := CLOSED | OPEN | HALF_OPEN.

Record Service := {
  maxRetries : nat;
  retryDelay : Z;
  circuitBreakerState : BreakerState;
  failureCount : Z;
  failureThreshold : Z;
  resetTimeout : Z;
  lastFailureTime : option Z
}.

(** The fields as the constructors set them. *)
Definition newService : Service := {|
  maxRetries := 3;
  retryDelay := 1000;
  circuitBreakerState := CLOSED;
  failureCount := 0;
  failureThreshold := 5;
  resetTimeout := 30000;
  lastFailureTime := None
|}.

(** An operation, as the outcome of its [n]-th call (from 1). *)
Definition Operation (A : Type) : Type := nat -> result A.

Record RetryRun (A : Type) := {
  outcome : result A;
  attempts : nat;
  waits : list Z
}.

(** What the [catch] block of the loop decides: go round again, after the
    given waits, or leave the loop. *)
Inductive Next :=
| Again (wait : list Z)
| Break.

Definition name_in (names : list string) (e : Error) : bool :=
  existsb (String.eqb (err_name e)) names.

Definition code_is (c : string) (e : Error) : bool :=
  match err_code e with
  | Some c' => String.eqb c' c
  | None => false
  end.

(** [BedrockService.isRetryableError] *)
Definition bedrock_isRetryableError (e : Error) : bool :=
  orb (name_in ["ThrottlingException";
                "ProvisionedThroughputExceededException";
                "InternalServerException";
                "ServiceUnavailableException";
                "ECONNRESET";
                "ETIMEDOUT"] e)
      (code_is "ECONNRESET" e).

(** [OpenAIService.isRetryableError] *)
Definition openai_isRetryableError (e : Error) : bool :=
  orb (orb (match err_status e with Some st => Z.leb 500 st | None => false end)
           (match err_status e with Some st => Z.eqb st 429 | None => false end))
      (code_is "ECONNRESET" e).

Definition backoff (s : Service) (attempt : nat) : Z :=
  retryDelay s * 2 ^ (Z.of_nat attempt - 1).

(** The [catch] block of [PineconeService.executeWithRetry]: every error
    goes round again. *)
Definition pinecone_onError (s : Service) (attempt : nat) (e : Error) : Next :=
  if Nat.ltb attempt (maxRetries s) then Again [backoff s attempt]
  else Again [].

(** The [catch] block of [BedrockService.executeWithRetry]. *)
Definition bedrock_onError (s : Service) (attempt : nat) (e : Error) : Next :=
  if andb (name_in ["ThrottlingException";
                    "ProvisionedThroughputExceededException"] e)
          (Nat.ltb attempt (maxRetries s))
  then Again [2 ^ Z.of_nat attempt * 1000]
  else if andb (Nat.ltb attempt (maxRetries s)) (bedrock_isRetryableError e)
  then Again [backoff s attempt]
  else Break.

(** The [catch] block of [OpenAIService.executeWithRetry]. *)
Definition openai_onError (s : Service) (attempt : nat) (e : Error) : Next :=
  let retryAfter :=
    match err_retry_after e with
    | Some r => r
    | None => 2 ^ Z.of_nat attempt
    end in
  if andb (match err_status e with Some st => Z.eqb st 429 | None => false end)
          (Nat.ltb attempt (maxRetries s))
  then Again [retryAfter * 1000]
  else if andb (Nat.ltb attempt (maxRetries s)) (openai_isRetryableError e)
  then Again [backoff s attempt]
  else if negb (openai_isRetryableError e) then Break
  else Again [].

Definition onError (ad : Adapter) : Service -> nat -> Error -> Next :=
  match ad with
  | Pinecone => pinecone_onError
  | Bedrock => bedrock_onError
  | OpenAI => openai_onError
  end.

(** [throw lastError] when no attempt was made. *)
Definition undefinedThrown : Error :=
  mkError "undefined" "undefined" None None None.

Section Retry.

Variable A : Type.
Variable ad : Adapter.
Variable s : Service.
Variable operation : Operation A.

(** The [for] loop from [attempt], with [fuel] rounds left before
    [attempt] passes [maxRetries]. *)
Fixpoint retry_from (fuel attempt : nat) (lastError : option Error)
  (waited : list Z) : RetryRun A :=
  match fuel with
  | O =>
      {| outcome := Throw (match lastError with
                           | Some e => e
                           | None => undefinedThrown
                           end);
         attempts := Nat.pred attempt;
         waits := waited |}
  | S fuel' =>
      match operation attempt with
      | inr v => {| outcome := Ok v; attempts := attempt; waits := waited |}
      | inl e =>
          match onError ad s attempt e with
          | Again w =>
              retry_from fuel' (S attempt) (Some e) (waited ++ w)%list
          | Break =>
              {| outcome := Throw e; attempts := attempt; waits := waited |}
          end
      end
  end.

Definition executeWithRetry : RetryRun A :=
  retry_from (maxRetries s) 1 None [].

End Retry.

Definition circuitOpenError (ad : Adapter) : Error :=
  mkError "Error"
    (match ad with
     | Pinecone => "Circuit breaker is OPEN - Pinecone service unavailable"
     | Bedrock => "Circuit breaker is OPEN - Bedrock service unavailable"
     | OpenAI => "Circuit breaker is OPEN - OpenAI service unavailable"
     end)
    None None None.

Definition set_state (st : BreakerState) (s : Service) : Service :=
  {| maxRetries := maxRetries s;
     retryDelay := retryDelay s;
     circuitBreakerState := st;
     failureCount := failureCount s;
     failureThreshold := failureThreshold s;
     resetTimeout := resetTimeout s;
     lastFailureTime := lastFailureTime s |}.

Definition set_failures (n : Z) (t : option Z) (s : Service) : Service :=
  {| maxRetries := maxRetries s;
     retryDelay := retryDelay s;
     circuitBreakerState := circuitBreakerState s;
     failureCount := n;
     failureThreshold := failureThreshold s;
     resetTimeout := resetTimeout s;
     lastFailureTime := t |}.

(** [handleFailure] at time [now]. *)
Definition handleFailure (now : Z) (s : Service) : Service :=
  let s := set_failures (failureCount s + 1) (Some now) s in
  if Z.leb (failureThreshold s) (failureCount s) then set_state OPEN s else s.

(** [executeWithCircuitBreaker], entered at time [now]; a failure is
    handled at time [later].  The result comes with the number of times
    the operation was called. *)
Definition executeWithCircuitBreaker {A} (ad : Adapter) (now later : Z)
  (operation : Operation A) (s : Service) : Service * result A * nat :=
  let gate :=
    match circuitBreakerState s with
    | OPEN =>
        let last := match lastFailureTime s with Some t => t | None => 0 end in
        if Z.ltb (resetTimeout s) (now - last) then Ok (set_state HALF_OPEN s)
        else Throw (circuitOpenError ad)
    | _ => Ok s
    end in
  match gate with
  | inl e => (s, Throw e, O)
  | inr s =>
      let run := executeWithRetry ad s operation in
      match outcome run with
      | inr v =>
          (match circuitBreakerState s with
           | HALF_OPEN => set_failures 0 (lastFailureTime s) (set_state CLOSED s)
           | _ => s
           end, Ok v, attempts run)
      | inl e => (handleFailure later s, Throw e, attempts run)
      end
  end.

(** A call that ends well, and one that ends badly with [e], whatever the
    attempt. *)
Definition succeeding {A} (v : A) : Operation A := fun _ => Ok v.
Definition failing {A} (e : Error) : Operation A := fun _ => Throw e.

(** A history of calls on one adapter, each with its entry time: [true]
    for an operation that succeeds, [false] for one that fails every
    attempt with [e]. *)
Fixpoint runCalls (ad : Adapter) (e : Error) (calls : list (Z * bool))
  (s : Service) : Service :=
  match calls with
  | [] => s
  | (now, ok) :: rest =>
      let op := if ok then succeeding tt else failing e in
      let '(s', _, _) := executeWithCircuitBreaker ad now now op s in
      runCalls ad e rest s'
  end.

End Resilience.

(** ** Health ([healthMonitor.js], [serviceManager.js]) *)

Module Health.

Import Resilience.
Local Open Scope string_scope.

(** What [getHealthStatus] of an adapter reports, as far as the health
    checks read it. *)
Record AdapterStatus := {
  configured : bool;
  breaker : BreakerState
}.

(** The state the health checks look at: the vector index adapter, the AI
    provider adapter (one adapter, and so one breaker, serves embeddings
    and completions alike), and the outcome of [getIndexStats]. *)
Record SystemState := {
  pineconeStatus : AdapterStatus;
  aiStatus : AdapterStatus;
  indexStats : result unit
}.

(** A health check gives the [status] property of the object it returns,
    when there is one, or throws. *)
Definition HealthCheck : Type := SystemState -> result (option string).

Record ServiceEntry := {
  name : string;
  healthCheck : HealthCheck;
  timeout : Z;
  critical : bool;
  lastStatus : string;
  consecutiveFailures : nat;
  enabled : bool
}.

(** [this.services]: a [Map], in insertion order. *)
Definition Services : Type := list ServiceEntry.

(** [Map.prototype.set]: an existing key keeps its place. *)
Fixpoint map_set (e : ServiceEntry) (services : Services) : Services :=
  match services with
  | [] => [e]
  | x :: t => if String.eqb (name x) (name e) then e :: t
              else x :: map_set e t
  end.

Record Options := {
  opt_timeout : option Z;
  opt_critical : option bool;
  opt_enabled : option bool
}.

Definition registerService (n : string) (check : HealthCheck) (o : Options)
  (services : Services) : Services :=
  map_set {| name := n;
             healthCheck := check;
             timeout := match opt_timeout o with
                        | Some t => if Z.eqb t 0 then 5000%Z else t
                        | None => 5000%Z
                        end;
             critical := match opt_critical o with
                         | Some b => b
                         | None => false
                         end;
             lastStatus := "unknown";
             consecutiveFailures := 0;
             enabled := match opt_enabled o with
                        | Some false => false
                        | _ => true
                        end |}
          services.

(** [checkServiceHealth] on one entry: the status it records. *)
Definition checkedStatus (st : SystemState) (e : ServiceEntry) : string :=
  match healthCheck e st with
  | inr (Some s) => if truthy_str s then s else "healthy"
  | inr None => "healthy"
  | inl _ => "unhealthy"
  end.

Definition checkEntry (st : SystemState) (e : ServiceEntry) : ServiceEntry :=
  {| name := name e;
     healthCheck := healthCheck e;
     timeout := timeout e;
     critical := critical e;
     lastStatus := checkedStatus st e;
     consecutiveFailures :=
       match healthCheck e st with
       | inl _ => S (consecutiveFailures e)
       | inr _ => O
       end;
     enabled := enabled e |}.

(** [checkAllServices]: every enabled service is checked. *)
Definition checkAllServices (st : SystemState) (services : Services)
  : Services :=
  map (fun e => if enabled e then checkEntry st e else e) services.

Definition unhealthy (e : ServiceEntry) : bool :=
  String.eqb (lastStatus e) "unhealthy".

(** [getOverallHealth().status] *)
Definition getOverallHealth (services : Services) : string :=
  let criticalServices := filter critical services in
  let unhealthyCritical := filter unhealthy criticalServices in
  let unhealthyServices := filter unhealthy services in
  if Nat.ltb 0 (List.length unhealthyCritical) then "critical"
  else if Nat.ltb 0 (List.length unhealthyServices) then "degraded"
  else "healthy".

(** The Pinecone check of [ServiceManager.registerHealthChecks]. *)
Definition pineconeCheck : HealthCheck := fun st =>
  if negb (configured (pineconeStatus st)) then Ok (Some "unhealthy")
  else match breaker (pineconeStatus st) with
       | OPEN => Ok (Some "unhealthy")
       | _ => match indexStats st with
              | inr _ => Ok (Some "healthy")
              | inl _ => Ok (Some "unhealthy")
              end
       end.

(** The AI service check of [ServiceManager.registerHealthChecks]. *)
Definition aiCheck : HealthCheck := fun st =>
  if negb (configured (aiStatus st)) then Ok (Some "unhealthy")
  else match breaker (aiStatus st) with
       | OPEN => Ok (Some "unhealthy")
       | _ => Ok (Some "healthy")
       end.

(** [ServiceManager.registerHealthChecks], for the provider [aiName]. *)
Definition registerHealthChecks (aiName : string) (services : Services)
  : Services :=
  let services :=
    registerService "pinecone" pineconeCheck
      {| opt_timeout := Some 10000%Z; opt_critical := Some true;
         opt_enabled := None |} services in
  registerService aiName aiCheck
    {| opt_timeout := Some 10000%Z; opt_critical := Some true;
       opt_enabled := None |} services.

(** The health seen after start-up and one monitoring round. *)
Definition monitoredHealth (aiName : string) (st : SystemState) : string :=
  getOverallHealth (checkAllServices st (registerHealthChecks aiName [])).

End Health.

(** ** The properties, in the words of the specification

    These definitions follow the specification's sentences, not the code;
    the theorems below compare them with the code. *)

Module Claims.

Import Matcher.
Local Open Scope Q_scope.

(** The finite value of a number (0 for the others; used on finite ones). *)
Definition val (x : num) : Q :=
  match x with Fin q => q | _ => 0 end.

(** A number printed with four decimals and read back is itself. *)
Definition rounded4 (x : num) : Prop := num_eq (toFixed4 x) x.

(** The bound on what binary floating point can add to or take from a
    value computed here. *)
Definition fpError : Q := 1 # 1000000000.

(** [r] is [x] rounded to four decimals, as far as floating point lets
    one say: a finite number that is [k / 10000] for an integer [k] (up to
    [fpError], as not every such fraction is a binary number), no further
    from [x] than half a unit of the fourth decimal and [fpError]. *)
Definition fourDecimals (x : Q) (r : num) : Prop :=
  exists q k,
    r = Fin q /\ Qabs (q - (k # 10000)) <= fpError /\
    Qabs (q - x) <= (1 # 20000) + fpError.


(** The share of the niches asked for that the creator has:
    [nicheAlignment / max(1, |creatorNiches|)]. *)
Definition nicheMatchRatioSpec (a : Assignment) (n : nat) : Q :=
  inject_Z (Z.of_nat n)
  / inject_Z (Z.of_nat (Nat.max 1 (List.length (or_empty (creatorNiches a))))).

(** [base] of the composite score. *)
Definition baseSpec (semanticSimilarity ratio audience value : Q) : Q :=
  0.7 * semanticSimilarity + 0.2 * ratio + 0.05 * audience + 0.05 * value.

(** The locale is present and, case folded, equals the region. *)
Definition localeEquals (a : Assignment) (c : Creator) : bool :=
  match targetAudience a with
  | Some ta =>
      match locale ta, region c with
      | Some loc, Some reg => String.eqb (toLowerCase loc) (toLowerCase reg)
      | _, _ => false
      end
  | None => false
  end.

(** The binary audience rule: 1 on a locale match, else 0. *)
Definition binaryAudienceMatch (a : Assignment) (c : Creator) : Q :=
  if localeEquals a c then 1 else 0.







(** No field of a match is NaN. *)
Definition noNaN (m : Match) : Prop :=
  is_NaN (matchScore m) = false /\
  is_NaN (semanticSimilarity (scoreBreakdown m)) = false /\
  is_NaN (nicheAlignment (scoreBreakdown m)) = false /\
  is_NaN (audienceMatch (scoreBreakdown m)) = false /\
  is_NaN (valueAlignment (scoreBreakdown m)) = false /\
  is_NaN (nicheBoost (scoreBreakdown m)) = false.

(** Every field of a match is a finite number. *)
Definition allFinite (m : Match) : Prop :=
  is_finite (matchScore m) = true /\
  is_finite (semanticSimilarity (scoreBreakdown m)) = true /\
  is_finite (nicheAlignment (scoreBreakdown m)) = true /\
  is_finite (audienceMatch (scoreBreakdown m)) = true /\
  is_finite (valueAlignment (scoreBreakdown m)) = true /\
  is_finite (nicheBoost (scoreBreakdown m)) = true.



(** The match score is a finite number, at most 1. *)
Definition cappedAtOne (a : Assignment) (c : Creator) (s : Q) : Prop :=
  exists m r, calculateMatch a c (Fin s) = Ok m /\
              matchScore m = Fin r /\ r <= 1.

(** The match score is a negative number. *)
Definition negativeScore (a : Assignment) (c : Creator) (s : Q) : Prop :=
  exists m r, calculateMatch a c (Fin s) = Ok m /\
              matchScore m = Fin r /\ r < 0.

(** [w] occurs in [s]. *)
Definition occursIn (w s : string) : Prop :=
  exists pre post, s = (pre ++ w ++ post)%string.

(** [k] of the elements of [l] satisfy [P]. *)
Inductive countOf {A} (P : A -> Prop) : list A -> nat -> Prop :=
| countOf_nil : countOf P [] 0
| countOf_yes x l k : P x -> countOf P l k -> countOf P (x :: l) (S k)
| countOf_no x l k : ~ P x -> countOf P l k -> countOf P (x :: l) k.

(** The locale part: 0.4 when locale and region are both there and equal
    up to case. *)
Definition localeShare (a : Assignment) (c : Creator) (l : Q) : Prop :=
  match targetAudience a with
  | Some ta =>
      match present (locale ta), present (region c) with
      | Some loc, Some reg =>
          (toLowerCase reg = toLowerCase loc /\ l == 0.4) \/
          (toLowerCase reg <> toLowerCase loc /\ l == 0)
      | _, _ => l == 0
      end
  | None => l == 0
  end.

(** A word of the demographic is found when it occurs in the audience
    interests of the creator, put in lower case and joined by spaces, or
    in the summary, in lower case. *)
Definition wordFound (an : Analysis) (w : string) : Prop :=
  occursIn w (join_space (map toLowerCase (or_empty (audienceInterests an))))
  \/ occursIn w (toLowerCase (match summary an with
                              | Some s => s
                              | None => ""%string
                              end)).

(** The demographic part: 0.3 times the share of the words of the
    demographic, in lower case and split at white space, that are
    found. *)
Definition demographicShare (a : Assignment) (an : Analysis) (d : Q)
  : Prop :=
  match targetAudience a with
  | Some ta =>
      match present (demographic ta) with
      | Some dm =>
          let words := split_ws (toLowerCase dm) in
          exists k,
            countOf (wordFound an) words k /\
            d == 0.3 * (inject_Z (Z.of_nat k)
                        / inject_Z (Z.of_nat (List.length words)))
      | None => d == 0
      end
  | None => d == 0
  end.

(** The tone asked for matches a tone of the creator when one occurs in
    the other, case apart. *)
Definition toneMatched (ts : string) (es : EngagementStyle) : Prop :=
  exists tn,
    In tn (or_empty (tone es)) /\
    (occursIn (toLowerCase ts) (toLowerCase tn) \/
     occursIn (toLowerCase tn) (toLowerCase ts)).

(** The tone part: 0.3 on a tone match. *)
Definition toneShare (a : Assignment) (an : Analysis) (t : Q) : Prop :=
  match targetAudience a with
  | Some _ =>
      match present (toneStyle a), engagementStyle an with
      | Some ts, Some es =>
          (toneMatched ts es /\ t == 0.3) \/ (~ toneMatched ts es /\ t == 0)
      | _, _ => t == 0
      end
  | None => t == 0
  end.

(** The audience component of the breakdown is the multi-factor score: the
    sum of the locale, demographic and tone parts, up to [fpError],
    within [[0, 1]], and 0 without a target audience. *)
Definition multiFactorAudience (a : Assignment) (c : Creator) (an : Analysis)
  (s : num) : Prop :=
  exists m q l d t,
    calculateMatch a c s = Ok m /\
    audienceMatch (scoreBreakdown m) = Fin q /\
    localeShare a c l /\
    demographicShare a an d /\
    toneShare a an t /\
    Qabs (q - (l + d + t)) <= fpError /\
    0 <= q <= 1 /\
    (targetAudience a = None -> q == 0).

(** The audience component of the breakdown is the binary locale rule. *)
Definition binaryAudience (a : Assignment) (c : Creator) (m : Match) : Prop :=
  num_eq (audienceMatch (scoreBreakdown m)) (Fin (binaryAudienceMatch a c)).

(** A non-finite semantic score is taken as a cosine of 0, and no field is
    NaN. *)
Definition nonFiniteNeutral (m : Match) : Prop :=
  num_eq (semanticSimilarity (scoreBreakdown m)) (Fin 0.5) /\ noNaN m.

(** No demographic word is the empty string (the demographic neither
    starts nor ends with white space). *)
Definition noEmptyWord (a : Assignment) : Prop :=
  forall ta d, targetAudience a = Some ta ->
               present (demographic ta) = Some d ->
               ~ In EmptyString (demographicWords d).

(** A creator without the optional fields scores 0 on the components they
    feed. *)
Definition missingFieldsScoreZero (a : Assignment) (c : Creator)
  (an : Analysis) (m : Match) : Prop :=
  (primaryNiches an = None -> secondaryNiches an = None ->
   num_eq (nicheAlignment (scoreBreakdown m)) (Fin 0) /\
   num_eq (nicheBoost (scoreBreakdown m)) (Fin 0)) /\
  (apparentValues an = None ->
   num_eq (valueAlignment (scoreBreakdown m)) (Fin 0)) /\
  (region c = None -> engagementStyle an = None ->
   audienceInterests an = None -> summary an = None -> noEmptyWord a ->
   num_eq (audienceMatch (scoreBreakdown m)) (Fin 0)).

(** The match of a finite semantic score: every field finite, none NaN,
    missing creator fields scoring 0. *)
Definition finiteMatch (a : Assignment) (c : Creator) (an : Analysis) (s : Q)
  : Prop :=
  exists m, calculateMatch a c (Fin s) = Ok m /\
            allFinite m /\ noNaN m /\ missingFieldsScoreZero a c an m.

(** *** The match endpoint *)

Import Server.


(** Every creator of the catalog has its [analysis]. *)
Definition wellFormedCatalog (creators : Catalog) : Prop :=
  Forall (fun kc => analysis (snd kc) <> None) creators.



(** The request is refused with [code] and nothing is called. *)
Definition refusedWithoutCalls (code : Z) (req : Request) (w : World) : Prop :=
  exists resp, postMatches true req w = (resp, []) /\ status resp = code.

(** The request is refused with a 4xx status and neither the embedding
    adapter nor the vector index is called. *)
Definition validationError (req : Request) (w : World) : Prop :=
  let (resp, calls) := postMatches true req w in
  (400 <= status resp < 500)%Z /\ existsb is_vector_call calls = false.

(** *** Health *)

Import Health.

(** The vector index adapter reports unhealthy. *)
Definition pineconeDown (st : SystemState) : bool :=
  orb (negb (configured (pineconeStatus st)))
      (orb (match breaker (pineconeStatus st) with
            | Resilience.OPEN => true
            | _ => false
            end)
           (match indexStats st with inl _ => true | inr _ => false end)).

(** The AI provider adapter reports unhealthy. *)
Definition aiDown (st : SystemState) : bool :=
  orb (negb (configured (aiStatus st)))
      (match breaker (aiStatus st) with
       | Resilience.OPEN => true
       | _ => false
       end).





End Claims.

(** ** Sample data *)

Module Examples.

Import Matcher.
Local Open Scope string_scope.

Definition analysis_diy : Analysis := {|
  summary := Some "Practical home repair guides";
  primaryNiches := Some ["Home Improvement"; "DIY"];
  secondaryNiches := None;
  apparentValues := Some ["Sustainability"];
  audienceInterests := None;
  engagementStyle := None
|}.

Definition creator_diy : Creator := {|
  uniqueId := Some "homefixhacks";
  nickname := Some "Dani M.";
  heartCount := Some 1000%Z;
  followerCount := Some 500%Z;
  region := Some "ca";
  analysis := Some analysis_diy
|}.

(** An assignment with the three required texts and no filter. *)
Definition assignment_plain : Assignment := {|
  topic := Some "Investing 101";
  keyTakeaway := Some "Save more";
  additionalContext := Some "Teen audience";
  targetAudience := None;
  creatorNiches := None;
  creatorValues := None;
  toneStyle := None
|}.

(** Three values asked for, of which the creator shows one. *)
Definition assignment_values : Assignment := {|
  topic := Some "DIY Home Renovation";
  keyTakeaway := Some "Easy fixes for homeowners";
  additionalContext := Some "Looking for practical guides";
  targetAudience := None;
  creatorNiches := None;
  creatorValues := Some ["Sustainability"; "Practicality"; "Humor"];
  toneStyle := None
|}.

(** A locale asked for, and nothing else. *)
Definition assignment_locale : Assignment := {|
  topic := Some "DIY Home Renovation";
  keyTakeaway := Some "Easy fixes for homeowners";
  additionalContext := Some "Looking for practical guides";
  targetAudience := Some {| locale := Some "CA"; demographic := None |};
  creatorNiches := None;
  creatorValues := None;
  toneStyle := None
|}.

(** Two niches asked for, and nothing else. *)
Definition assignment_niches : Assignment := {|
  topic := Some "DIY Home Renovation";
  keyTakeaway := Some "Easy fixes for homeowners";
  additionalContext := Some "Looking for practical guides";
  targetAudience := None;
  creatorNiches := Some ["Home Improvement"; "Gardening"];
  creatorValues := None;
  toneStyle := None
|}.

(** A creator record without [analysis]. *)
Definition creator_bare : Creator := {|
  uniqueId := Some "newcomer";
  nickname := Some "New";
  heartCount := None;
  followerCount := None;
  region := None;
  analysis := None
|}.

(** An assignment object without any of its fields. *)
Definition assignment_empty : Assignment := {|
  topic := None;
  keyTakeaway := None;
  additionalContext := None;
  targetAudience := None;
  creatorNiches := None;
  creatorValues := None;
  toneStyle := None
|}.

(** A match as the ranker reads it: creator counts and the three keys of
    the breakdown. *)
Definition sampleMatch (id : string) (hearts followers : Z) (niches : nat)
  (semantic score : Q) : Match := {|
  creator := {| uniqueId := Some id;
                nickname := Some id;
                heartCount := Some hearts;
                followerCount := Some followers;
                region := None;
                analysis := None |};
  matchScore := Fin score;
  scoreBreakdown := {| semanticSimilarity := Fin semantic;
                       nicheAlignment := of_nat niches;
                       audienceMatch := Fin 0;
                       valueAlignment := Fin 0;
                       nicheBoost := Fin 0 |}
|}.

(** Two creators that tie on niche count, semantic similarity and match
    score, with engagement 0.10 and 0.05, and a third with more niches. *)
Definition match_p : Match := sampleMatch "p" 100 1000 1 0.8 0.9.
Definition match_q : Match := sampleMatch "q" 50 1000 1 0.805 0.9005.
Definition match_r : Match := sampleMatch "r" 1 1000 2 0.1 0.3.

(** A catalog of one creator and an outside world in which every call
    succeeds and the vector query returns that creator. *)
Definition catalog_one : Server.Catalog := [("homefixhacks", creator_diy)].

Definition world_ok : Server.World := {|
  Server.generateEmbedding := fun _ => Ok [Fin 0];
  Server.queryVectors := fun _ _ =>
    Ok (Some [{| Server.cand_id := "homefixhacks";
                 Server.cand_score := Fin 0.9 |}]);
  Server.loadCreators := Ok catalog_one;
  Server.generateCompletion := fun _ => Ok "Mocked AI reasoning.";
  Server.assignmentServiceUrl := None
|}.

(** The same world with the embedding provider down. *)
Definition unavailable : Error :=
  mkError "ServiceUnavailableException" "Bedrock is unavailable" None None None.

Definition world_down : Server.World := {|
  Server.generateEmbedding := fun _ => Throw unavailable;
  Server.queryVectors := Server.queryVectors world_ok;
  Server.loadCreators := Ok catalog_one;
  Server.generateCompletion := fun _ => Ok "Mocked AI reasoning.";
  Server.assignmentServiceUrl := None
|}.

Definition request_plain : Server.Request := {|
  Server.req_assignment := Some assignment_plain;
  Server.req_assignmentId := None
|}.

(** A request whose assignment has none of the required fields. *)
Definition request_empty_assignment : Server.Request := {|
  Server.req_assignment := Some assignment_empty;
  Server.req_assignmentId := None
|}.

(** A request without assignment. *)
Definition request_no_assignment : Server.Request := {|
  Server.req_assignment := None;
  Server.req_assignmentId := None
|}.

(** A configuration error of the vector index: not a retryable one. *)
Definition configInvalid : Error :=
  mkError "PineconeBadRequestError"
    "Vector dimension 1024 does not match the dimension of the index 1536"
    None (Some 400%Z) None.

(** The vector index is healthy and the breaker of the AI provider is
    open. *)
Definition state_ai_open : Health.SystemState := {|
  Health.pineconeStatus :=
    {| Health.configured := true; Health.breaker := Resilience.CLOSED |};
  Health.aiStatus :=
    {| Health.configured := true; Health.breaker := Resilience.OPEN |};
  Health.indexStats := Ok tt
|}.

(** The world in which only the completion adapter is down. *)
Definition world_silent : Server.World := {|
  Server.generateEmbedding := Server.generateEmbedding world_ok;
  Server.queryVectors := Server.queryVectors world_ok;
  Server.loadCreators := Ok catalog_one;
  Server.generateCompletion := fun _ => Throw unavailable;
  Server.assignmentServiceUrl := None
|}.

(** The world whose vector index returns a creator that has left the
    catalog. *)
Definition world_stale : Server.World := {|
  Server.generateEmbedding := Server.generateEmbedding world_ok;
  Server.queryVectors := fun _ _ =>
    Ok (Some [{| Server.cand_id := "retired";
                 Server.cand_score := Fin 0.9 |}]);
  Server.loadCreators := Ok catalog_one;
  Server.generateCompletion := Server.generateCompletion world_ok;
  Server.assignmentServiceUrl := None
|}.

(** The world in which [creators.json] cannot be read. *)
Definition fileMissing : Error :=
  mkError "Error" "ENOENT: no such file or directory" (Some "ENOENT") None
    None.

Definition world_no_catalog : Server.World := {|
  Server.generateEmbedding := Server.generateEmbedding world_ok;
  Server.queryVectors := Server.queryVectors world_ok;
  Server.loadCreators := Throw fileMissing;
  Server.generateCompletion := Server.generateCompletion world_ok;
  Server.assignmentServiceUrl := None
|}.

(** A throttled call, and a breaker opened by five failures, the last at
    time 4. *)
Definition throttled : Error :=
  mkError "ThrottlingException" "Rate exceeded" None None None.

Definition service_open : Resilience.Service := {|
  Resilience.maxRetries := 3;
  Resilience.retryDelay := 1000;
  Resilience.circuitBreakerState := Resilience.OPEN;
  Resilience.failureCount := 5;
  Resilience.failureThreshold := 5;
  Resilience.resetTimeout := 30000;
  Resilience.lastFailureTime := Some 4%Z
|}.

(** A creator with audience interests and tones, and an assignment that
    asks for a locale, a demographic of three words and a tone. *)
Definition analysis_garden : Analysis := {|
  summary := Some "Seasonal gardening tips for young families";
  primaryNiches := Some ["Gardening"];
  secondaryNiches := Some ["Home Improvement"];
  apparentValues := Some ["Sustainability"];
  audienceInterests := Some ["Homeowners"; "Outdoor living"];
  engagementStyle := Some {| tone := Some ["Friendly"; "Practical"] |}
|}.

Definition creator_garden : Creator := {|
  uniqueId := Some "gardengrace";
  nickname := Some "Grace";
  heartCount := Some 300%Z;
  followerCount := Some 1500%Z;
  region := Some "CA";
  analysis := Some analysis_garden
|}.

Definition assignment_audience : Assignment := {|
  topic := Some "Backyard makeover";
  keyTakeaway := Some "Small gardens, big effect";
  additionalContext := Some "Spring campaign";
  targetAudience := Some {| locale := Some "ca";
                            demographic := Some "Young homeowners renters" |};
  creatorNiches := None;
  creatorValues := None;
  toneStyle := Some "friendly"
|}.


(** A catalog of four creators: against [assignment_niches] they have 0, 1,
    0 and 2 of the niches asked for. *)
Definition creator_plain (id niche : string) (hearts followers : Z)
  : Creator := {|
  uniqueId := Some id;
  nickname := Some id;
  heartCount := Some hearts;
  followerCount := Some followers;
  region := None;
  analysis := Some {| summary := Some "Short videos";
                      primaryNiches := Some [niche];
                      secondaryNiches := None;
                      apparentValues := None;
                      audienceInterests := None;
                      engagementStyle := None |}
|}.

Definition catalog_four : Server.Catalog :=
  [("cookcarl", creator_plain "cookcarl" "Cooking" 10 100);
   ("homefixhacks", creator_diy);
   ("fitfrank", creator_plain "fitfrank" "Fitness" 50 100);
   ("gardengrace", creator_garden)].

Definition world_down_four : Server.World := {|
  Server.generateEmbedding := fun _ => Throw unavailable;
  Server.queryVectors := Server.queryVectors world_ok;
  Server.loadCreators := Ok catalog_four;
  Server.generateCompletion := fun _ => Ok "Mocked AI reasoning.";
  Server.assignmentServiceUrl := None
|}.

Definition request_niches : Server.Request := {|
  Server.req_assignment := Some assignment_niches;
  Server.req_assignmentId := None
|}.

End Examples.

(** ** Further behaviour of the code

    Helpers for stating what the code does beyond the properties above. *)

Module Behaviour.

Import Matcher Claims.
Local Open Scope Q_scope.

(** The assignment with [creatorNiches] replaced. *)
Definition withNiches (a : Assignment) (niches : option (list string))
  : Assignment := {|
  topic := topic a;
  keyTakeaway := keyTakeaway a;
  additionalContext := additionalContext a;
  targetAudience := targetAudience a;
  creatorNiches := niches;
  creatorValues := creatorValues a;
  toneStyle := toneStyle a
|}.

(** The assignment asks for at least one niche, for at least one value, or
    for a tone within a target audience: the three places where
    [calculateMatch] reads [creator.analysis] without a guard. *)
Definition asksNiches (a : Assignment) : bool :=
  match creatorNiches a with Some (_ :: _) => true | _ => false end.

Definition asksValues (a : Assignment) : bool :=
  match creatorValues a with Some (_ :: _) => true | _ => false end.

Definition asksTone (a : Assignment) : bool :=
  match targetAudience a, present (toneStyle a) with
  | Some _, Some _ => true
  | _, _ => false
  end.

Definition readsAnalysis (a : Assignment) : bool :=
  orb (asksNiches a) (orb (asksValues a) (asksTone a)).

(** The niches of the creator, case folded. *)
Definition creatorNichesLower (an : Analysis) : list string :=
  map toLowerCase
      (or_empty (primaryNiches an) ++ or_empty (secondaryNiches an)).

(** The niche is one of the creator's, up to case. *)
Definition nicheMatches (an : Analysis) (niche : string) : bool :=
  arr_includes (creatorNichesLower an) (toLowerCase niche).

(** The niche key of a match, as the ranker reads it. *)
Definition nicheKey (m : Match) : Q :=
  val (nicheAlignment (scoreBreakdown m)).


(** *** The match endpoint *)

Import Server.

(** The matches of a body (none in an error body). *)
Definition matchesOf (b : Body) : list Match :=
  match b with
  | BMatches _ matches _ _ => matches
  | _ => []
  end.

(** The [isFallback] flag of a body, when it has one. *)
Definition fallbackOf (b : Body) : option bool :=
  match b with
  | BMatches _ _ _ f | BNoMatches _ _ f => Some f
  | BError _ => None
  end.

Definition is_query_call (c : Call) : bool :=
  match c with CallQueryVectors _ => true | _ => false end.

Definition is_completion_call (c : Call) : bool :=
  match c with CallGenerateCompletion _ => true | _ => false end.

(** The lookup [creators[id]] of the candidate gives a value: an own entry
    of the catalog, or a member that the catalog inherits as an object. *)
Definition inCatalog (creators : Catalog) (cand : Candidate) : bool :=
  match lookup creators (cand_id cand) with Some _ => true | None => false end.

(** The id of the candidate is no key of the catalog, yet a name that the
    catalog inherits as an object. *)
Definition inherits (creators : Catalog) (cand : Candidate) : bool :=
  match own creators (cand_id cand) with
  | Some _ => false
  | None => arr_includes inheritedNames (cand_id cand)
  end.

(** The score of the candidate is a cosine: finite and within [[-1, 1]]. *)
Definition cosineScore (cand : Candidate) : bool :=
  match cand_score cand with
  | Fin s => Qle_bool (-1) s && Qle_bool s 1
  | _ => false
  end.

(** A candidate as the vector index answers it for a catalog it was built
    from: a cosine score, and no inherited name as id. *)
Definition plainCandidate (creators : Catalog) (cand : Candidate) : bool :=
  negb (inherits creators cand) && cosineScore cand.

(** Two outside worlds that differ at most in what the completion adapter
    answers. *)
Definition sameButCompletion (w w' : World) : Prop :=
  generateEmbedding w = generateEmbedding w' /\
  queryVectors w = queryVectors w' /\
  loadCreators w = loadCreators w' /\
  assignmentServiceUrl w = assignmentServiceUrl w'.

(** A match scored from one of the candidates: its creator is the catalog
    entry of the candidate, and its semantic similarity the candidate's
    score [s], normalized to [(s + 1) / 2] and rounded to four decimals. *)
Definition scoredFrom (creators : Catalog) (cands : list Candidate)
  (m : Match) : Prop :=
  exists cand s,
    In cand cands /\
    own creators (cand_id cand) = Some (creator m) /\
    cand_score cand = Fin s /\
    fourDecimals ((s + 1) / 2) (semanticSimilarity (scoreBreakdown m)).

(** The answer on the vector path: status 200, [isFallback] false, as many
    matches as there are candidates with a catalog entry, up to three, each
    scored from a candidate. *)
Definition vectorResponse (req : Request) (w : World) (creators : Catalog)
  (cands : list Candidate) : Prop :=
  exists resp calls,
    postMatches true req w = (resp, calls) /\
    status resp = 200%Z /\
    fallbackOf (body resp) = Some false /\
    List.length (matchesOf (body resp))
    = Nat.min 3 (List.length (filter (inCatalog creators) cands)) /\
    Forall (scoredFrom creators cands) (matchesOf (body resp)).

(** *** Retry and circuit breaker *)

Import Resilience.

(** The back-off waits before attempts 2 to [k]. *)
Definition backoffs (s : Service) (k : nat) : list Z :=
  map (backoff s) (seq 1 (Nat.pred k)).

Definition total (waits : list Z) : Z := fold_right Z.add 0%Z waits.

(** The state of a breaker between two calls: closed below the threshold,
    or open at or above it with the time of the last failure recorded. *)
Definition breakerConsistent (s : Service) : Prop :=
  match circuitBreakerState s with
  | CLOSED => (failureCount s < failureThreshold s)%Z
  | OPEN =>
      (failureThreshold s <= failureCount s)%Z /\ lastFailureTime s <> None
  | HALF_OPEN => False
  end.

(** A history of calls on one adapter: each call with its entry time, the
    time at which a failure is handled, and its operation. *)
Fixpoint runOperations (ad : Adapter)
  (calls : list (Z * Z * Operation unit)) (s : Service) : Service :=
  match calls with
  | [] => s
  | (now, later, op) :: rest =>
      let '(s', _, _) := executeWithCircuitBreaker ad now later op s in
      runOperations ad rest s'
  end.

(** The reset timeout has run out at [now]. *)
Definition timedOut (s : Service) (now : Z) : bool :=
  Z.ltb (resetTimeout s)
        (now - match lastFailureTime s with Some t => t | None => 0%Z end).

(** An operation that fails with the errors of [errs], one attempt after
    the other, and succeeds with [v] from then on. *)
Definition scripted {A} (errs : list Error) (v : A) : Operation A :=
  fun attempt =>
    match nth_error errs (Nat.pred attempt) with
    | Some e => Throw e
    | None => Ok v
    end.

(** The error is a rate limit as the adapter tells one: a throttling
    exception on Bedrock, status 429 (here without a [retry-after] header)
    on OpenAI; the Pinecone adapter tells none. *)
Definition rateLimited (ad : Adapter) (e : Error) : bool :=
  match ad with
  | Pinecone => false
  | Bedrock =>
      name_in ["ThrottlingException";
               "ProvisionedThroughputExceededException"]%string e
  | OpenAI =>
      andb (match err_status e with Some st => Z.eqb st 429 | None => false end)
           (match err_retry_after e with None => true | Some _ => false end)
  end.

(** The waits of a rate-limited call before attempts 2 to [k]: 2, 4, 8, ...
    seconds. *)
Definition rateLimitWaits (k : nat) : list Z :=
  map (fun attempt => (2 ^ Z.of_nat attempt * 1000)%Z) (seq 1 (Nat.pred k)).

(** The error of the adapter is not retryable. *)
Definition notRetryable (ad : Adapter) (e : Error) : bool :=
  match ad with
  | Pinecone => false
  | Bedrock => negb (bedrock_isRetryableError e)
  | OpenAI => negb (openai_isRetryableError e)
  end.

(** The state, the outcome and the number of operation calls of a breaker
    call. *)
Definition stateAfter {A} (r : Service * result A * nat) : Service :=
  fst (fst r).
Definition outcomeOf {A} (r : Service * result A * nat) : result A :=
  snd (fst r).
Definition callsOf {A} (r : Service * result A * nat) : nat := snd r.

(** All calls of the history enter no later than [resetTimeout] after the
    last failure. *)
Definition withinWindow (s : Service) (calls : list (Z * Z * Operation unit))
  : bool :=
  forallb (fun c => negb (timedOut s (fst (fst c)))) calls.

(** The operations called over a history, call by call. *)
Fixpoint operationCalls (ad : Adapter)
  (calls : list (Z * Z * Operation unit)) (s : Service) : list nat :=
  match calls with
  | [] => []
  | (now, later, op) :: rest =>
      let r := executeWithCircuitBreaker ad now later op s in
      callsOf r :: operationCalls ad rest (stateAfter r)
  end.

(** What a half-open probe leaves: closed with the count reset when it
    succeeds, open again with the timer restarted at [later] when it
    fails. *)
Definition probeOutcome {A} (s : Service) (later : Z)
  (r : Service * result A * nat) : Prop :=
  match outcomeOf r with
  | inr _ =>
      circuitBreakerState (stateAfter r) = CLOSED /\
      failureCount (stateAfter r) = 0%Z
  | inl _ =>
      circuitBreakerState (stateAfter r) = OPEN /\
      failureCount (stateAfter r) = (failureCount s + 1)%Z /\
      lastFailureTime (stateAfter r) = Some later
  end.

(** [n] failing calls, entered at the given times. *)
Definition failedCalls (times : list Z) : list (Z * bool) :=
  map (fun t => (t, false)) times.

End Behaviour.

(** ** Health history and metrics ([healthMonitor.js]) *)

Module Monitor.

Import Health.
Local Open Scope string_scope.

(** A stored health result, as far as the history readers look at it. *)
Record HealthResult := {
  hr_status : string;
  hr_responseTime : option Z
}.

Definition maxHistorySize : nat := 100.

(** [addToHistory], on the history of one service: [push], then [shift]
    when the history has grown past [maxHistorySize]. *)
Definition addToHistory (history : list HealthResult)
  (healthResult : HealthResult) : list HealthResult :=
  let history := (history ++ [healthResult])%list in
  if Nat.ltb maxHistorySize (List.length history) then tl history
  else history.

(** The history after the results of [results] were added in turn. *)
Definition recordAll (history results : list HealthResult)
  : list HealthResult :=
  fold_left addToHistory results history.

(** [Array.prototype.slice(start)] for an integer [start]: a negative
    [start] counts from the end. *)
Definition slice_from {A} (start : Z) (l : list A) : list A :=
  let len := Z.of_nat (List.length l) in
  let k := if Z.ltb start 0 then Z.max (len + start) 0
           else Z.min start len in
  skipn (Z.to_nat k) l.

(** [getServiceHistory(serviceName, limit = 10)] on the history of the
    service. *)
Definition getServiceHistory (history : list HealthResult)
  (limit : option Z) : list HealthResult :=
  slice_from (- match limit with Some n => n | None => 10 end)%Z history.

(** [Math.round] *)
Definition js_round (q : Q) : Z := Qfloor (q + (1 # 2)).

Definition is_status (s : string) (h : HealthResult) : bool :=
  String.eqb (hr_status h) s.

(** [.filter(rt => rt !== undefined)] *)
Fixpoint defined (l : list (option Z)) : list Z :=
  match l with
  | [] => []
  | Some z :: t => z :: defined t
  | None :: t => defined t
  end.

(** [.reduce((a, b) => a + b, 0)] *)
Definition sum (l : list Z) : Z := fold_left Z.add l 0%Z.

Record Metrics := {
  uptime : Q;
  averageResponseTime : option Z;
  minResponseTime : option Z;
  maxResponseTime : option Z;
  totalChecks : nat;
  failedChecks : nat
}.

Definition ratio (n d : nat) : Q :=
  inject_Z (Z.of_nat n) / inject_Z (Z.of_nat d).

Definition getServiceMetrics (history : list HealthResult)
  : option Metrics :=
  match history with
  | [] => None
  | _ :: _ =>
      let responseTimes := defined (map hr_responseTime history) in
      let up :=
        ratio (List.length (filter (is_status "healthy") history))
              (List.length history) in
      Some {|
        uptime := inject_Z (js_round (up * 100 * 100)) / 100;
        averageResponseTime :=
          match responseTimes with
          | [] => None
          | _ :: _ =>
              Some (js_round (inject_Z (sum responseTimes)
                              / inject_Z (Z.of_nat
                                            (List.length responseTimes))))
          end;
        minResponseTime :=
          match responseTimes with
          | [] => None
          | x :: t => Some (fold_left Z.min t x)
          end;
        maxResponseTime :=
          match responseTimes with
          | [] => None
          | x :: t => Some (fold_left Z.max t x)
          end;
        totalChecks := List.length history;
        failedChecks := List.length (filter (is_status "unhealthy") history)
      |}
  end.

Definition with_enabled (b : bool) (e : ServiceEntry) : ServiceEntry :=
  {| name := name e;
     healthCheck := healthCheck e;
     timeout := timeout e;
     critical := critical e;
     lastStatus := lastStatus e;
     consecutiveFailures := consecutiveFailures e;
     enabled := b |}.

(** [services.get(serviceName)], then [service.enabled = b] when there is
    such a service. *)
Fixpoint set_enabled (b : bool) (serviceName : string) (services : Services)
  : Services :=
  match services with
  | [] => []
  | x :: t =>
      if String.eqb (name x) serviceName then with_enabled b x :: t
      else x :: set_enabled b serviceName t
  end.

Definition enableService : string -> Services -> Services :=
  set_enabled true.

Definition disableService : string -> Services -> Services :=
  set_enabled false.

(** [services.get(serviceName)] *)
Definition getService (serviceName : string) (services : Services)
  : option ServiceEntry :=
  find (fun x => String.eqb (name x) serviceName) services.

(** Monitoring rounds, one for each state the system is found in. *)
Definition monitor (states : list SystemState) (services : Services)
  : Services :=
  fold_left (fun services st => checkAllServices st services) states services.

(** The metrics agree with each other: the uptime is a percentage, the
    failed checks are among the checks, and the average response time,
    when there is one, lies between the least and the greatest. *)
Definition metricsConsistent (m : Metrics) : Prop :=
  (0 <= uptime m /\ uptime m <= 100)%Q /\
  (failedChecks m <= totalChecks m)%nat /\
  match minResponseTime m, averageResponseTime m, maxResponseTime m with
  | Some lo, Some avg, Some hi => (lo <= avg /\ avg <= hi)%Z
  | None, None, None => True
  | _, _, _ => False
  end.

(** The history holds the latest results, [maxHistorySize] at most. *)
Definition latest (all : list HealthResult) : list HealthResult :=
  skipn (List.length all - maxHistorySize) all.

End Monitor.

(** ** The creator cache ([server.js], [loadCreators]) *)

Module Cache.

Local Open Scope Z_scope.

Record CacheState := {
  creatorCache : option Server.Catalog;
  lastCacheUpdate : Z
}.

Definition initialCache : CacheState :=
  {| creatorCache := None; lastCacheUpdate := 0 |}.

Definition CACHE_TTL : Z := 300000.

(** [loadCreators] at time [now], when reading and parsing the file would
    give [file]: the new cache, the answer, and whether the file was
    read. *)
Definition loadCreators (now : Z) (file : result Server.Catalog)
  (st : CacheState) : CacheState * result Server.Catalog * bool :=
  let reload :=
    match file with
    | inl e => (st, Throw e, true)
    | inr c => ({| creatorCache := Some c; lastCacheUpdate := now |},
                Ok c, true)
    end in
  match creatorCache st with
  | Some c =>
      if Z.ltb (now - lastCacheUpdate st) CACHE_TTL then (st, Ok c, false)
      else reload
  | None => reload
  end.

(** A history of loads: each with its time and what the file would give,
    paired with the answer. *)
Fixpoint loads (calls : list (Z * result Server.Catalog)) (st : CacheState)
  : list (Z * result Server.Catalog * result Server.Catalog) :=
  match calls with
  | [] => []
  | (now, file) :: rest =>
      let '(st', answer, _) := loadCreators now file st in
      (now, file, answer) :: loads rest st'
  end.

(** The answer of a load is a catalog read from the file at one of the
    calls, less than [CACHE_TTL] before, or the error of its own read. *)
Definition servedFresh (calls : list (Z * result Server.Catalog))
  (load : Z * result Server.Catalog * result Server.Catalog) : Prop :=
  let '(now, file, answer) := load in
  match answer with
  | inr c => exists t, In (t, inr c) calls /\ now - t < CACHE_TTL
  | inl e => file = inl e
  end.

End Cache.

(** ** Content framing ([server.js], [POST /matches/framing]) *)

Module Framing.

Import Matcher.
Local Open Scope string_scope.

(** The creator of the request body, with the properties the prompt
    reads. *)
Record FramingCreator := {
  fc_nickname : option string;
  fc_bio : option string;
  fc_analysis : option Analysis
}.

Record FramingRequest := {
  fr_assignment : option Assignment;
  fr_creator : option FramingCreator
}.

Inductive FramingBody :=
| FError (error : string)
| FFraming (a : Assignment) (c : FramingCreator) (framing : string).

Record FramingResponse := {
  f_status : Z;
  f_body : FramingBody
}.

(** [Array.prototype.join(', ')] *)
Fixpoint join_comma (l : list string) : string :=
  match l with
  | [] => ""
  | [x] => x
  | x :: t => x ++ ", " ++ join_comma t
  end.

(** [creator.analysis?.engagementStyle?.tone?.join(', ') || 'Not specified'] *)
Definition styleOf (c : FramingCreator) : string :=
  match fc_analysis c with
  | Some an =>
      match engagementStyle an with
      | Some es =>
          match tone es with
          | Some l => if truthy_str (join_comma l) then join_comma l
                      else "Not specified"
          | None => "Not specified"
          end
      | None => "Not specified"
      end
  | None => "Not specified"
  end.

Definition framingPrompt (a : Assignment) (c : FramingCreator) : string :=
  Server.nl
  ++ "      Create personalized content framing for this creator and assignment:" ++ Server.nl
  ++ "      " ++ Server.nl
  ++ "      Assignment: " ++ interpolate (topic a) ++ Server.nl
  ++ "      Key Message: " ++ interpolate (keyTakeaway a) ++ Server.nl
  ++ "      Context: " ++ interpolate (additionalContext a) ++ Server.nl
  ++ "      " ++ Server.nl
  ++ "      Creator: " ++ interpolate (fc_nickname c) ++ Server.nl
  ++ "      Bio: " ++ interpolate (fc_bio c) ++ Server.nl
  ++ "      Style: " ++ styleOf c ++ Server.nl
  ++ "      " ++ Server.nl
  ++ "      Provide 2-3 specific framing suggestions that align with the creator's style and audience." ++ Server.nl
  ++ "    ".

(** The [catch] of the handler. *)
Definition failure (e : Error) : FramingResponse :=
  if str_includes (err_message e) "Circuit breaker"
  then {| f_status := 503; f_body := FError "Service temporarily unavailable" |}
  else {| f_status := 500; f_body := FError "Failed to generate framing" |}.

(** The handler, with the completion adapter as [generateCompletion]; the
    answer comes with the prompts the adapter was called with. *)
Definition postFraming (servicesInitialized : bool) (req : FramingRequest)
  (generateCompletion : string -> result string)
  : FramingResponse * list string :=
  if negb servicesInitialized then
    ({| f_status := 503;
        f_body := FError "External services not initialized" |}, [])
  else
    match fr_assignment req, fr_creator req with
    | Some a, Some c =>
        let prompt := framingPrompt a c in
        match generateCompletion prompt with
        | inl e => (failure e, [prompt])
        | inr framing =>
            ({| f_status := 200; f_body := FFraming a c framing |}, [prompt])
        end
    | _, _ =>
        ({| f_status := 400;
            f_body := FError "assignment and creator are required" |}, [])
    end.

(** An AI adapter: whether it is connected, whether it holds a client,
    and its breaker. *)
Record Connection := {
  isConnected : bool;
  client : bool;
  service : Resilience.Service
}.

(** How the body of [initialize] ends: it runs through; it throws before
    the client is set (no API key); or it throws after (the connection
    test fails). *)
Inductive Connect :=
| Connected
| NoClient (e : Error)
| NoAnswer (e : Error).

(** [initialize], with a failure handled at time [start]: on success the
    adapter is connected and its breaker closed, with no failure counted;
    a failure is counted by [handleFailure] and thrown again. *)
Definition initialize (start : Z) (connect : Connect) (cn : Connection)
  : Connection * result unit :=
  match connect with
  | Connected =>
      ({| isConnected := true;
          client := true;
          service :=
            Resilience.set_failures 0
              (Resilience.lastFailureTime (service cn))
              (Resilience.set_state Resilience.CLOSED (service cn)) |},
       Ok tt)
  | NoClient e =>
      ({| isConnected := isConnected cn;
          client := client cn;
          service := Resilience.handleFailure start (service cn) |},
       Throw e)
  | NoAnswer e =>
      ({| isConnected := isConnected cn;
          client := true;
          service := Resilience.handleFailure start (service cn) |},
       Throw e)
  end.

(** The guard of [generateCompletion]: [!this.isConnected] on OpenAI,
    [!this.isConnected || !this.client] on Bedrock. *)
Definition needsInitialize (ad : Resilience.Adapter) (cn : Connection)
  : bool :=
  match ad with
  | Resilience.Bedrock => negb (isConnected cn) || negb (client cn)
  | _ => negb (isConnected cn)
  end.

(** [generateCompletion] of an AI adapter: [initialize] first when the
    guard asks for it, then the request to the provider behind the
    breaker, entered at [now], a failure handled at [later]. *)
Definition generateCompletion (ad : Resilience.Adapter) (start now later : Z)
  (connect : Connect) (operation : Resilience.Operation string)
  (cn : Connection) : Connection * result string :=
  let '(cn, ready) :=
    if needsInitialize ad cn then initialize start connect cn
    else (cn, Ok tt) in
  match ready with
  | inl e => (cn, Throw e)
  | inr _ =>
      let '(s, r, _) :=
        Resilience.executeWithCircuitBreaker ad now later operation
          (service cn) in
      ({| isConnected := isConnected cn; client := client cn; service := s |},
       r)
  end.

(** Calling a method that the object does not have. *)
Definition notAFunction : Error :=
  mkError "TypeError"
    "this.services[this.aiProvider].generateCompletion is not a function"
    None None None.

(** [serviceManager.generateCompletion]: the method of the adapter that
    [aiProvider] names; the Pinecone adapter has none. *)
Definition managerCompletion (aiProvider : Resilience.Adapter)
  (start now later : Z) (connect : Connect)
  (operation : string -> Resilience.Operation string) (cn : Connection)
  : string -> result string :=
  fun prompt =>
    match aiProvider with
    | Resilience.Pinecone => Throw notAFunction
    | _ =>
        snd (generateCompletion aiProvider start now later connect
               (operation prompt) cn)
    end.

(** The request names an assignment and a creator. *)
Definition complete (req : FramingRequest) : bool :=
  match fr_assignment req, fr_creator req with
  | Some _, Some _ => true
  | _, _ => false
  end.

End Framing.

(** ** Further examples *)

Module Scenarios.

Import Health Monitor.
Local Open Scope string_scope.

Definition check_ok : HealthResult :=
  {| hr_status := "healthy"; hr_responseTime := Some 12%Z |}.

Definition check_failed : HealthResult :=
  {| hr_status := "unhealthy"; hr_responseTime := Some 30%Z |}.

Definition history_mixed : list HealthResult :=
  [check_ok; check_failed; check_ok].

Definition metrics_mixed : Metrics := {|
  uptime := inject_Z 6667 / 100;
  averageResponseTime := Some 18%Z;
  minResponseTime := Some 12%Z;
  maxResponseTime := Some 30%Z;
  totalChecks := 3;
  failedChecks := 1
|}.

(** The registry after a round that found the AI provider down. *)
Definition entry_pinecone : ServiceEntry := {|
  name := "pinecone";
  healthCheck := pineconeCheck;
  timeout := 10000;
  critical := true;
  lastStatus := "healthy";
  consecutiveFailures := 0;
  enabled := true
|}.

Definition entry_bedrock : ServiceEntry := {|
  name := "bedrock";
  healthCheck := aiCheck;
  timeout := 10000;
  critical := true;
  lastStatus := "unhealthy";
  consecutiveFailures := 0;
  enabled := true
|}.

Definition services_ai_down : Services := [entry_pinecone; entry_bedrock].

Definition state_all_up : SystemState := {|
  pineconeStatus := {| configured := true; breaker := Resilience.CLOSED |};
  aiStatus := {| configured := true; breaker := Resilience.CLOSED |};
  indexStats := Ok tt
|}.

(** A registry in which a completion service is registered beside the two
    services of the service manager, as not critical, and is found
    unhealthy while the vector index and the AI provider are healthy. *)
Definition completionCheck : HealthCheck :=
  fun _ => Ok (Some "unhealthy").

Definition services_completion_down : Services :=
  checkAllServices state_all_up
    (registerService "completion" completionCheck
       {| opt_timeout := None; opt_critical := Some false;
          opt_enabled := None |}
       (registerHealthChecks "bedrock" [])).

Definition framing_creator : Framing.FramingCreator := {|
  Framing.fc_nickname := Some "HomeFixHacks";
  Framing.fc_bio := Some "Weekend repairs made simple";
  Framing.fc_analysis := Some Examples.analysis_diy
|}.

Definition framing_request : Framing.FramingRequest := {|
  Framing.fr_assignment := Some Examples.assignment_plain;
  Framing.fr_creator := Some framing_creator
|}.

(** The world whose vector index returns an id that the catalog, as every
    object, inherits. *)
Definition world_inherited : Server.World := {|
  Server.generateEmbedding := Server.generateEmbedding Examples.world_ok;
  Server.queryVectors := fun _ _ =>
    Ok (Some [{| Server.cand_id := "constructor";
                 Server.cand_score := Fin 0.9 |}]);
  Server.loadCreators := Ok Examples.catalog_one;
  Server.generateCompletion := Server.generateCompletion Examples.world_ok;
  Server.assignmentServiceUrl := None
|}.

(** An adapter that is connected, with its breaker open. *)
Definition connection_open : Framing.Connection := {|
  Framing.isConnected := true;
  Framing.client := true;
  Framing.service := Examples.service_open
|}.

(** An adapter that was never connected, with its breaker open after five
    failed starts. *)
Definition connection_lost : Framing.Connection := {|
  Framing.isConnected := false;
  Framing.client := true;
  Framing.service := Examples.service_open
|}.

Definition testFailed : Error :=
  mkError "Error" "OpenAI connection test failed: timeout" None None None.

End Scenarios.

(** * Properties *)

(** ** Numbers *)

Section NumFacts.

Local Open Scope Q_scope.

Lemma Qltb_lt (x y : Q) : Qltb x y = true <-> x < y.
Proof.
  unfold Qltb. rewrite negb_true_iff.
  split; intro H.
  - apply Qnot_le_lt. intro Hle. apply Qle_bool_iff in Hle. congruence.
  - destruct (Qle_bool y x) eqn:E; [|reflexivity].
    apply Qle_bool_iff in E. exfalso. apply (Qlt_not_le _ _ H E).
Qed.

Lemma Qltb_ge (x y : Q) : Qltb x y = false <-> y <= x.
Proof.
  unfold Qltb. rewrite negb_false_iff. apply Qle_bool_iff.
Qed.

Lemma Qeq_bool_false (x y : Q) : Qeq_bool x y = false <-> ~ x == y.
Proof.
  split; intro H.
  - intro E. apply Qeq_bool_iff in E. congruence.
  - destruct (Qeq_bool x y) eqn:E; [|reflexivity].
    apply Qeq_bool_iff in E. contradiction.
Qed.

Lemma num_eq_refl (a : num) : num_eq a a.
Proof. destruct a; simpl; auto. reflexivity. Qed.

Lemma inject_nat_nonneg (n : nat) : 0 <= inject_Z (Z.of_nat n).
Proof.
  change 0 with (inject_Z 0). rewrite <- Zle_Qle. lia.
Qed.

Lemma inject_nat_pos (n : nat) : (0 < n)%nat -> 0 < inject_Z (Z.of_nat n).
Proof.
  intro H. change 0 with (inject_Z 0). rewrite <- Zlt_Qlt. lia.
Qed.

Lemma inject_nat_le (k n : nat) :
  (k <= n)%nat -> inject_Z (Z.of_nat k) <= inject_Z (Z.of_nat n).
Proof. intro H. rewrite <- Zle_Qle. lia. Qed.

(** A count over a positive count is the finite quotient: no division by
    zero. *)
Lemma div_counts (k n : nat) :
  (0 < n)%nat ->
  div (of_nat k) (of_nat n)
  = Fin (inject_Z (Z.of_nat k) / inject_Z (Z.of_nat n)).
Proof.
  intro H. unfold div, of_nat.
  assert (E : Qeq_bool (inject_Z (Z.of_nat n)) 0 = false).
  { apply Qeq_bool_false. intro E. pose proof (inject_nat_pos H) as P.
    rewrite E in P. apply (Qlt_irrefl _ P). }
  rewrite E. reflexivity.
Qed.

Lemma ratio_range (k n : nat) :
  (0 < n)%nat -> (k <= n)%nat ->
  0 <= inject_Z (Z.of_nat k) / inject_Z (Z.of_nat n) <= 1.
Proof.
  intros Hn Hk.
  pose proof (inject_nat_pos Hn) as P.
  pose proof (inject_nat_nonneg k) as K.
  pose proof (inject_nat_le Hk) as L.
  split.
  - apply Qle_shift_div_l; [exact P|]. lra.
  - apply Qle_shift_div_r; [exact P|]. lra.
Qed.

Lemma Qsqrt_nonneg (q : Q) : 0 <= Qsqrt q.
Proof.
  unfold Qsqrt, Qle. simpl. rewrite Z.mul_1_r. apply Z.sqrt_nonneg.
Qed.

Lemma fixed4_digits_nonneg (x : Q) : 0 <= x -> (0 <= fixed4_digits x)%Z.
Proof.
  intro H. unfold fixed4_digits.
  apply (Qfloor_resp_le 0 (x * 10000 + (1 # 2))). lra.
Qed.

Lemma fixed4_digits_le (x : Q) : x <= 1 -> (fixed4_digits x <= 10000)%Z.
Proof.
  intro H. unfold fixed4_digits.
  apply (Qfloor_resp_le (x * 10000 + (1 # 2)) (10000 + (1 # 2))). lra.
Qed.

Lemma Qmake_10000_le (n m : Z) : (n <= m)%Z -> n # 10000 <= m # 10000.
Proof. intro H. unfold Qle. simpl. lia. Qed.

Lemma round4_le_1 (q : Q) : q <= 1 -> round4 q <= 1.
Proof.
  intro H. unfold round4.
  destruct (Qltb q 0) eqn:E.
  - pose proof (fixed4_digits_nonneg (Qabs_nonneg q)) as P.
    apply Qle_trans with (0 # 10000); [apply Qmake_10000_le; lia|].
    unfold Qle; simpl; lia.
  - apply Qltb_ge in E.
    assert (A : Qabs q <= 1) by (rewrite (Qabs_pos q E); exact H).
    apply Qle_trans with (10000 # 10000);
      [apply Qmake_10000_le, fixed4_digits_le, A|].
    unfold Qle; simpl; lia.
Qed.

Lemma round4_nonneg (q : Q) : 0 <= q -> 0 <= round4 q.
Proof.
  intro H. unfold round4.
  assert (E : Qltb q 0 = false) by (apply Qltb_ge, H).
  rewrite E.
  pose proof (fixed4_digits_nonneg (Qabs_nonneg q)) as P.
  unfold Qle; simpl; lia.
Qed.

(** [toFixed(4)] keeps a value of [[0, 1]] in [[0, 1]]. *)
Lemma toFixed4_unit (q : Q) :
  0 <= q <= 1 -> exists r, toFixed4 (Fin q) = Fin r /\ 0 <= r <= 1.
Proof.
  intros [H0 H1]. unfold toFixed4.
  destruct (Qle_bool (10 ^ 21) (Qabs q)) eqn:E.
  - exists q. auto.
  - exists (round4 q). split; [reflexivity|].
    split; [apply round4_nonneg, H0 | apply round4_le_1, H1].
Qed.

Lemma toFixed4_le_1 (q : Q) :
  q <= 1 -> exists r, toFixed4 (Fin q) = Fin r /\ r <= 1.
Proof.
  intro H. unfold toFixed4.
  destruct (Qle_bool (10 ^ 21) (Qabs q)) eqn:E.
  - exists q. auto.
  - exists (round4 q). split; [reflexivity | apply round4_le_1, H].
Qed.

Lemma min_1_fin (q : Q) :
  exists r, min (Fin 1) (Fin q) = Fin r /\ r <= 1 /\ (0 <= q -> 0 <= r).
Proof.
  unfold min. destruct (Qle_bool 1 q) eqn:E.
  - exists 1. repeat split; lra.
  - exists q. split; [reflexivity|]. split; [|auto].
    destruct (Qlt_le_dec q 1) as [L|L]; [lra|].
    apply Qle_bool_iff in L. congruence.
Qed.

End NumFacts.

(** ** Strings and arrays *)

Lemma split_ws_from_nonempty (s cur : string) (in_ws : bool) :
  (0 < List.length (split_ws_from s cur in_ws))%nat.
Proof.
  revert cur in_ws.
  induction s as [|c t IH]; intros cur in_ws; simpl.
  - lia.
  - destruct (is_space c); [destruct in_ws|]; simpl; auto; lia.
Qed.

(** [split] never gives an empty array. *)
Lemma split_ws_nonempty (s : string) : (0 < List.length (split_ws s))%nat.
Proof. apply split_ws_from_nonempty. Qed.

Lemma filter_length_le {A} (f : A -> bool) (l : list A) :
  (List.length (filter f l) <= List.length l)%nat.
Proof.
  induction l as [|x t IH]; simpl; [lia|].
  destruct (f x); simpl; lia.
Qed.

(** ** The component scores *)

Section Components.

Import Matcher.
Local Open Scope Q_scope.

Variable a : Assignment.
Variable c : Creator.
Variable an : Analysis.
Hypothesis has_analysis : analysis c = Some an.

Lemma analysis_of_ok : analysis_of c = Ok an.
Proof. unfold analysis_of. rewrite has_analysis. reflexivity. Qed.

Lemma maxNiches_pos : (0 < maxNiches a)%nat.
Proof.
  unfold maxNiches. destruct (creatorNiches a) as [[|x t]|]; simpl; lia.
Qed.

(** The niche count is returned, and is at most the number of niches
    asked for. *)
Lemma calculateNicheAlignment_ok :
  exists n, calculateNicheAlignment a c = Ok n /\ (n <= maxNiches a)%nat.
Proof.
  unfold calculateNicheAlignment, maxNiches.
  destruct (creatorNiches a) as [[|x t]|].
  - exists 0%nat. split; [reflexivity | lia].
  - rewrite analysis_of_ok. cbn [bind Ok].
    eexists. split; [reflexivity|]. apply filter_length_le.
  - exists 0%nat. split; [reflexivity | lia].
Qed.

(** The value score is a finite share. *)
Lemma calculateValueAlignment_ok :
  exists q, calculateValueAlignment a c = Ok (Fin q) /\ 0 <= q <= 1.
Proof.
  unfold calculateValueAlignment.
  destruct (creatorValues a) as [[|x t]|].
  - exists 0. split; [reflexivity | lra].
  - rewrite analysis_of_ok. cbn [bind Ok].
    rewrite div_counts by (simpl; lia).
    eexists. split; [reflexivity|].
    apply ratio_range; [simpl; lia | apply filter_length_le].
  - exists 0. split; [reflexivity | lra].
Qed.

End Components.

(** ** The audience score, factor by factor *)

Section Audience.

Import Matcher Claims.
Local Open Scope Q_scope.

Variable a : Assignment.
Variable c : Creator.
Variable an : Analysis.
Hypothesis has_analysis : analysis c = Some an.

Lemma localeFactor_spec (ta : TargetAudience) (q : Q) (f : nat) :
  exists q' f',
    localeFactor ta c (Fin q, f) = (Fin q', f') /\
    q' == q + localePart ta c /\
    (f' = 0%nat -> q' = q /\ f = 0%nat).
Proof.
  unfold localeFactor, localePart.
  destruct (present (locale ta)) as [loc|];
    [destruct (present (region c)) as [reg|];
     [destruct (String.eqb (toLowerCase reg) (toLowerCase loc))|]|];
    simpl; eexists; eexists; (split; [reflexivity|]);
    (split; [ring | intro E; try discriminate; auto]).
Qed.

Lemma demographicFactor_spec (ta : TargetAudience) (q : Q) (f : nat) :
  exists q' f',
    demographicFactor ta c (Fin q, f) = (Fin q', f') /\
    q' == q + demographicPart ta an /\
    (f' = 0%nat -> q' = q /\ f = 0%nat).
Proof.
  unfold demographicFactor, demographicPart. rewrite has_analysis.
  destruct (present (demographic ta)) as [d|].
  - pose proof (split_ws_nonempty (toLowerCase d)) as W.
    fold (demographicWords d) in W.
    destruct (Nat.ltb 0 (List.length (matchedWords d an))) eqn:E.
    + rewrite (div_counts _ W). simpl.
      eexists; eexists; split; [reflexivity|].
      split; [ring | discriminate].
    + apply Nat.ltb_ge in E.
      assert (Z0 : List.length (matchedWords d an) = 0%nat) by lia.
      rewrite Z0.
      eexists; eexists; split; [reflexivity|].
      split; [|discriminate].
      change (inject_Z (Z.of_nat 0)) with 0. unfold Qdiv. ring.
  - eexists; eexists; split; [reflexivity|].
    split; [ring | auto].
Qed.

Lemma toneFactor_spec (q : Q) (f : nat) :
  exists q' f',
    toneFactor a c (Fin q, f) = Ok (Fin q', f') /\
    q' == q + tonePart a an /\
    (f' = 0%nat -> q' = q /\ f = 0%nat).
Proof.
  unfold toneFactor, tonePart.
  destruct (present (toneStyle a)) as [ts|].
  - rewrite (@analysis_of_ok c an has_analysis). cbn [bind Ok].
    destruct (engagementStyle an) as [es|];
      [destruct (toneMatch ts es)|];
      simpl; eexists; eexists; (split; [reflexivity|]);
      (split; [ring | intro E; try discriminate; auto]).
  - eexists; eexists; split; [reflexivity|].
    split; [ring | auto].
Qed.

Lemma localePart_range (ta : TargetAudience) : 0 <= localePart ta c <= 0.4.
Proof.
  unfold localePart.
  destruct (present (locale ta)), (present (region c));
    try destruct (String.eqb _ _); lra.
Qed.

Lemma demographicPart_range (ta : TargetAudience) :
  0 <= demographicPart ta an <= 0.3.
Proof.
  unfold demographicPart.
  destruct (present (demographic ta)) as [d|]; [|lra].
  pose proof (split_ws_nonempty (toLowerCase d)) as W.
  fold (demographicWords d) in W.
  assert (L : (List.length (matchedWords d an)
               <= List.length (demographicWords d))%nat)
    by apply filter_length_le.
  pose proof (ratio_range W L). lra.
Qed.

Lemma tonePart_range : 0 <= tonePart a an <= 0.3.
Proof.
  unfold tonePart.
  destruct (present (toneStyle a)), (engagementStyle an);
    try destruct (toneMatch _ _); lra.
Qed.

Lemma audienceSum_range : 0 <= audienceSum a c an <= 1.
Proof.
  unfold audienceSum.
  destruct (targetAudience a) as [ta|]; [|lra].
  pose proof (localePart_range ta).
  pose proof (demographicPart_range ta).
  pose proof tonePart_range. lra.
Qed.

(** The code computes the sum of the three parts. *)
Lemma calculateAudienceMatch_ok :
  exists q, calculateAudienceMatch a c = Ok (Fin q) /\
            q == audienceSum a c an.
Proof.
  unfold calculateAudienceMatch, audienceSum.
  destruct (targetAudience a) as [ta|].
  - destruct (localeFactor_spec ta 0 0) as (q1 & f1 & E1 & Q1 & Z1).
    destruct (demographicFactor_spec ta q1 f1) as (q2 & f2 & E2 & Q2 & Z2).
    destruct (toneFactor_spec q2 f2) as (q3 & f3 & E3 & Q3 & Z3).
    rewrite E1, E2, E3. cbn [bind Ok].
    destruct (Nat.ltb 0 f3) eqn:F.
    + exists q3. split; [reflexivity|]. lra.
    + apply Nat.ltb_ge in F. assert (F3 : f3 = 0%nat) by lia.
      destruct (Z3 F3) as [-> ->].
      destruct (Z2 eq_refl) as [-> ->].
      destruct (Z1 eq_refl) as [-> _].
      exists 0. split; [reflexivity|]. lra.
  - exists 0. split; reflexivity.
Qed.

End Audience.

(** ** Rounding to four decimals *)

Section Rounding.

Import Claims.
Local Open Scope Q_scope.

Lemma Qfloor_unique (x : Q) (z : Z) :
  inject_Z z <= x -> x < inject_Z (z + 1) -> Qfloor x = z.
Proof.
  intros L U.
  assert (A : (z <= Qfloor x)%Z).
  { rewrite <- (Qfloor_Z z). apply Qfloor_resp_le, L. }
  assert (B : (Qfloor x < z + 1)%Z).
  { rewrite Zlt_Qlt. apply Qle_lt_trans with x; [apply Qfloor_le | exact U]. }
  lia.
Qed.

Lemma Qltb_comp (p q r : Q) : p == q -> Qltb p r = Qltb q r.
Proof.
  intro E. destruct (Qltb q r) eqn:B.
  - apply Qltb_lt. apply Qltb_lt in B. rewrite E. exact B.
  - apply Qltb_ge. apply Qltb_ge in B. rewrite E. exact B.
Qed.

Lemma Qle_bool_comp (p q r : Q) : p == q -> Qle_bool r p = Qle_bool r q.
Proof.
  intro E. destruct (Qle_bool r q) eqn:B.
  - apply Qle_bool_iff. apply Qle_bool_iff in B. rewrite E. exact B.
  - destruct (Qle_bool r p) eqn:B'; [|reflexivity].
    apply Qle_bool_iff in B'. rewrite E in B'.
    apply Qle_bool_iff in B'. congruence.
Qed.

Lemma fixed4_digits_comp (p q : Q) :
  p == q -> fixed4_digits p = fixed4_digits q.
Proof.
  intro E. unfold fixed4_digits. apply Qfloor_comp. rewrite E. reflexivity.
Qed.

Lemma round4_comp (p q : Q) : p == q -> round4 p == round4 q.
Proof.
  intro E. unfold round4.
  rewrite (Qltb_comp 0 E).
  rewrite (fixed4_digits_comp (Qabs_wd p q E)).
  reflexivity.
Qed.

Lemma toFixed4_comp (x y : num) :
  num_eq x y -> num_eq (toFixed4 x) (toFixed4 y).
Proof.
  destruct x as [p| | |], y as [q| | |]; cbn [toFixed4 num_eq]; try tauto.
  intro E.
  rewrite (Qle_bool_comp (10 ^ 21) (Qabs_wd p q E)).
  destruct (Qle_bool (10 ^ 21) (Qabs q)); cbn [num_eq];
    [exact E | apply round4_comp, E].
Qed.

Lemma min_1_comp (p q : Q) :
  p == q -> num_eq (min (Fin 1) (Fin p)) (min (Fin 1) (Fin q)).
Proof.
  intro E. unfold min.
  rewrite (Qle_bool_comp 1 E).
  destruct (Qle_bool 1 q); cbn [num_eq]; [reflexivity | exact E].
Qed.

(** A multiple of [10^-4] is printed and read back unchanged. *)
Lemma round4_fixed (k : Z) : round4 (k # 10000) == k # 10000.
Proof.
  unfold round4, fixed4_digits.
  assert (F : Qfloor (Qabs (k # 10000) * 10000 + (1 # 2)) = Z.abs k).
  { apply Qfloor_unique.
    - unfold Qabs, Qle, inject_Z; simpl; lia.
    - unfold Qabs, Qlt, inject_Z; simpl; lia. }
  rewrite F.
  destruct (Qltb (k # 10000) 0) eqn:E.
  - apply Qltb_lt in E. unfold Qlt in E; simpl in E.
    unfold Qeq; simpl. lia.
  - apply Qltb_ge in E. unfold Qle in E; simpl in E.
    unfold Qeq; simpl. lia.
Qed.

(** What [toFixed4] returns is a fixed point of [toFixed4]. *)
Lemma toFixed4_rounded (x : num) : rounded4 (toFixed4 x).
Proof.
  unfold rounded4.
  destruct x as [q| | |]; cbn [toFixed4 num_eq]; auto.
  destruct (Qle_bool (10 ^ 21) (Qabs q)) eqn:E; cbn [toFixed4 num_eq].
  - rewrite E. cbn [num_eq]. reflexivity.
  - destruct (Qle_bool (10 ^ 21) (Qabs (round4 q))); cbn [num_eq];
      [reflexivity|].
    assert (K : exists k, round4 q = k # 10000).
    { unfold round4. destruct (Qltb q 0); eexists; reflexivity. }
    destruct K as [k ->]. apply round4_fixed.
Qed.

(** A count is a fixed point of [toFixed4]. *)
Lemma of_nat_rounded (n : nat) : rounded4 (of_nat n).
Proof.
  unfold rounded4, of_nat, toFixed4.
  destruct (Qle_bool (10 ^ 21) (Qabs (inject_Z (Z.of_nat n))));
    cbn [num_eq]; [reflexivity|].
  assert (E : inject_Z (Z.of_nat n) == (Z.of_nat n * 10000) # 10000).
  { unfold Qeq, inject_Z; simpl; lia. }
  rewrite (round4_comp E), round4_fixed. symmetry. exact E.
Qed.

(** Below [-10^-4] a number stays negative when rounded. *)
Lemma round4_negative (q : Q) : q <= - (1 # 10000) -> round4 q < 0.
Proof.
  intro H. unfold round4.
  assert (E : Qltb q 0 = true) by (apply Qltb_lt; lra).
  rewrite E.
  assert (A : 1 # 10000 <= Qabs q).
  { rewrite (Qabs_neg q) by lra. lra. }
  assert (P : (1 <= fixed4_digits (Qabs q))%Z).
  { unfold fixed4_digits.
    apply (Qfloor_resp_le (1 + (1 # 2)) (Qabs q * 10000 + (1 # 2))). lra. }
  unfold Qlt; simpl; lia.
Qed.

Lemma toFixed4_negative (q : Q) :
  q <= - (1 # 10000) -> exists r, toFixed4 (Fin q) = Fin r /\ r < 0.
Proof.
  intro H. unfold toFixed4.
  destruct (Qle_bool (10 ^ 21) (Qabs q)).
  - exists q. split; [reflexivity | lra].
  - exists (round4 q). split; [reflexivity | apply round4_negative, H].
Qed.

End Rounding.

(** ** The composite score *)

Section Composite.

Import Matcher Claims.
Local Open Scope Q_scope.

Variable a : Assignment.
Variable c : Creator.
Variable an : Analysis.
Hypothesis has_analysis : analysis c = Some an.

Lemma maxNiches_spec :
  maxNiches a = Nat.max 1 (List.length (or_empty (creatorNiches a))).
Proof.
  unfold maxNiches, or_empty.
  destruct (creatorNiches a) as [[|x t]|]; reflexivity.
Qed.

(** The match computed from a finite semantic score, field by field. *)
Lemma calculateMatch_finite (s : Q) :
  exists n au v,
    calculateNicheAlignment a c = Ok n /\
    (n <= maxNiches a)%nat /\
    calculateAudienceMatch a c = Ok (Fin au) /\
    au == audienceSum a c an /\
    calculateValueAlignment a c = Ok (Fin v) /\
    0 <= v <= 1 /\
    calculateMatch a c (Fin s) =
    Ok {| creator := c;
          matchScore :=
            toFixed4
              (min (Fin 1)
                   (Fin (((s + 1) / 2 * 0.7
                          + nicheMatchRatioSpec a n * 0.2
                          + au * 0.05 + v * 0.05)
                         * (1 + Qsqrt (nicheMatchRatioSpec a n)))));
          scoreBreakdown := {|
            semanticSimilarity := toFixed4 (Fin ((s + 1) / 2));
            nicheAlignment := of_nat n;
            audienceMatch := Fin au;
            valueAlignment := Fin v;
            nicheBoost := toFixed4 (Fin (Qsqrt (nicheMatchRatioSpec a n))) |} |}.
Proof.
  destruct (@calculateNicheAlignment_ok a c an has_analysis) as (n & En & Ln).
  destruct (@calculateAudienceMatch_ok a c an has_analysis) as (au & Ea & Qa).
  destruct (@calculateValueAlignment_ok a c an has_analysis) as (v & Ev & Rv).
  exists n, au, v. repeat (split; [assumption|]).
  unfold calculateMatch. rewrite En, Ea, Ev. cbn [bind Ok].
  unfold nicheMatchRatio, nicheMatchRatioSpec.
  rewrite (div_counts n (maxNiches_pos a)), <- maxNiches_spec.
  set (ratio := inject_Z (Z.of_nat n) / inject_Z (Z.of_nat (maxNiches a))).
  assert (R : Qltb ratio 0 = false).
  { apply Qltb_ge. apply (ratio_range (maxNiches_pos a) Ln). }
  unfold pow_half. rewrite R.
  reflexivity.
Qed.

Lemma nicheMatchRatioSpec_range (n : nat) :
  (n <= maxNiches a)%nat -> 0 <= nicheMatchRatioSpec a n <= 1.
Proof.
  intro L. unfold nicheMatchRatioSpec. rewrite <- maxNiches_spec.
  apply (ratio_range (maxNiches_pos a) L).
Qed.

End Composite.

(** ** Values up to the floating-point error *)

Section Tolerance.

Import Matcher Claims.
Local Open Scope Q_scope.

Lemma Qmake_10000 (n : Z) : n # 10000 == inject_Z n / 10000.
Proof. unfold Qeq, Qdiv, Qmult, Qinv, inject_Z. simpl. lia. Qed.

(** Rounding to four decimals moves a number by at most half a unit of the
    fourth decimal. *)
Lemma round4_near (q : Q) :
  exists k : Z, round4 q == k # 10000 /\ Qabs (round4 q - q) <= 1 # 20000.
Proof.
  unfold round4, fixed4_digits.
  set (n := Qfloor (Qabs q * 10000 + (1 # 2))).
  pose proof (Qfloor_le (Qabs q * 10000 + (1 # 2))) as L.
  pose proof (Qlt_floor (Qabs q * 10000 + (1 # 2))) as U.
  fold n in L, U. rewrite inject_Z_plus in U.
  change (inject_Z 1) with 1 in U.
  set (r := inject_Z n / 10000).
  assert (Rn : r * 10000 == inject_Z n) by (unfold r; field).
  destruct (Qltb q 0) eqn:S.
  - apply Qltb_lt in S. exists (- n)%Z. split; [reflexivity|].
    assert (A : Qabs q == - q) by (apply Qabs_neg; lra).
    rewrite A in L, U.
    assert (E : - n # 10000 == - r).
    { rewrite (Qmake_10000 (- n)), inject_Z_opp. unfold r. field. }
    rewrite E. apply Qabs_Qle_condition. split; lra.
  - apply Qltb_ge in S. exists n. split; [reflexivity|].
    assert (A : Qabs q == q) by (apply Qabs_pos; lra).
    rewrite A in L, U.
    assert (E : n # 10000 == r) by apply Qmake_10000.
    rewrite E. apply Qabs_Qle_condition. split; lra.
Qed.

Lemma fpError_pos : 0 < fpError.
Proof. reflexivity. Qed.

(** A number of moderate size, printed with four decimals and read back,
    is its rounding to four decimals. *)
Lemma toFixed4_fourDecimals (x y : Q) :
  - (2) <= x <= 2 -> x == y -> fourDecimals y (toFixed4 (Fin x)).
Proof.
  intros [L U] E. unfold toFixed4.
  assert (B : Qle_bool (10 ^ 21) (Qabs x) = false).
  { destruct (Qle_bool (10 ^ 21) (Qabs x)) eqn:B; [|reflexivity].
    apply Qle_bool_iff in B.
    assert (Qabs x <= 2) by (apply Qabs_Qle_condition; split; lra).
    assert (2 < 10 ^ 21) by reflexivity. lra. }
  rewrite B. destruct (round4_near x) as (k & K & N).
  pose proof fpError_pos.
  exists (round4 x), k. split; [reflexivity|]. split.
  - rewrite K. apply Qabs_Qle_condition. split; lra.
  - rewrite <- E. lra.
Qed.

Lemma Qsqrt_le_1 (q : Q) : q <= 1 -> Qsqrt q <= 1.
Proof.
  intro H. unfold Qsqrt.
  assert (R : Qred q <= 1) by (rewrite Qred_correct; exact H).
  destruct (Qred q) as [n d]. unfold Qle in R |- *. simpl in R |- *.
  rewrite Z.mul_1_r in R |- *. rewrite Pos2Z.inj_mul.
  change (4 ^ 64)%Z with (Z.pos (2 ^ 64) * Z.pos (2 ^ 64))%Z.
  set (k := Z.pos (2 ^ 64)). assert (K : (0 < k)%Z) by reflexivity.
  rewrite <- (Z.sqrt_square (Z.pos d * k)) by lia.
  apply Z.sqrt_le_mono. nia.
Qed.


Lemma min_1_Qmin (q : Q) :
  exists r, min (Fin 1) (Fin q) = Fin r /\ r == Qmin 1 q.
Proof.
  unfold min. destruct (Qle_bool 1 q) eqn:E.
  - apply Qle_bool_iff in E. exists 1. split; [reflexivity|].
    symmetry. apply Q.min_l. exact E.
  - exists q. split; [reflexivity|].
    assert (q <= 1).
    { destruct (Qlt_le_dec q 1) as [H|H]; [lra|].
      apply Qle_bool_iff in H. congruence. }
    symmetry. apply Q.min_r. assumption.
Qed.

Lemma Qmin_1_comp (p q : Q) : p == q -> Qmin 1 p == Qmin 1 q.
Proof.
  intro E.
  destruct (Q.min_spec 1 p) as [[G ->]|[G ->]];
    destruct (Q.min_spec 1 q) as [[H ->]|[H ->]]; lra.
Qed.

Lemma Qmin_1_range (q : Q) : 0 <= q -> 0 <= Qmin 1 q <= 1.
Proof.
  intro H. destruct (Q.min_spec 1 q) as [[? ->]|[? ->]]; lra.
Qed.

(** On a rounding boundary the two arithmetics part: for the semantic
    score 0.0001 the exact similarity is 0.50005, printed 0.5001, while
    the double computed by the engine is just below and printed 0.5000.
    Both are the similarity rounded to four decimals in the sense of
    [fourDecimals]. *)
Example rounding_boundary_either_way :
  toFixed4 (normalizedSemanticScore (Fin 0.0001)) = Fin 0.5001 /\
  Binary64.toFixed4
    (Binary64.normalizedSemanticScore (Binary64.of_Q 0.0001))
  = Binary64.of_Q 0.5 /\
  fourDecimals ((0.0001 + 1) / 2) (Fin 0.5001) /\
  fourDecimals ((0.0001 + 1) / 2) (Fin 0.5).
Proof.
  split; [vm_compute; reflexivity|].
  split; [vm_compute; reflexivity|].
  split.
  - exists 0.5001, 5001%Z. split; [reflexivity|].
    split; vm_compute; discriminate.
  - exists 0.5, 5000%Z. split; [reflexivity|].
    split; vm_compute; discriminate.
Qed.

End Tolerance.

Section CompositeClaims.

Import Matcher Claims.
Local Open Scope Q_scope.

Lemma min_1_below (q : Q) : q < 1 -> min (Fin 1) (Fin q) = Fin q.
Proof.
  intro H. unfold min.
  destruct (Qle_bool 1 q) eqn:E; [|reflexivity].
  apply Qle_bool_iff in E. lra.
Qed.




(** C10.  Whatever the finite semantic score, the match score is at most
    1; nothing bounds it from below: with the semantic score -3 it is
    negative. *)
Theorem matchScore_capped_above_only (a : Assignment) (c : Creator)
  (an : Analysis) (s : Q) :
  analysis c = Some an ->
  cappedAtOne a c s /\ negativeScore a c (-3).
Proof.
  intro has. split.
  - destruct (@calculateMatch_finite a c an has s)
      as (n & au & v & _ & _ & _ & _ & _ & _ & Em).
    match type of Em with
    | context [min (Fin 1) (Fin ?t)] =>
        destruct (min_1_fin t) as (r1 & E1 & U1 & _)
    end.
    destruct (toFixed4_le_1 U1) as (r & E & R).
    eexists; exists r. split; [exact Em|].
    cbn [matchScore]. rewrite E1. split; assumption.
  - destruct (@calculateMatch_finite a c an has (-3))
      as (n & au & v & _ & Ln & _ & Qa & _ & Rv & Em).
    pose proof (@nicheMatchRatioSpec_range a n Ln) as Rr.
    pose proof (@audienceSum_range a c an) as Ra.
    pose proof (Qsqrt_nonneg (nicheMatchRatioSpec a n)) as Rs.
    set (base := (-3 + 1) / 2 * 0.7 + nicheMatchRatioSpec a n * 0.2
                 + au * 0.05 + v * 0.05) in Em.
    assert (B : base <= - (4 # 10)).
    { assert (E : (-3 + 1) / 2 == -1) by reflexivity.
      unfold base. rewrite E. lra. }
    assert (T : base * (1 + Qsqrt (nicheMatchRatioSpec a n)) <= - (4 # 10)).
    { assert (P : 0 <= (- base) * Qsqrt (nicheMatchRatioSpec a n))
        by (apply Qmult_le_0_compat; lra).
      lra. }
    rewrite min_1_below in Em by lra.
    destruct (@toFixed4_negative
                (base * (1 + Qsqrt (nicheMatchRatioSpec a n))))
      as (r & E & R); [lra|].
    eexists; exists r. split; [exact Em|].
    cbn [matchScore]. split; assumption.
Qed.

Lemma matchScore_capped_above_only_witness :
  analysis Examples.creator_diy = Some Examples.analysis_diy /\
  cappedAtOne Examples.assignment_plain Examples.creator_diy (-2) /\
  negativeScore Examples.assignment_plain Examples.creator_diy (-3).
Proof.
  split; [reflexivity|].
  apply (@matchScore_capped_above_only Examples.assignment_plain
           Examples.creator_diy Examples.analysis_diy (-2) eq_refl).
Defined.

End CompositeClaims.

(** ** Occurrences and counts *)

Section Occurrence.

Import Matcher Claims.
Local Open Scope string_scope.

Lemma prefix_spec (p s : string) :
  String.prefix p s = true <-> exists post, s = p ++ post.
Proof.
  revert s. induction p as [|a p IH]; intro s.
  - split; [intros _; exists s; reflexivity | intros _; destruct s; reflexivity].
  - destruct s as [|b s]; simpl.
    + split; [discriminate | intros [post E]; discriminate E].
    + destruct (Ascii.ascii_dec a b) as [->|N].
      * rewrite IH. split; intros [post E]; exists post;
          [rewrite E; reflexivity | injection E as E; exact E].
      * split; [discriminate | intros [post E]; injection E as E1 E2].
        congruence.
Qed.

(** [String.prototype.includes] finds the occurrences. *)
Lemma str_includes_spec (s w : string) :
  str_includes s w = true <-> occursIn w s.
Proof.
  unfold occursIn. induction s as [|b s IH].
  - cbn [str_includes]. destruct (String.prefix w "") eqn:P.
    + apply prefix_spec in P. destruct P as [post E].
      split; [intros _; exists "", post; exact E | intros _; reflexivity].
    + split; [discriminate|]. intros (pre & post & E).
      destruct pre as [|x pre]; [|discriminate E].
      simpl in E. assert (String.prefix w "" = true) as P'
        by (apply prefix_spec; exists post; exact E).
      congruence.
  - cbn [str_includes]. destruct (String.prefix w (String b s)) eqn:P.
    + apply prefix_spec in P. destruct P as [post E].
      split; [intros _; exists "", post; exact E | intros _; reflexivity].
    + rewrite IH. split.
      * intros (pre & post & E). exists (String b pre), post.
        rewrite E. reflexivity.
      * intros (pre & post & E). destruct pre as [|x pre].
        -- simpl in E.
           assert (String.prefix w (String b s) = true) as P'
             by (apply prefix_spec; exists post; exact E).
           congruence.
        -- injection E as _ E. exists pre, post. exact E.
Qed.

Lemma str_includes_false (s w : string) :
  str_includes s w = false <-> ~ occursIn w s.
Proof.
  rewrite <- str_includes_spec. destruct (str_includes s w); split;
    congruence.
Qed.

(** Filtering counts the elements that satisfy the test. *)
Lemma countOf_filter {A} (P : A -> Prop) (f : A -> bool) (l : list A) :
  (forall x, f x = true <-> P x) ->
  countOf P l (List.length (filter f l)).
Proof.
  intro H. induction l as [|x t IH]; simpl; [constructor|].
  destruct (f x) eqn:E.
  - simpl. apply countOf_yes; [apply H, E | exact IH].
  - apply countOf_no; [|exact IH]. intro Px. apply H in Px. congruence.
Qed.

Lemma toneMatch_spec (ts : string) (es : EngagementStyle) :
  toneMatch ts es = true <-> toneMatched ts es.
Proof.
  unfold toneMatch, toneMatched. rewrite existsb_exists. split.
  - intros (t & I & H). apply in_map_iff in I. destruct I as (tn & <- & I).
    exists tn. split; [exact I|].
    apply orb_true_iff in H. rewrite !str_includes_spec in H. exact H.
  - intros (tn & I & H). exists (toLowerCase tn).
    split; [apply in_map, I|].
    apply orb_true_iff. rewrite !str_includes_spec. exact H.
Qed.

Local Open Scope Q_scope.

Lemma localePart_share (a : Assignment) (c : Creator) (ta : TargetAudience) :
  targetAudience a = Some ta -> localeShare a c (localePart ta c).
Proof.
  intro T. unfold localeShare, localePart. rewrite T.
  destruct (present (locale ta)) as [loc|]; [|reflexivity].
  destruct (present (region c)) as [reg|]; [|reflexivity].
  destruct (String.eqb_spec (toLowerCase reg) (toLowerCase loc)) as [E|N].
  - left. split; [exact E | reflexivity].
  - right. split; [exact N | reflexivity].
Qed.

Lemma demographicPart_share (a : Assignment) (an : Analysis)
  (ta : TargetAudience) :
  targetAudience a = Some ta -> demographicShare a an (demographicPart ta an).
Proof.
  intro T. unfold demographicShare, demographicPart. rewrite T.
  destruct (present (demographic ta)) as [dm|]; [|reflexivity].
  cbv zeta. exists (List.length (matchedWords dm an)).
  split; [|reflexivity].
  unfold matchedWords, demographicWords. apply countOf_filter.
  intro w. unfold wordFound.
  rewrite orb_true_iff, !str_includes_spec. reflexivity.
Qed.

Lemma tonePart_share (a : Assignment) (an : Analysis) (ta : TargetAudience) :
  targetAudience a = Some ta -> toneShare a an (tonePart a an).
Proof.
  intro T. unfold toneShare, tonePart. rewrite T.
  destruct (present (toneStyle a)) as [ts|]; [|reflexivity].
  destruct (engagementStyle an) as [es|]; [|reflexivity].
  destruct (toneMatch ts es) eqn:E.
  - left. split; [apply toneMatch_spec, E | reflexivity].
  - right. split; [|reflexivity].
    intro M. apply toneMatch_spec in M. congruence.
Qed.

End Occurrence.

(** ** The audience component and the other fields *)

Section Fields.

Import Matcher Claims.
Local Open Scope Q_scope.

(** The components of the match do not depend on the semantic score. *)
Lemma calculateMatch_any (a : Assignment) (c : Creator) (an : Analysis)
  (s : num) :
  analysis c = Some an ->
  exists m n au v,
    calculateMatch a c s = Ok m /\
    calculateNicheAlignment a c = Ok n /\
    calculateAudienceMatch a c = Ok (Fin au) /\
    au == audienceSum a c an /\
    calculateValueAlignment a c = Ok (Fin v) /\
    creator m = c /\
    semanticSimilarity (scoreBreakdown m)
    = toFixed4 (normalizedSemanticScore s) /\
    nicheAlignment (scoreBreakdown m) = of_nat n /\
    audienceMatch (scoreBreakdown m) = Fin au /\
    valueAlignment (scoreBreakdown m) = Fin v.
Proof.
  intro has.
  destruct (@calculateNicheAlignment_ok a c an has) as (n & En & Ln).
  destruct (@calculateAudienceMatch_ok a c an has) as (au & Ea & Qa).
  destruct (@calculateValueAlignment_ok a c an has) as (v & Ev & Rv).
  unfold calculateMatch. rewrite En, Ea, Ev. cbn [bind Ok].
  eexists; exists n, au, v.
  split; [reflexivity|]. repeat (split; [assumption || reflexivity|]).
  reflexivity.
Qed.

(** C2, amended.  The audience component is a multi-factor score in
    [[0, 1]]: 0.4 when locale and region are both present and equal up to
    case, plus 0.3 times the share of the demographic words found in the
    creator's audience interests or summary, plus 0.3 when the tone asked
    for and one of the creator's tones occur one in the other; it is 0
    when the assignment has no target audience.  The sum is computed in
    floating point and not rounded: the component is the sum up to
    [fpError]. *)
Theorem audienceMatch_multi_factor (a : Assignment) (c : Creator)
  (an : Analysis) (s : num) :
  analysis c = Some an -> multiFactorAudience a c an s.
Proof.
  intro has.
  destruct (@calculateMatch_any a c an s has)
    as (m & n & au & v & Em & _ & _ & Qa & _ & _ & _ & _ & Ha & _).
  pose proof (@audienceSum_range a c an) as R.
  pose proof fpError_pos as F.
  unfold multiFactorAudience, audienceSum in *.
  destruct (targetAudience a) as [ta|] eqn:T.
  - exists m, au, (localePart ta c), (demographicPart ta an), (tonePart a an).
    split; [exact Em|]. split; [exact Ha|].
    split; [apply (localePart_share a c T)|].
    split; [apply (demographicPart_share a an T)|].
    split; [apply (tonePart_share a an T)|].
    split; [apply Qabs_Qle_condition; lra|].
    split; [lra | discriminate].
  - exists m, au, 0, 0, 0.
    split; [exact Em|]. split; [exact Ha|].
    unfold localeShare, demographicShare, toneShare. rewrite T.
    repeat (split; [reflexivity|]).
    split; [apply Qabs_Qle_condition; lra|].
    split; [lra | intros _; exact Qa].
Qed.

Lemma audienceMatch_multi_factor_witness :
  analysis Examples.creator_garden = Some Examples.analysis_garden /\
  multiFactorAudience Examples.assignment_audience Examples.creator_garden
    Examples.analysis_garden (Fin (1 # 2)).
Proof.
  split; [reflexivity|].
  apply (@audienceMatch_multi_factor Examples.assignment_audience
           Examples.creator_garden Examples.analysis_garden (Fin (1 # 2))
           eq_refl).
Defined.

(** The three factors at work: the locale matches (0.4), two of the three
    demographic words are found (0.3 * 2/3), and the tone matches (0.3). *)
Example audienceMatch_three_factors :
  exists m,
    calculateMatch Examples.assignment_audience Examples.creator_garden
      (Fin (1 # 2)) = Ok m /\
    num_eq (audienceMatch (scoreBreakdown m)) (Fin (0.4 + 0.3 * (2 # 3) + 0.3)).
Proof. eexists. split; vm_compute; reflexivity. Qed.

(** C2 as stated fails: the locale "CA" against the region "ca" is a
    match, and the audience component is 0.4, not 1. *)
Lemma audienceMatch_not_binary :
  exists m,
    calculateMatch Examples.assignment_locale Examples.creator_diy (Fin 0)
    = Ok m /\
    localeEquals Examples.assignment_locale Examples.creator_diy = true /\
    num_eq (audienceMatch (scoreBreakdown m)) (Fin 0.4) /\
    ~ binaryAudience Examples.assignment_locale Examples.creator_diy m.
Proof.
  eexists. split; [vm_compute; reflexivity|].
  split; [reflexivity|].
  split; [vm_compute; reflexivity|].
  intro H. vm_compute in H. discriminate H.
Qed.

End Fields.

(** ** Finite and non-finite semantic scores *)

Section Finite.

Import Matcher Claims.
Local Open Scope Q_scope.

Lemma filter_none {A} (f : A -> bool) (l : list A) :
  (forall x, In x l -> f x = false) -> filter f l = [].
Proof.
  induction l as [|x t IH]; intro H; simpl; [reflexivity|].
  rewrite (H x (or_introl eq_refl)). apply IH.
  intros y Hy. apply H. right. exact Hy.
Qed.

Lemma Qsqrt_comp (p q : Q) : p == q -> Qsqrt p = Qsqrt q.
Proof. intro E. unfold Qsqrt. rewrite (Qred_complete p q E). reflexivity. Qed.

Lemma toFixed4_fin (q : Q) : exists r, toFixed4 (Fin q) = Fin r.
Proof.
  unfold toFixed4. destruct (Qle_bool (10 ^ 21) (Qabs q)); eexists; reflexivity.
Qed.

Lemma finite_not_NaN (x : num) : is_finite x = true -> is_NaN x = false.
Proof. destruct x; simpl; congruence. Qed.

Lemma allFinite_noNaN (m : Match) : allFinite m -> noNaN m.
Proof.
  intros (H1 & H2 & H3 & H4 & H5 & H6).
  repeat split; apply finite_not_NaN; assumption.
Qed.

(** The empty string contains only the empty string. *)
Lemma str_includes_empty (w : string) :
  w <> EmptyString -> str_includes EmptyString w = false.
Proof.
  intro H. destruct w as [|ch t]; [congruence | reflexivity].
Qed.

Variable a : Assignment.
Variable c : Creator.
Variable an : Analysis.
Hypothesis has_analysis : analysis c = Some an.

Lemma no_niches_no_count :
  primaryNiches an = None -> secondaryNiches an = None ->
  calculateNicheAlignment a c = Ok 0%nat.
Proof.
  intros P S. unfold calculateNicheAlignment.
  destruct (creatorNiches a) as [[|x t]|]; try reflexivity.
  rewrite (@analysis_of_ok c an has_analysis). cbn [bind Ok].
  rewrite P, S. cbn [or_empty app map].
  rewrite filter_none; [reflexivity|]. intros; reflexivity.
Qed.

Lemma no_values_no_share :
  apparentValues an = None ->
  exists q, calculateValueAlignment a c = Ok (Fin q) /\ q == 0.
Proof.
  intro V. unfold calculateValueAlignment.
  destruct (creatorValues a) as [[|x t]|];
    try (exists 0; split; reflexivity).
  rewrite (@analysis_of_ok c an has_analysis). cbn [bind Ok].
  rewrite V. cbn [or_empty map].
  rewrite filter_none by (intros; reflexivity).
  rewrite div_counts by (simpl; lia).
  eexists. split; [reflexivity|].
  change (inject_Z (Z.of_nat (List.length (@nil string)))) with 0.
  unfold Qdiv. ring.
Qed.

Lemma no_profile_no_audience :
  region c = None -> engagementStyle an = None ->
  audienceInterests an = None -> summary an = None -> noEmptyWord a ->
  audienceSum a c an == 0.
Proof.
  intros Rg Es Ai Su W. unfold audienceSum.
  destruct (targetAudience a) as [ta|] eqn:T; [|reflexivity].
  assert (L : localePart ta c == 0).
  { unfold localePart. rewrite Rg.
    destruct (present (locale ta)); reflexivity. }
  assert (To : tonePart a an == 0).
  { unfold tonePart. rewrite Es.
    destruct (present (toneStyle a)); reflexivity. }
  assert (D : demographicPart ta an == 0).
  { unfold demographicPart.
    destruct (present (demographic ta)) as [d|] eqn:P; [|reflexivity].
    assert (M : matchedWords d an = []).
    { unfold matchedWords. rewrite Ai, Su.
      apply filter_none. intros w Hw.
      assert (N : w <> EmptyString).
      { intro E. subst w. exact (W ta d T P Hw). }
      cbn [or_empty map join_space toLowerCase].
      rewrite (str_includes_empty N). reflexivity. }
    rewrite M. change (inject_Z (Z.of_nat (List.length (@nil string)))) with 0.
    unfold Qdiv. ring. }
  rewrite L, To, D. reflexivity.
Qed.

(** C9, amended.  For a finite semantic score, [calculateMatch] returns a
    match whose fields are all finite numbers, so none is NaN; a creator
    whose niche lists, values, region, engagement style, audience interests
    and summary are missing scores 0 on niche alignment and boost, on value
    alignment and (when no demographic word is empty) on audience match. *)
Theorem finite_score_finite_match (s : Q) : finiteMatch a c an s.
Proof.
  destruct (@calculateMatch_finite a c an has_analysis s)
    as (n & au & v & En & Ln & Ea & Qa & Ev & Rv & Em).
  eexists. split; [exact Em|].
  assert (F : allFinite
                {| creator := c;
                   matchScore :=
                     toFixed4
                       (min (Fin 1)
                          (Fin (((s + 1) / 2 * 0.7
                                 + nicheMatchRatioSpec a n * 0.2
                                 + au * 0.05 + v * 0.05)
                                * (1 + Qsqrt (nicheMatchRatioSpec a n)))));
                   scoreBreakdown := {|
                     semanticSimilarity := toFixed4 (Fin ((s + 1) / 2));
                     nicheAlignment := of_nat n;
                     audienceMatch := Fin au;
                     valueAlignment := Fin v;
                     nicheBoost :=
                       toFixed4 (Fin (Qsqrt (nicheMatchRatioSpec a n))) |} |}).
  { unfold allFinite.
    cbn [matchScore scoreBreakdown semanticSimilarity nicheBoost
         nicheAlignment audienceMatch valueAlignment].
    match goal with
    | |- context [min (Fin 1) (Fin ?t)] =>
        destruct (min_1_fin t) as (r1 & -> & _ & _)
    end.
    destruct (toFixed4_fin r1) as (r & ->).
    destruct (toFixed4_fin ((s + 1) / 2)) as (r2 & ->).
    destruct (toFixed4_fin (Qsqrt (nicheMatchRatioSpec a n))) as (r3 & ->).
    repeat split. }
  split; [exact F|]. split; [apply allFinite_noNaN, F|].
  unfold missingFieldsScoreZero.
  cbn [scoreBreakdown nicheBoost nicheAlignment audienceMatch valueAlignment].
  split; [|split].
  - intros P S.
    pose proof (no_niches_no_count P S) as E0.
    rewrite En in E0. injection E0 as ->.
    split; [reflexivity|].
    assert (Z0 : nicheMatchRatioSpec a 0 == 0).
    { unfold nicheMatchRatioSpec, Qdiv.
      change (inject_Z (Z.of_nat 0)) with 0. ring. }
    rewrite (Qsqrt_comp Z0). vm_compute. reflexivity.
  - intro V.
    destruct (no_values_no_share V) as (q & Eq & Zq).
    rewrite Ev in Eq. injection Eq as ->. exact Zq.
  - intros Rg Es Ai Su W.
    cbn [num_eq]. rewrite Qa. apply no_profile_no_audience; assumption.
Qed.

End Finite.

Section NonFinite.

Import Matcher Claims.
Local Open Scope Q_scope.

Lemma finite_score_finite_match_witness :
  analysis Examples.creator_diy = Some Examples.analysis_diy /\
  finiteMatch Examples.assignment_values Examples.creator_diy
    Examples.analysis_diy (9 # 10).
Proof.
  split; [reflexivity|].
  apply (@finite_score_finite_match Examples.assignment_values
           Examples.creator_diy Examples.analysis_diy eq_refl (9 # 10)).
Defined.

(** C9 as stated fails: a NaN semantic score is not replaced by 0; the
    semantic similarity and the match score of the result are NaN. *)
Lemma nonfinite_score_not_neutral :
  exists m,
    calculateMatch Examples.assignment_plain Examples.creator_diy NaN = Ok m /\
    semanticSimilarity (scoreBreakdown m) = NaN /\
    matchScore m = NaN /\
    ~ nonFiniteNeutral m.
Proof.
  eexists. split; [vm_compute; reflexivity|].
  split; [reflexivity|]. split; [reflexivity|].
  intros [H _]. exact H.
Qed.

(** Half of the niches asked for: the boost is the rounded square root of
    one half, and the score is
    [(0.5 * 0.7 + 0.5 * 0.2) * (1 + sqrt 0.5)], rounded. *)
Example half_of_the_niches :
  exists m,
    calculateMatch Examples.assignment_niches Examples.creator_diy (Fin 0)
    = Ok m /\
    num_eq (nicheAlignment (scoreBreakdown m)) (Fin 1) /\
    num_eq (nicheBoost (scoreBreakdown m)) (Fin 0.7071) /\
    num_eq (matchScore m) (Fin 0.7682).
Proof.
  eexists. split; [vm_compute; reflexivity|].
  repeat split; vm_compute; reflexivity.
Qed.

(** Without [analysis] the niche count cannot be read: [calculateMatch]
    throws as soon as niches are asked for. *)
Example missing_analysis_throws :
  calculateMatch Examples.assignment_niches Examples.creator_bare (Fin 0)
  = Throw TypeError.
Proof. reflexivity. Qed.

(** An infinite semantic score goes through as well. *)
Lemma infinite_score_not_neutral :
  exists m,
    calculateMatch Examples.assignment_plain Examples.creator_diy PInf = Ok m /\
    semanticSimilarity (scoreBreakdown m) = PInf.
Proof.
  eexists. split; [vm_compute; reflexivity | reflexivity].
Qed.

End NonFinite.

(** ** Sorting with a comparison function *)

Section SortFacts.

Variable A : Type.
Variable comparefn : A -> A -> num.

(** [R x y]: [x] may stand just before [y].  [P] holds of the elements
    sorted.  The comparison function decides [R] one way or the other. *)
Variable R : A -> A -> Prop.
Variable P : A -> Prop.
Hypothesis before_R :
  forall x y, P x -> P y -> before comparefn x y = true -> R x y.
Hypothesis not_before_R :
  forall x y, P x -> P y -> before comparefn x y = false -> R y x.

Lemma insert_perm (x : A) (l : list A) :
  Permutation (x :: l) (insert comparefn x l).
Proof.
  induction l as [|y t IH]; simpl; [reflexivity|].
  destruct (before comparefn x y); [reflexivity|].
  rewrite perm_swap. apply perm_skip, IH.
Qed.






Lemma fold_insert_perm (l placed : list A) :
  Permutation (placed ++ l)
    (fold_left (fun placed x => insert comparefn x placed) l placed).
Proof.
  revert placed.
  induction l as [|x t IH]; intro placed; simpl.
  - rewrite app_nil_r. reflexivity.
  - rewrite <- IH. rewrite <- insert_perm.
    symmetry. apply Permutation_middle.
Qed.

End SortFacts.

(** The sorted array holds the same elements. *)
Lemma sort_perm {A} (comparefn : A -> A -> num) (l : list A) :
  Permutation l (sort comparefn l).
Proof. apply (fold_insert_perm comparefn l []). Qed.

Lemma sort_length {A} (comparefn : A -> A -> num) (l : list A) :
  List.length (sort comparefn l) = List.length l.
Proof. symmetry. apply Permutation_length, sort_perm. Qed.

(** ** Ranking *)

Section Ranking.

Import Matcher Claims.
Local Open Scope Q_scope.

Lemma inject_Z_eq0 (z : Z) : Qeq_bool (inject_Z z) 0 = Z.eqb z 0.
Proof.
  unfold Qeq_bool, inject_Z. simpl. rewrite Z.mul_1_r. reflexivity.
Qed.




Lemma before_fin (q : Q) : lt (Fin q) (Fin 0) = Qltb q 0.
Proof. reflexivity. Qed.





(** Ranking keeps the matches. *)
Lemma rankMatches_perm (l : list Match) : Permutation l (rankMatches l).
Proof. apply sort_perm. Qed.





(** The tie on the first three keys is broken by engagement, and more
    niches come first. *)
Example rankMatches_tie_break :
  rankMatches [Examples.match_q; Examples.match_p; Examples.match_r]
  = [Examples.match_r; Examples.match_p; Examples.match_q].
Proof. vm_compute. reflexivity. Qed.

End Ranking.

(** ** The match endpoint *)

Section Endpoint.

Import Matcher Server Claims Behaviour.
Local Open Scope Q_scope.

Lemma mapM_ok {A B} (f : A -> result B) (l : list A) :
  Forall (fun x => exists y, f x = Ok y) l ->
  exists ys, mapM f l = Ok ys /\ List.length ys = List.length l.
Proof.
  induction 1 as [|x t [y Hy] _ [ys [IH L]]]; simpl.
  - exists []. split; reflexivity.
  - rewrite Hy. cbn [bind Ok]. rewrite IH. cbn [bind Ok].
    exists (y :: ys). split; [reflexivity | simpl; congruence].
Qed.

Lemma Forall_firstn {A} (P : A -> Prop) (n : nat) (l : list A) :
  Forall P l -> Forall P (firstn n l).
Proof.
  revert n. induction l as [|x t IH]; intros [|n] H; simpl;
    try constructor; inversion H; subst; auto.
Qed.



Lemma creatorLine_ok (m : Match) :
  analysis (creator m) <> None -> exists line, creatorLine m = Ok line.
Proof.
  intro H. unfold creatorLine, analysis_of.
  destruct (analysis (creator m)); [|congruence].
  cbn [bind Ok]. eexists. reflexivity.
Qed.







(** On that catalog the fallback puts the creator with two of the niches
    first, the one with one niche second, and of the two creators with
    none the one with the higher engagement third; the catalog holds them
    in another order. *)
Example fallback_ranks_by_rules :
  map (fun m => uniqueId (creator m))
      (matchesOf (body (fst (postMatches true Examples.request_niches
                               Examples.world_down_four))))
  = [Some "gardengrace"; Some "homefixhacks"; Some "fitfrank"]%string
  /\ map (fun kc => uniqueId (snd kc)) Examples.catalog_four
     = [Some "cookcarl"; Some "homefixhacks"; Some "fitfrank";
        Some "gardengrace"]%string.
Proof. split; vm_compute; reflexivity. Qed.

(** C8, amended.  A match request without an assignment is refused with
    status 400 and nothing is called. *)
Theorem missing_assignment_refused (req : Request) (w : World) :
  req_assignment req = None -> refusedWithoutCalls 400 req w.
Proof.
  intro H. unfold refusedWithoutCalls, postMatches. rewrite H.
  eexists. split; reflexivity.
Qed.

Lemma missing_assignment_refused_witness :
  refusedWithoutCalls 400 Examples.request_no_assignment Examples.world_ok.
Proof.
  apply (@missing_assignment_refused Examples.request_no_assignment
           Examples.world_ok eq_refl).
Defined.

(** C8 as stated fails: an assignment with none of its required fields is
    not refused; the embedding adapter is called with the text built from
    the missing fields, then the vector index, and the answer is 200. *)
Lemma missing_fields_not_validated :
  exists resp calls,
    postMatches true Examples.request_empty_assignment Examples.world_ok
    = (resp, calls) /\
    status resp = 200%Z /\
    In (CallGenerateEmbedding "undefined undefined undefined") calls /\
    In (CallQueryVectors 15) calls /\
    ~ validationError Examples.request_empty_assignment Examples.world_ok.
Proof.
  unfold validationError.
  destruct (postMatches true Examples.request_empty_assignment
              Examples.world_ok) as [resp calls] eqn:E.
  vm_compute in E. injection E as <- <-.
  eexists; eexists. split; [reflexivity|].
  split; [reflexivity|].
  split; [left; reflexivity|].
  split; [right; left; reflexivity|].
  intros [[H _] _]. simpl in H. lia.
Qed.

End Endpoint.

(** ** Retry *)

Section RetryFacts.

Import Resilience.

Variable A : Type.
Variable ad : Adapter.
Variable s : Service.
Variable operation : Operation A.

Lemma retry_from_attempts (fuel attempt : nat) (lastError : option Error)
  (waited : list Z) :
  (1 <= attempt)%nat ->
  (attempts (retry_from ad s operation fuel attempt lastError waited)
   <= attempt + fuel - 1)%nat.
Proof.
  revert attempt lastError waited.
  induction fuel as [|fuel IH]; intros attempt lastError waited H; simpl.
  - lia.
  - destruct (operation attempt) as [e|v]; simpl; [|lia].
    destruct (onError ad s attempt e); simpl; [|lia].
    specialize (IH (S attempt) (Some e) (waited ++ wait)%list). lia.
Qed.

(** No adapter calls the operation more than [maxRetries] times. *)
Lemma executeWithRetry_attempts :
  (attempts (executeWithRetry ad s operation) <= maxRetries s)%nat.
Proof.
  unfold executeWithRetry.
  pose proof (@retry_from_attempts (maxRetries s) 1 None [] (le_n 1)). lia.
Qed.

End RetryFacts.

Section RetryClassified.

Import Resilience.

Lemma bedrock_not_retryable_breaks (s : Service) (attempt : nat) (e : Error) :
  bedrock_isRetryableError e = false -> bedrock_onError s attempt e = Break.
Proof.
  intro H. pose proof H as H'.
  unfold bedrock_isRetryableError, name_in in H'. cbn [existsb] in H'.
  apply orb_false_iff in H'. destruct H' as [H' _].
  apply orb_false_iff in H'. destruct H' as [T1 H'].
  apply orb_false_iff in H'. destruct H' as [T2 _].
  unfold bedrock_onError, name_in. cbn [existsb].
  rewrite T1, T2, H. cbn [orb andb]. rewrite andb_false_r. reflexivity.
Qed.

Lemma openai_not_retryable_breaks (s : Service) (attempt : nat) (e : Error) :
  openai_isRetryableError e = false -> openai_onError s attempt e = Break.
Proof.
  unfold openai_onError. intro H. rewrite H.
  unfold openai_isRetryableError in H.
  apply orb_false_iff in H. destruct H as [H _].
  apply orb_false_iff in H. destruct H as [_ H].
  rewrite H. simpl. rewrite andb_false_r. reflexivity.
Qed.

(** On the Bedrock and OpenAI adapters an error that is not retryable
    ends the call at once. *)
Lemma classified_error_not_retried {A} (s : Service) (op : Operation A)
  (e : Error) :
  (0 < maxRetries s)%nat -> op 1%nat = inl e ->
  (bedrock_isRetryableError e = false ->
   executeWithRetry Bedrock s op
   = {| outcome := Throw e; attempts := 1; waits := [] |}) /\
  (openai_isRetryableError e = false ->
   executeWithRetry OpenAI s op
   = {| outcome := Throw e; attempts := 1; waits := [] |}).
Proof.
  intros M E. unfold executeWithRetry.
  destruct (maxRetries s) as [|k] eqn:K; [lia|].
  split; intro N; simpl; rewrite E; simpl.
  - rewrite (@bedrock_not_retryable_breaks s 1 e N). reflexivity.
  - rewrite (@openai_not_retryable_breaks s 1 e N). reflexivity.
Qed.

(** C6.  The Pinecone adapter does not classify errors: an operation that
    fails with a configuration error is called three times, with the two
    back-off waits, before the error is thrown; the Bedrock and OpenAI
    adapters call it once. *)
Theorem pinecone_retries_every_error :
  executeWithRetry Pinecone newService
    (failing (A := unit) Examples.configInvalid)
  = {| outcome := Throw Examples.configInvalid;
       attempts := 3;
       waits := [1000; 2000]%Z |}
  /\ attempts (executeWithRetry Bedrock newService
                 (failing (A := unit) Examples.configInvalid)) = 1%nat
  /\ attempts (executeWithRetry OpenAI newService
                 (failing (A := unit) Examples.configInvalid)) = 1%nat.
Proof. repeat split; vm_compute; reflexivity. Qed.

End RetryClassified.

(** ** Circuit breaker *)

Section BreakerFacts.

Import Resilience.

(** A success while the breaker is closed leaves the failure count as it
    was. *)
Lemma closed_success_keeps_count {A} (ad : Adapter) (now later : Z) (v : A)
  (s : Service) :
  circuitBreakerState s = CLOSED -> (0 < maxRetries s)%nat ->
  executeWithCircuitBreaker ad now later (succeeding v) s = (s, Ok v, 1%nat).
Proof.
  intros C M. unfold executeWithCircuitBreaker.
  rewrite C. cbn [Ok]. unfold executeWithRetry.
  destruct (maxRetries s) as [|k] eqn:K; [lia|].
  simpl. rewrite C. reflexivity.
Qed.

(** C5.  Four failed calls, one successful call and one more failed call
    on a new adapter: the success leaves the failure count at 4, and the
    next failure opens the breaker, with no five consecutive failures. *)
Theorem breaker_counts_failures_across_success :
  let e := Examples.unavailable in
  let before_success :=
    runCalls Pinecone e
      [(0, false); (1, false); (2, false); (3, false)]%Z newService in
  let after_success := runCalls Pinecone e [(4, true)]%Z before_success in
  let after_failure := runCalls Pinecone e [(5, false)]%Z after_success in
  (circuitBreakerState before_success = CLOSED
   /\ failureCount before_success = 4%Z)
  /\ (circuitBreakerState after_success = CLOSED
      /\ failureCount after_success = 4%Z)
  /\ (circuitBreakerState after_failure = OPEN
      /\ failureCount after_failure = 5%Z).
Proof. vm_compute. repeat split; reflexivity. Qed.

End BreakerFacts.

(** ** Health *)

Section HealthFacts.

Import Resilience Health Claims.
Local Open Scope string_scope.

Lemma some_filtered {A} (f : A -> bool) (l : list A) :
  Nat.ltb 0 (List.length (filter f l)) = existsb f l.
Proof.
  induction l as [|x t IH]; simpl; [reflexivity|].
  destruct (f x); simpl; [reflexivity | exact IH].
Qed.

Lemma filter_twice {A} (f g : A -> bool) (l : list A) :
  filter g (filter f l) = filter (fun x => andb (f x) (g x)) l.
Proof.
  induction l as [|x t IH]; simpl; [reflexivity|].
  destruct (f x); simpl; [destruct (g x)|]; rewrite IH; reflexivity.
Qed.

Lemma getOverallHealth_rule (services : Services) :
  getOverallHealth services
  = if existsb (fun e => andb (critical e) (unhealthy e)) services
    then "critical"
    else if existsb unhealthy services then "degraded" else "healthy".
Proof.
  unfold getOverallHealth.
  rewrite filter_twice, !some_filtered. reflexivity.
Qed.

Lemma monitoredHealth_rule (aiName : string) (st : SystemState) :
  monitoredHealth aiName st
  = if orb (aiDown st)
           (andb (negb (String.eqb "pinecone" aiName)) (pineconeDown st))
    then "critical" else "healthy".
Proof.
  unfold monitoredHealth, registerHealthChecks, registerService.
  cbn [map_set name].
  destruct (String.eqb "pinecone" aiName);
    destruct st as [[pc pb] [ac ab] [e|u]];
    destruct pc, pb, ac, ab; reflexivity.
Qed.



(** With the two services of the service manager the status is never
    "degraded". *)
Lemma monitoredHealth_not_degraded (aiName : string) (st : SystemState) :
  monitoredHealth aiName st <> "degraded".
Proof. rewrite monitoredHealth_rule. destruct (orb _ _); discriminate. Qed.



(** A service registered as not critical beside the two of the service
    manager, and found unhealthy while they are healthy, makes the status
    "degraded"; the open breaker of the AI provider makes it
    "critical". *)
Example non_critical_service_degrades :
  getOverallHealth Scenarios.services_completion_down = "degraded" /\
  monitoredHealth "bedrock" Examples.state_ai_open = "critical".
Proof. split; reflexivity. Qed.

End HealthFacts.

(** * Further properties *)

(** ** The matcher *)

Section MatcherBehaviour.

Import Matcher Claims Behaviour.
Local Open Scope Q_scope.

(** X1.  For a creator without [analysis], [calculateMatch] throws a
    TypeError exactly when the assignment asks for a niche, for a value, or
    for a tone within a target audience; otherwise it returns a match with
    niche and value alignment 0. *)
Theorem calculateMatch_without_analysis (a : Assignment) (c : Creator)
  (s : num) :
  analysis c = None ->
  if readsAnalysis a
  then calculateMatch a c s = Throw TypeError
  else exists m,
      calculateMatch a c s = Ok m /\
      nicheAlignment (scoreBreakdown m) = Fin 0 /\
      valueAlignment (scoreBreakdown m) = Fin 0.
Proof.
  intro H.
  unfold readsAnalysis, asksNiches, asksValues, asksTone, calculateMatch,
    calculateNicheAlignment, calculateValueAlignment, calculateAudienceMatch,
    toneFactor, demographicFactor, analysis_of.
  rewrite H.
  destruct (creatorNiches a) as [[|n ns]|]; cbn [orb bind Ok Throw];
    try reflexivity.
  all: destruct (targetAudience a) as [ta|].
  all: try (destruct (localeFactor ta c (Fin 0, 0%nat)) as [sc f];
            destruct (present (demographic ta));
            destruct (present (toneStyle a))).
  all: destruct (creatorValues a) as [[|v vs]|];
    cbn [orb bind Ok Throw]; try reflexivity.
  all: eexists; split; [reflexivity | split; reflexivity].
Qed.

Lemma calculateMatch_without_analysis_witness :
  analysis Examples.creator_bare = None /\
  calculateMatch Examples.assignment_niches Examples.creator_bare (Fin 0)
  = Throw TypeError.
Proof.
  split; [reflexivity|].
  apply (@calculateMatch_without_analysis Examples.assignment_niches
           Examples.creator_bare (Fin 0) eq_refl).
Defined.

Lemma filter_map_length {A B} (g : A -> B) (f : B -> bool) (l : list A) :
  List.length (filter (fun x => f (g x)) l)
  = List.length (filter f (map g l)).
Proof.
  induction l as [|x t IH]; simpl; [reflexivity|].
  destruct (f (g x)); simpl; congruence.
Qed.

(** With an analysis, the niche count is the number of entries of
    [creatorNiches] that are among the creator's niches, up to case. *)
Lemma calculateNicheAlignment_count (a : Assignment) (c : Creator)
  (an : Analysis) (niches : list string) :
  analysis c = Some an ->
  calculateNicheAlignment (withNiches a (Some niches)) c
  = Ok (List.length (filter (nicheMatches an) niches)).
Proof.
  intro H. unfold calculateNicheAlignment. cbn [withNiches creatorNiches].
  destruct niches as [|x t]; [reflexivity|].
  rewrite (@analysis_of_ok c an H). reflexivity.
Qed.

(** X2.  The niche count goes by entry, not by distinct niche: the count
    for two lists of niches put end to end is the sum of their counts, so a
    niche asked for twice counts twice. *)
Theorem nicheAlignment_counts_every_entry (a : Assignment) (c : Creator)
  (an : Analysis) (l1 l2 : list string) :
  analysis c = Some an ->
  exists n1 n2,
    calculateNicheAlignment (withNiches a (Some l1)) c = Ok n1 /\
    calculateNicheAlignment (withNiches a (Some l2)) c = Ok n2 /\
    calculateNicheAlignment (withNiches a (Some (l1 ++ l2))) c
    = Ok (n1 + n2)%nat.
Proof.
  intro H. rewrite !(@calculateNicheAlignment_count a c an _ H).
  eexists; eexists. split; [reflexivity|]. split; [reflexivity|].
  rewrite filter_app, length_app. reflexivity.
Qed.

Lemma nicheAlignment_counts_every_entry_witness :
  analysis Examples.creator_diy = Some Examples.analysis_diy /\
  calculateNicheAlignment
    (withNiches Examples.assignment_plain (Some ["DIY"; "diy"]%string))
    Examples.creator_diy
  = Ok 2%nat.
Proof.
  split; [reflexivity|].
  destruct (@nicheAlignment_counts_every_entry Examples.assignment_plain
              Examples.creator_diy Examples.analysis_diy
              ["DIY"%string] ["diy"%string] eq_refl)
    as (n1 & n2 & E1 & E2 & E).
  cbn [app] in E. rewrite E.
  injection E1 as <-. injection E2 as <-. reflexivity.
Defined.

(** X3.  Niche matching ignores case on the assignment side: two lists of
    niches that are equal once case folded give the same result, for every
    creator. *)
Theorem nicheAlignment_ignores_case (a : Assignment) (c : Creator)
  (l l' : list string) :
  map toLowerCase l = map toLowerCase l' ->
  calculateNicheAlignment (withNiches a (Some l)) c
  = calculateNicheAlignment (withNiches a (Some l')) c.
Proof.
  intro E. unfold calculateNicheAlignment. cbn [withNiches creatorNiches].
  destruct l as [|x t], l' as [|x' t']; try discriminate E;
    [reflexivity|].
  destruct (analysis_of c) as [e|an]; cbn [bind]; [reflexivity|].
  unfold Ok. f_equal.
  rewrite (filter_map_length toLowerCase
             (arr_includes
                (map toLowerCase
                   (or_empty (primaryNiches an)
                    ++ or_empty (secondaryNiches an))))
             (x :: t)).
  rewrite (filter_map_length toLowerCase
             (arr_includes
                (map toLowerCase
                   (or_empty (primaryNiches an)
                    ++ or_empty (secondaryNiches an))))
             (x' :: t')).
  rewrite E. reflexivity.
Qed.

Lemma nicheAlignment_ignores_case_witness :
  calculateNicheAlignment
    (withNiches Examples.assignment_plain
       (Some ["HOME improvement"; "Diy"]%string)) Examples.creator_diy
  = calculateNicheAlignment
      (withNiches Examples.assignment_plain
         (Some ["home Improvement"; "DIY"]%string)) Examples.creator_diy.
Proof.
  apply (@nicheAlignment_ignores_case Examples.assignment_plain
           Examples.creator_diy
           ["HOME improvement"; "Diy"]%string
           ["home Improvement"; "DIY"]%string eq_refl).
Defined.

Lemma niche_count_le (a : Assignment) (c : Creator) (n : nat) :
  calculateNicheAlignment a c = Ok n ->
  (n <= List.length (or_empty (creatorNiches a)))%nat.
Proof.
  unfold calculateNicheAlignment.
  destruct (creatorNiches a) as [[|x t]|]; cbn [or_empty].
  - intro E. injection E as <-. simpl. lia.
  - destruct (analysis_of c) as [e|an]; cbn [bind]; [discriminate|].
    intro E. injection E as <-.
    exact (filter_length_le
             (fun niche =>
                arr_includes
                  (map toLowerCase
                     (or_empty (primaryNiches an)
                      ++ or_empty (secondaryNiches an)))
                  (toLowerCase niche))
             (x :: t)).
  - intro E. injection E as <-. simpl. lia.
Qed.

(** X4.  Whatever the semantic score, NaN and the infinities included, the
    rule-based fields of the breakdown are finite and in range: the niche
    count is at most the number of niches asked for, and the niche boost
    and the value alignment lie in [[0, 1]]. *)
Theorem rule_based_fields_in_range (a : Assignment) (c : Creator)
  (an : Analysis) (s : num) :
  analysis c = Some an ->
  exists m n b v,
    calculateMatch a c s = Ok m /\
    nicheAlignment (scoreBreakdown m) = of_nat n /\
    (n <= List.length (or_empty (creatorNiches a)))%nat /\
    nicheBoost (scoreBreakdown m) = Fin b /\ 0 <= b <= 1 /\
    valueAlignment (scoreBreakdown m) = Fin v /\ 0 <= v <= 1.
Proof.
  intro has.
  destruct (@calculateNicheAlignment_ok a c an has) as (n & En & Ln).
  destruct (@calculateAudienceMatch_ok a c an has) as (au & Ea & _).
  destruct (@calculateValueAlignment_ok a c an has) as (v & Ev & Rv).
  pose proof (@nicheMatchRatioSpec_range a n Ln) as Rr.
  destruct (@toFixed4_unit (Qsqrt (nicheMatchRatioSpec a n)))
    as (b & Eb & Rb).
  { split; [apply Qsqrt_nonneg | apply Qsqrt_le_1, Rr]. }
  unfold calculateMatch. rewrite En, Ea, Ev. cbn [bind Ok].
  eexists; exists n, b, v.
  split; [reflexivity|].
  cbn [scoreBreakdown nicheAlignment nicheBoost valueAlignment].
  split; [reflexivity|]. split; [apply (niche_count_le a c En)|].
  split.
  { unfold nicheMatchRatio.
    rewrite (div_counts n (maxNiches_pos a)).
    unfold nicheMatchRatioSpec in Eb, Rr. rewrite <- maxNiches_spec in Eb, Rr.
    unfold pow_half.
    assert (L : Qltb (inject_Z (Z.of_nat n)
                      / inject_Z (Z.of_nat (maxNiches a))) 0 = false)
      by (apply Qltb_ge, Rr).
    rewrite L. exact Eb. }
  split; [exact Rb|]. split; [reflexivity | exact Rv].
Qed.

Lemma rule_based_fields_in_range_witness :
  analysis Examples.creator_diy = Some Examples.analysis_diy /\
  exists m n b v,
    calculateMatch Examples.assignment_niches Examples.creator_diy NaN
    = Ok m /\
    nicheAlignment (scoreBreakdown m) = of_nat n /\
    (n <= List.length
            (or_empty (creatorNiches Examples.assignment_niches)))%nat /\
    nicheBoost (scoreBreakdown m) = Fin b /\ 0 <= b <= 1 /\
    valueAlignment (scoreBreakdown m) = Fin v /\ 0 <= v <= 1.
Proof.
  split; [reflexivity|].
  apply (@rule_based_fields_in_range Examples.assignment_niches
           Examples.creator_diy Examples.analysis_diy NaN eq_refl).
Defined.

Lemma filter_all {A} (f : A -> bool) (l : list A) :
  forallb f l = true -> filter f l = l.
Proof.
  induction l as [|x t IH]; simpl; [reflexivity|].
  intro H. apply andb_true_iff in H. destruct H as [Hx Ht].
  rewrite Hx, (IH Ht). reflexivity.
Qed.

(** X5.  When every niche asked for is one of the creator's, the niche
    boost is 1 and the match score is [min(1, 2 * base)] rounded to four
    decimals (up to [fpError]), with the niche ratio 1 in the base. *)
Theorem all_niches_matched_doubles_base (a : Assignment) (c : Creator)
  (an : Analysis) (niches : list string) (s : Q) :
  analysis c = Some an ->
  creatorNiches a = Some niches -> niches <> [] ->
  forallb (nicheMatches an) niches = true ->
  -1 <= s <= 1 ->
  exists m au v,
    calculateMatch a c (Fin s) = Ok m /\
    calculateAudienceMatch a c = Ok (Fin au) /\
    calculateValueAlignment a c = Ok (Fin v) /\
    nicheAlignment (scoreBreakdown m) = of_nat (List.length niches) /\
    num_eq (nicheBoost (scoreBreakdown m)) (Fin 1) /\
    fourDecimals (Qmin 1 (2 * baseSpec ((s + 1) / 2) 1 au v))
                 (matchScore m).
Proof.
  intros has Hn Hne Hall [Hlo Hhi].
  destruct (@calculateMatch_finite a c an has s)
    as (n & au & v & En & Ln & Ea & Qa & Ev & Rv & Em).
  pose proof (@audienceSum_range a c an) as Ra.
  assert (N : n = List.length niches).
  { unfold calculateNicheAlignment in En. rewrite Hn in En.
    destruct niches as [|x t]; [congruence|].
    rewrite (@analysis_of_ok c an has) in En. cbn [bind Ok] in En.
    injection En as <-.
    change (List.length (filter (nicheMatches an) (x :: t))
            = List.length (x :: t)).
    rewrite (filter_all _ _ Hall). reflexivity. }
  assert (R1 : nicheMatchRatioSpec a n == 1).
  { unfold nicheMatchRatioSpec. rewrite Hn. cbn [or_empty]. rewrite N.
    assert (P : (0 < List.length niches)%nat)
      by (destruct niches; [congruence | simpl; lia]).
    rewrite Nat.max_r by lia.
    pose proof (inject_nat_pos P) as P'.
    field. intro Z0. rewrite Z0 in P'. apply (Qlt_irrefl _ P'). }
  eexists; exists au, v. split; [exact Em|].
  repeat (split; [assumption|]).
  cbn [matchScore scoreBreakdown nicheAlignment nicheBoost].
  rewrite (Qsqrt_comp R1).
  split; [rewrite N; reflexivity|].
  split; [vm_compute; reflexivity|].
  assert (S1 : Qsqrt 1 == 1) by (vm_compute; reflexivity).
  set (total := ((s + 1) / 2 * 0.7 + nicheMatchRatioSpec a n * 0.2
                 + au * 0.05 + v * 0.05) * (1 + Qsqrt 1)).
  assert (TE : total == 2 * baseSpec ((s + 1) / 2) 1 au v).
  { unfold total. rewrite S1, R1. unfold baseSpec. ring. }
  assert (Sem : 0 <= (s + 1) / 2) by (apply Qle_shift_div_l; lra).
  assert (T : 0 <= total).
  { rewrite TE. unfold baseSpec. lra. }
  destruct (min_1_Qmin total) as (r1 & E1 & Q1).
  pose proof (Qmin_1_range T) as Rg.
  rewrite E1. apply toFixed4_fourDecimals; [lra|].
  rewrite Q1. apply Qmin_1_comp, TE.
Qed.

Lemma all_niches_matched_doubles_base_witness :
  -1 <= 0 <= 1 /\
  exists m au v,
    calculateMatch
      (withNiches Examples.assignment_plain
         (Some ["diy"; "Home Improvement"]%string))
      Examples.creator_diy (Fin 0) = Ok m /\
    calculateAudienceMatch
      (withNiches Examples.assignment_plain
         (Some ["diy"; "Home Improvement"]%string))
      Examples.creator_diy = Ok (Fin au) /\
    calculateValueAlignment
      (withNiches Examples.assignment_plain
         (Some ["diy"; "Home Improvement"]%string))
      Examples.creator_diy = Ok (Fin v) /\
    nicheAlignment (scoreBreakdown m) = of_nat 2 /\
    num_eq (nicheBoost (scoreBreakdown m)) (Fin 1) /\
    fourDecimals (Qmin 1 (2 * baseSpec ((0 + 1) / 2) 1 au v))
                 (matchScore m).
Proof.
  assert (H : -1 <= 0 <= 1) by (split; discriminate).
  split; [exact H|].
  apply (@all_niches_matched_doubles_base
           (withNiches Examples.assignment_plain
              (Some ["diy"; "Home Improvement"]%string))
           Examples.creator_diy Examples.analysis_diy
           ["diy"; "Home Improvement"]%string 0 eq_refl eq_refl).
  - discriminate.
  - reflexivity.
  - exact H.
Defined.

Lemma fixed4_digits_mono (p q : Q) :
  p <= q -> (fixed4_digits p <= fixed4_digits q)%Z.
Proof.
  intro H. unfold fixed4_digits. apply Qfloor_resp_le. lra.
Qed.

(** Rounding to four decimals keeps the order. *)
Lemma round4_mono (p q : Q) : p <= q -> round4 p <= round4 q.
Proof.
  intro H. unfold round4.
  pose proof (fixed4_digits_nonneg (Qabs_nonneg p)) as Np.
  pose proof (fixed4_digits_nonneg (Qabs_nonneg q)) as Nq.
  destruct (Qltb p 0) eqn:Ep, (Qltb q 0) eqn:Eq.
  - apply Qltb_lt in Ep, Eq.
    assert (A : Qabs q <= Qabs p).
    { rewrite (Qabs_neg q), (Qabs_neg p) by lra. lra. }
    apply fixed4_digits_mono in A. apply Qmake_10000_le. lia.
  - apply Qmake_10000_le. lia.
  - apply Qltb_ge in Ep. apply Qltb_lt in Eq. lra.
  - apply Qltb_ge in Ep, Eq.
    assert (A : Qabs p <= Qabs q).
    { rewrite (Qabs_pos q), (Qabs_pos p) by lra. lra. }
    apply fixed4_digits_mono in A. apply Qmake_10000_le. lia.
Qed.

Lemma big_is_fixed :
  10 ^ 21 == (10 ^ 25 # 10000) /\ - (10 ^ 21) == (- 10 ^ 25 # 10000).
Proof. split; vm_compute; reflexivity. Qed.

Lemma round4_within (q : Q) :
  - (10 ^ 21) <= q <= 10 ^ 21 -> - (10 ^ 21) <= round4 q <= 10 ^ 21.
Proof.
  intros [L U]. destruct big_is_fixed as [B1 B2].
  split.
  - apply round4_mono in L. rewrite (round4_comp B2), round4_fixed in L.
    rewrite B2. exact L.
  - apply round4_mono in U. rewrite (round4_comp B1), round4_fixed in U.
    rewrite B1. exact U.
Qed.

Lemma Qabs_small (q : Q) :
  Qle_bool (10 ^ 21) (Qabs q) = false -> - (10 ^ 21) < q < 10 ^ 21.
Proof.
  intro H.
  assert (A : Qabs q < 10 ^ 21).
  { destruct (Qlt_le_dec (Qabs q) (10 ^ 21)) as [L|L]; [exact L|].
    apply Qle_bool_iff in L. congruence. }
  apply Qabs_Qlt_condition in A. exact A.
Qed.

Lemma Qabs_big (q : Q) :
  Qle_bool (10 ^ 21) (Qabs q) = true -> q <= - (10 ^ 21) \/ 10 ^ 21 <= q.
Proof.
  intro H. apply Qle_bool_iff in H.
  destruct (Qlt_le_dec q 0) as [N|N].
  - left. rewrite (Qabs_neg q) in H by lra. lra.
  - right. rewrite (Qabs_pos q) in H by lra. exact H.
Qed.

(** [parseFloat(x.toFixed(4))] keeps the order of finite numbers. *)
Lemma toFixed4_mono (p q : Q) :
  p <= q ->
  exists rp rq,
    toFixed4 (Fin p) = Fin rp /\ toFixed4 (Fin q) = Fin rq /\ rp <= rq.
Proof.
  intro H. unfold toFixed4.
  assert (P21 : 0 < 10 ^ 21) by reflexivity.
  destruct (Qle_bool (10 ^ 21) (Qabs p)) eqn:Ep,
           (Qle_bool (10 ^ 21) (Qabs q)) eqn:Eq;
    eexists; eexists; (split; [reflexivity|]); (split; [reflexivity|]).
  - exact H.
  - apply Qabs_big in Ep. apply Qabs_small in Eq.
    assert (W : - (10 ^ 21) <= q <= 10 ^ 21)
      by (split; apply Qlt_le_weak; tauto).
    pose proof (round4_within W).
    set (B := 10 ^ 21) in *. lra.
  - apply Qabs_small in Ep. apply Qabs_big in Eq.
    assert (W : - (10 ^ 21) <= p <= 10 ^ 21)
      by (split; apply Qlt_le_weak; tauto).
    pose proof (round4_within W).
    set (B := 10 ^ 21) in *. lra.
  - apply round4_mono, H.
Qed.

Lemma min_1_mono (p q : Q) :
  p <= q ->
  exists rp rq,
    min (Fin 1) (Fin p) = Fin rp /\ min (Fin 1) (Fin q) = Fin rq /\
    rp <= rq.
Proof.
  intro H. unfold min.
  destruct (Qle_bool 1 p) eqn:Ep, (Qle_bool 1 q) eqn:Eq;
    eexists; eexists; (split; [reflexivity|]); (split; [reflexivity|]).
  - lra.
  - apply Qle_bool_iff in Ep.
    destruct (Qlt_le_dec q 1) as [L|L]; [lra|].
    apply Qle_bool_iff in L. congruence.
  - apply Qle_bool_iff in Eq.
    destruct (Qlt_le_dec p 1) as [L|L]; [lra|].
    apply Qle_bool_iff in L. congruence.
  - exact H.
Qed.

(** X6.  For a given assignment and creator, a higher semantic score
    never gives a lower match score or a lower semantic similarity. *)
Theorem matchScore_monotone (a : Assignment) (c : Creator) (an : Analysis)
  (s1 s2 : Q) :
  analysis c = Some an -> s1 <= s2 ->
  exists m1 m2 r1 r2 t1 t2,
    calculateMatch a c (Fin s1) = Ok m1 /\
    calculateMatch a c (Fin s2) = Ok m2 /\
    matchScore m1 = Fin r1 /\ matchScore m2 = Fin r2 /\ r1 <= r2 /\
    semanticSimilarity (scoreBreakdown m1) = Fin t1 /\
    semanticSimilarity (scoreBreakdown m2) = Fin t2 /\ t1 <= t2.
Proof.
  intros has H.
  destruct (@calculateMatch_finite a c an has s1)
    as (n & au & v & En & Ln & Ea & Qa & Ev & Rv & Em1).
  destruct (@calculateMatch_finite a c an has s2)
    as (n' & au' & v' & En' & _ & Ea' & _ & Ev' & _ & Em2).
  rewrite En in En'. injection En' as <-.
  rewrite Ea in Ea'. injection Ea' as <-.
  rewrite Ev in Ev'. injection Ev' as <-.
  pose proof (@nicheMatchRatioSpec_range a n Ln) as Rr.
  pose proof (Qsqrt_nonneg (nicheMatchRatioSpec a n)) as Rs.
  set (k := 1 + Qsqrt (nicheMatchRatioSpec a n)) in *.
  set (rest := nicheMatchRatioSpec a n * 0.2 + au * 0.05 + v * 0.05) in *.
  assert (T : ((s1 + 1) / 2 * 0.7 + nicheMatchRatioSpec a n * 0.2
               + au * 0.05 + v * 0.05) * k
              <= ((s2 + 1) / 2 * 0.7 + nicheMatchRatioSpec a n * 0.2
                  + au * 0.05 + v * 0.05) * k).
  { apply Qmult_le_compat_r; [|unfold k; lra].
    assert ((s1 + 1) / 2 <= (s2 + 1) / 2)
      by (apply Qmult_le_compat_r; [lra | discriminate]).
    lra. }
  destruct (min_1_mono T) as (p1 & p2 & M1 & M2 & Mle).
  destruct (toFixed4_mono Mle) as (r1 & r2 & F1 & F2 & Fle).
  assert (S : (s1 + 1) / 2 <= (s2 + 1) / 2)
    by (apply Qmult_le_compat_r; [lra | discriminate]).
  destruct (toFixed4_mono S) as (t1 & t2 & G1 & G2 & Gle).
  eexists; eexists; exists r1, r2, t1, t2.
  split; [exact Em1|]. split; [exact Em2|].
  cbn [matchScore scoreBreakdown semanticSimilarity].
  rewrite M1, M2.
  repeat (split; [assumption|]). assumption.
Qed.

Lemma matchScore_monotone_witness :
  exists m1 m2 r1 r2 t1 t2,
    calculateMatch Examples.assignment_values Examples.creator_diy
      (Fin (1 # 10)) = Ok m1 /\
    calculateMatch Examples.assignment_values Examples.creator_diy
      (Fin (9 # 10)) = Ok m2 /\
    matchScore m1 = Fin r1 /\ matchScore m2 = Fin r2 /\ r1 <= r2 /\
    semanticSimilarity (scoreBreakdown m1) = Fin t1 /\
    semanticSimilarity (scoreBreakdown m2) = Fin t2 /\ t1 <= t2.
Proof.
  apply (@matchScore_monotone Examples.assignment_values
           Examples.creator_diy Examples.analysis_diy
           (1 # 10) (9 # 10) eq_refl).
  unfold Qle; simpl; lia.
Defined.

End MatcherBehaviour.

(** ** The ranker *)

Section RankerBehaviour.

Import Matcher Claims Behaviour.
Local Open Scope Q_scope.

Lemma count_or_nonzero (o : option Z) (d : Z) :
  d <> 0%Z -> exists z, count_or o d = of_Z z /\ z <> 0%Z.
Proof.
  intro D. destruct o as [z|]; [|exists d; split; [reflexivity | exact D]].
  unfold count_or, or_else, truthy, of_Z. rewrite inject_Z_eq0.
  destruct (Z.eqb_spec z 0) as [->|N]; simpl;
    [exists d | exists z]; split; auto.
Qed.

Lemma count_or_fin (o : option Z) (d : Z) :
  exists z, count_or o d = of_Z z.
Proof.
  destruct o as [z|]; [|exists d; reflexivity].
  unfold count_or, or_else. destruct (truthy (of_Z z)); eexists; reflexivity.
Qed.

(** The engagement ratio is always a finite number: the divisor is never
    zero. *)
Lemma engagement_fin (c : Creator) : exists q, engagement c = Fin q.
Proof.
  unfold engagement.
  destruct (count_or_fin (heartCount c) 0) as (h & ->).
  destruct (@count_or_nonzero (followerCount c) 1) as (f & -> & N);
    [discriminate|].
  unfold div, of_Z. rewrite inject_Z_eq0.
  destruct (Z.eqb_spec f 0); [contradiction|]. eexists. reflexivity.
Qed.

Lemma Qeq_bool_sym (x y : Q) : Qeq_bool x y = Qeq_bool y x.
Proof.
  destruct (Qeq_bool y x) eqn:E.
  - apply Qeq_bool_iff. apply Qeq_bool_iff in E. symmetry. exact E.
  - apply Qeq_bool_false. apply Qeq_bool_false in E.
    intro H. apply E. symmetry. exact H.
Qed.

(** X7.  The tie-break is antisymmetric for all matches: swapping the two
    matches changes the sign of the result and nothing else, and the
    result is a finite number. *)
Theorem breakTie_antisymmetric (x y : Matcher.Match) :
  exists q, breakTie x y = Fin q /\ num_eq (breakTie y x) (Fin (- q)).
Proof.
  unfold breakTie.
  destruct (engagement_fin (creator x)) as (ex & ->).
  destruct (engagement_fin (creator y)) as (ey & ->).
  destruct (count_or_fin (followerCount (creator x)) 0) as (fx & ->).
  destruct (count_or_fin (followerCount (creator y)) 0) as (fy & ->).
  unfold of_Z. cbn [strict_neq sub add neg].
  rewrite (Qeq_bool_sym ey ex).
  destruct (Qeq_bool ex ey); cbn [negb];
    eexists; (split; [reflexivity|]); cbn [num_eq]; ring.
Qed.

Section KeySorted.

Variable A : Type.
Variable comparefn : A -> A -> num.
Variable key : A -> Q.
Variable P : A -> Prop.
Hypothesis before_key :
  forall x y, P x -> P y -> before comparefn x y = true -> key y <= key x.
Hypothesis not_before_key :
  forall x y, P x -> P y -> before comparefn x y = false -> key x <= key y.

Lemma insert_key_sorted (x : A) (l : list A) :
  P x -> Forall P l ->
  StronglySorted (fun u v => key v <= key u) l ->
  StronglySorted (fun u v => key v <= key u) (insert comparefn x l).
Proof.
  intros Hx Hl Hs.
  induction l as [|y t IH]; simpl.
  - repeat constructor.
  - inversion Hl as [|? ? Py Pt]; subst.
    inversion Hs as [|? ? St Hd]; subst.
    destruct (before comparefn x y) eqn:B.
    + pose proof (before_key Hx Py B) as K.
      constructor; [exact Hs|]. constructor; [exact K|].
      apply (Forall_impl _ (fun v (H : key v <= key y) =>
                              Qle_trans _ _ _ H K) Hd).
    + pose proof (not_before_key Hx Py B) as K.
      constructor; [apply IH; assumption|].
      apply (Permutation_Forall (insert_perm comparefn x t)).
      constructor; assumption.
Qed.

Lemma sort_key_sorted (l : list A) :
  Forall P l ->
  StronglySorted (fun u v => key v <= key u) (sort comparefn l).
Proof.
  intro H. unfold sort.
  assert (G : forall l placed,
             Forall P l -> Forall P placed ->
             StronglySorted (fun u v => key v <= key u) placed ->
             StronglySorted (fun u v => key v <= key u)
               (fold_left (fun placed x => insert comparefn x placed)
                          l placed)).
  { clear l H. induction l as [|x t IH]; intros placed Hl Hp Hs; simpl;
      [exact Hs|].
    inversion Hl; subst.
    apply IH; [assumption | | apply insert_key_sorted; assumption].
    apply (Permutation_Forall (insert_perm comparefn x placed)).
    constructor; assumption. }
  apply G; [exact H | constructor | constructor].
Qed.

End KeySorted.

Lemma compareMatches_niche (x y : Matcher.Match) :
  is_finite (nicheAlignment (scoreBreakdown x)) = true ->
  is_finite (nicheAlignment (scoreBreakdown y)) = true ->
  (before compareMatches x y = true -> nicheKey y <= nicheKey x) /\
  (before compareMatches x y = false -> nicheKey x <= nicheKey y).
Proof.
  unfold before, compareMatches, nicheKey.
  destruct (nicheAlignment (scoreBreakdown x)) as [nx| | |]; try discriminate.
  destruct (nicheAlignment (scoreBreakdown y)) as [ny| | |]; try discriminate.
  intros _ _. cbn [val strict_neq sub add neg].
  destruct (Qeq_bool ny nx) eqn:E; cbn [negb].
  - apply Qeq_bool_iff in E. split; intros _; lra.
  - rewrite before_fin. split; intro B.
    + apply Qltb_lt in B. lra.
    + apply Qltb_ge in B. lra.
Qed.

(** X8.  The niche count is the dominant key over the whole ranking, not
    only between neighbours: in the output of [rankMatches] no match has
    more niche matches than a match placed before it, whatever the other
    keys are (NaN included). *)
Theorem rankMatches_niche_dominant (l : list Matcher.Match) :
  Forall (fun m => is_finite (nicheAlignment (scoreBreakdown m)) = true) l ->
  StronglySorted (fun x y => nicheKey y <= nicheKey x) (rankMatches l).
Proof.
  intro H. unfold rankMatches.
  apply (@sort_key_sorted Matcher.Match compareMatches nicheKey
           (fun m => is_finite (nicheAlignment (scoreBreakdown m)) = true));
    [| |exact H].
  - intros x y Px Py. apply (compareMatches_niche x y Px Py).
  - intros x y Px Py. apply (compareMatches_niche x y Px Py).
Qed.

Lemma rankMatches_niche_dominant_witness :
  StronglySorted (fun x y => nicheKey y <= nicheKey x)
    (rankMatches [Examples.match_q; Examples.match_r; Examples.match_p]).
Proof.
  apply (@rankMatches_niche_dominant
           [Examples.match_q; Examples.match_r; Examples.match_p]).
  repeat constructor.
Defined.

Lemma slice_rank_incl (n : nat) (l : list Matcher.Match) :
  incl (slice0 n (rankMatches l)) l.
Proof.
  intros m Hm. unfold slice0, rankMatches in Hm.
  apply (Permutation_in m (Permutation_sym (sort_perm compareMatches l))).
  rewrite <- (firstn_skipn n (sort compareMatches l)).
  apply in_or_app. left. exact Hm.
Qed.

(** X9.  Ranking and keeping the first three never invents, drops or
    repeats a match: the ranked list is a permutation of the input, and
    the slice holds [min(3, n)] of the input's matches. *)
Theorem top_three_of_the_input (l : list Matcher.Match) :
  Permutation l (rankMatches l) /\
  List.length (slice0 3 (rankMatches l)) = Nat.min 3 (List.length l) /\
  incl (slice0 3 (rankMatches l)) l.
Proof.
  split; [apply sort_perm|]. split.
  - unfold slice0, rankMatches. rewrite length_firstn, sort_length.
    reflexivity.
  - apply slice_rank_incl.
Qed.

End RankerBehaviour.

(** ** The match endpoint, further *)

Section EndpointBehaviour.

Import Matcher Server Claims Behaviour.
Local Open Scope Q_scope.

Lemma calculateMatch_creator (a : Assignment) (c : Creator) (s : num)
  (m : Matcher.Match) :
  calculateMatch a c s = Ok m -> creator m = c.
Proof.
  unfold calculateMatch.
  destruct (calculateNicheAlignment a c) as [e|n]; cbn [bind];
    [discriminate|].
  destruct (calculateAudienceMatch a c) as [e|au]; cbn [bind];
    [discriminate|].
  destruct (calculateValueAlignment a c) as [e|v]; cbn [bind];
    [discriminate|].
  intro E. injection E as <-. reflexivity.
Qed.

Lemma own_In (creators : Catalog) (id : string) (c : Creator) :
  own creators id = Some c -> In c (values creators).
Proof.
  induction creators as [|[k c'] t IH]; simpl; [discriminate|].
  destruct (String.eqb k id).
  - intro E. injection E as ->. left. reflexivity.
  - intro E. right. apply IH, E.
Qed.

(** What [creators[id]] gives is an own entry or the inherited member. *)
Lemma lookup_cases (creators : Catalog) (id : string) (c : Creator) :
  lookup creators id = Some c ->
  own creators id = Some c
  \/ (own creators id = None /\ arr_includes inheritedNames id = true
      /\ c = inheritedMember).
Proof.
  unfold lookup. destruct (own creators id) as [c'|];
    [intro E; left; exact E|].
  destruct (arr_includes inheritedNames id); [|discriminate].
  intro E. injection E as <-. right. repeat split.
Qed.

Lemma scoreFallback_from_catalog (a : Assignment) (creators : Catalog)
  (scored : list Matcher.Match) :
  scoreFallback a creators = Ok scored ->
  Forall (fun m => In (creator m) (values creators)) scored.
Proof.
  unfold scoreFallback. generalize (values creators) as cs.
  intro cs. revert scored.
  induction cs as [|c t IH]; intros scored; simpl.
  - intro E. injection E as <-. constructor.
  - destruct (calculateMatch a c (Fin 0)) as [e|m] eqn:Em; cbn [bind];
      [discriminate|].
    destruct (mapM (fun c0 => calculateMatch a c0 (Fin 0)) t) as [e|ms];
      cbn [bind]; [discriminate|].
    intro E. injection E as <-.
    constructor; [left; symmetry; apply (calculateMatch_creator _ _ _ Em)|].
    apply (Forall_impl _ (fun m (H : In (creator m) t) => or_intror H)).
    apply IH. reflexivity.
Qed.

(** A scored candidate is for a creator of the catalog, or for a value
    without an analysis. *)
Lemma scoreCandidates_from_catalog (a : Assignment) (creators : Catalog)
  (cands : list Candidate) (scored : list Matcher.Match) :
  scoreCandidates a creators cands = Ok scored ->
  Forall (fun m => In (creator m) (values creators)
                   \/ analysis (creator m) = None) scored.
Proof.
  revert scored.
  induction cands as [|cand t IH]; intros scored; simpl.
  - intro E. injection E as <-. constructor.
  - destruct (lookup creators (cand_id cand)) as [c|] eqn:L; [|apply IH].
    destruct (calculateMatch a c (cand_score cand)) as [e|m] eqn:Em;
      cbn [bind]; [discriminate|].
    destruct (scoreCandidates a creators t) as [e|ms]; cbn [bind];
      [discriminate|].
    intro E. injection E as <-.
    constructor; [|apply IH; reflexivity].
    rewrite (calculateMatch_creator _ _ _ Em).
    destruct (lookup_cases _ _ L) as [O|(_ & _ & ->)].
    + left. apply (own_In _ _ O).
    + right. reflexivity.
Qed.

Lemma creatorLine_analysis (m : Matcher.Match) (line : string) :
  creatorLine m = Ok line -> analysis (creator m) <> None.
Proof.
  unfold creatorLine, analysis_of.
  destruct (analysis (creator m)); [discriminate|].
  cbn [bind]. discriminate.
Qed.

Lemma mapM_each {A B} (f : A -> result B) (l : list A) (ys : list B) :
  mapM f l = Ok ys -> Forall (fun x => exists y, f x = Ok y) l.
Proof.
  revert ys. induction l as [|x t IH]; intros ys; simpl; [constructor|].
  destruct (f x) as [e|y] eqn:Ex; cbn [bind]; [discriminate|].
  destruct (mapM f t) as [e|ys'] eqn:Et; cbn [bind]; [discriminate|].
  intros _. constructor; [exists y; exact Ex | apply (IH ys' eq_refl)].
Qed.

(** X10.  Whatever the outside answers, a response never carries more
    than three matches, and every match it carries is for a creator of the
    catalog that was loaded. *)
Theorem response_matches_bounded (init : bool) (req : Request) (w : World) :
  (List.length (matchesOf (body (fst (postMatches init req w)))) <= 3)%nat /\
  forall m,
    In m (matchesOf (body (fst (postMatches init req w)))) ->
    exists creators,
      loadCreators w = inr creators /\ In (creator m) (values creators).
Proof.
  unfold postMatches.
  destruct init; cbn [negb]; [|split; [simpl; lia | intros m []]].
  destruct (req_assignment req) as [a|]; [|split; [simpl; lia | intros m []]].
  destruct (vectorSearch w (assignmentText a)) as [[cands fb] calls].
  destruct (loadCreators w) as [e|creators];
    [unfold failure; destruct (str_includes _ _);
     split; [simpl; lia | intros m [] | simpl; lia | intros m []]|].
  assert (S : forall scored,
             (if fb then scoreFallback a creators
              else scoreCandidates a creators cands) = Ok scored ->
             Forall (fun m => In (creator m) (values creators)
                              \/ analysis (creator m) = None) scored).
  { intros scored. destruct fb; [|apply scoreCandidates_from_catalog].
    intro E. apply scoreFallback_from_catalog in E.
    revert E. apply Forall_impl. intros m H. left. exact H. }
  destruct (if fb then scoreFallback a creators
            else scoreCandidates a creators cands) as [e|[|m0 ms]];
    [unfold failure; destruct (str_includes _ _);
     split; [simpl; lia | intros m [] | simpl; lia | intros m []]
    | split; [simpl; lia | intros m []] |].
  specialize (S (m0 :: ms) eq_refl).
  destruct (mapM creatorLine (slice0 TOP_K (rankMatches (m0 :: ms))))
    as [e|lines] eqn:El;
    [unfold failure; destruct (str_includes _ _);
     split; [simpl; lia | intros m [] | simpl; lia | intros m []]|].
  cbn [fst body matchesOf]. split.
  - unfold slice0, TOP_K. rewrite length_firstn. lia.
  - intros m Hm. exists creators. split; [reflexivity|].
    pose proof (mapM_each _ _ El) as Each.
    rewrite Forall_forall in S, Each.
    destruct (Each m Hm) as [line Hl].
    destruct (S m (slice_rank_incl TOP_K (m0 :: ms) m Hm)) as [I|N];
      [exact I|].
    destruct (creatorLine_analysis _ Hl N).
Qed.

(** X11.  When the embedding step throws, the vector index is not queried:
    the calls of the request start with the embedding and the catalog load,
    no vector call follows, and the answer is never marked as a
    non-fallback one. *)
Theorem embedding_failure_skips_query (req : Request) (w : World)
  (a : Assignment) (e : Error) :
  req_assignment req = Some a ->
  generateEmbedding w (assignmentText a) = inl e ->
  exists rest,
    snd (postMatches true req w)
    = CallGenerateEmbedding (assignmentText a) :: CallLoadCreators :: rest /\
    existsb is_vector_call rest = false /\
    fallbackOf (body (fst (postMatches true req w))) <> Some false.
Proof.
  intros Ha He. unfold postMatches, vectorSearch.
  rewrite Ha, He. cbn [negb app].
  destruct (loadCreators w) as [e'|creators];
    [exists []; unfold failure; destruct (str_includes _ _);
     repeat split; discriminate|].
  destruct (scoreFallback a creators) as [e'|[|m0 ms]];
    [exists []; unfold failure; destruct (str_includes _ _);
     repeat split; discriminate
    | exists []; repeat split; discriminate |].
  destruct (mapM creatorLine (slice0 TOP_K (rankMatches (m0 :: ms))))
    as [e'|lines];
    [exists []; unfold failure; destruct (str_includes _ _);
     repeat split; discriminate|].
  eexists. split; [reflexivity|]. split; [|discriminate].
  unfold persistCalls.
  destruct (present (req_assignmentId req));
    [destruct (present (assignmentServiceUrl w))|]; reflexivity.
Qed.

Lemma embedding_failure_skips_query_witness :
  exists rest,
    snd (postMatches true Examples.request_plain Examples.world_down)
    = CallGenerateEmbedding (assignmentText Examples.assignment_plain)
      :: CallLoadCreators :: rest /\
    existsb is_vector_call rest = false /\
    fallbackOf (body (fst (postMatches true Examples.request_plain
                             Examples.world_down))) <> Some false.
Proof.
  apply (@embedding_failure_skips_query Examples.request_plain
           Examples.world_down Examples.assignment_plain
           Examples.unavailable eq_refl eq_refl).
Defined.

(** X12.  What the completion adapter answers, or that it throws, changes
    nothing but the reasoning text: two outside worlds that differ only in
    the completion adapter give the same status, the same matches in the
    same order, the same fallback flag and the same calls. *)
Theorem completion_only_changes_reasoning (init : bool) (req : Request)
  (w w' : World) :
  sameButCompletion w w' ->
  status (fst (postMatches init req w))
  = status (fst (postMatches init req w')) /\
  matchesOf (body (fst (postMatches init req w)))
  = matchesOf (body (fst (postMatches init req w'))) /\
  fallbackOf (body (fst (postMatches init req w)))
  = fallbackOf (body (fst (postMatches init req w'))) /\
  snd (postMatches init req w) = snd (postMatches init req w').
Proof.
  intros (E1 & E2 & E3 & E4).
  unfold postMatches, vectorSearch, persistCalls.
  rewrite E1, E2, E3, E4.
  destruct init; cbn [negb]; [|repeat split].
  destruct (req_assignment req) as [a|]; [|repeat split].
  destruct (generateEmbedding w' (assignmentText a)) as [e|emb];
    [|destruct (queryVectors w' emb TOP_K_QUERY) as [e|cands]].
  all: destruct (loadCreators w') as [e'|creators]; [repeat split|].
  all: match goal with
       | |- context [match ?sc with inl _ => _ | inr _ => _ end] =>
           destruct sc as [e''|[|m0 ms]]
       end; [repeat split | repeat split |].
  all: destruct (mapM creatorLine (slice0 TOP_K (rankMatches (m0 :: ms))))
         as [e''|lines]; repeat split.
Qed.

Lemma completion_only_changes_reasoning_witness :
  sameButCompletion Examples.world_ok Examples.world_silent /\
  status (fst (postMatches true Examples.request_plain Examples.world_ok))
  = status (fst (postMatches true Examples.request_plain
                   Examples.world_silent)) /\
  matchesOf (body (fst (postMatches true Examples.request_plain
                          Examples.world_ok)))
  = matchesOf (body (fst (postMatches true Examples.request_plain
                            Examples.world_silent))) /\
  fallbackOf (body (fst (postMatches true Examples.request_plain
                           Examples.world_ok)))
  = fallbackOf (body (fst (postMatches true Examples.request_plain
                             Examples.world_silent))) /\
  snd (postMatches true Examples.request_plain Examples.world_ok)
  = snd (postMatches true Examples.request_plain Examples.world_silent).
Proof.
  assert (H : sameButCompletion Examples.world_ok Examples.world_silent)
    by (repeat split).
  split; [exact H|].
  apply (@completion_only_changes_reasoning true Examples.request_plain
           Examples.world_ok Examples.world_silent H).
Defined.

Lemma scoreCandidates_none (a : Assignment) (creators : Catalog)
  (cands : list Candidate) :
  forallb (fun cand => negb (inCatalog creators cand)) cands = true ->
  scoreCandidates a creators cands = Ok [].
Proof.
  induction cands as [|cand t IH]; simpl; [reflexivity|].
  intro H. apply andb_true_iff in H. destruct H as [Hc Ht].
  unfold inCatalog in Hc.
  destruct (lookup creators (cand_id cand)); [discriminate|]. apply IH, Ht.
Qed.

(** X13.  When the vector query succeeds and the lookup [creators[id]]
    gives nothing for any of its candidates (stale vectors, an empty
    catalog, or no candidate at all; an id such as [constructor], which
    every object inherits, does give a value), the answer is a success with
    no match and [isFallback] false, and the completion adapter is not
    called. *)
Theorem stale_candidates_give_empty_success (req : Request) (w : World)
  (a : Assignment) (emb : Embedding) (cands : option (list Candidate))
  (creators : Catalog) :
  req_assignment req = Some a ->
  generateEmbedding w (assignmentText a) = inr emb ->
  queryVectors w emb TOP_K_QUERY = inr cands ->
  loadCreators w = inr creators ->
  forallb (fun cand => negb (inCatalog creators cand))
          (match cands with Some l => l | None => [] end) = true ->
  postMatches true req w
  = ({| status := 200; body := BNoMatches a noCreatorsReasoning false |},
     [CallGenerateEmbedding (assignmentText a);
      CallQueryVectors TOP_K_QUERY; CallLoadCreators]).
Proof.
  intros Ha He Hq Hl Hn. unfold postMatches, vectorSearch.
  rewrite Ha, He, Hq, Hl. cbn [negb app].
  rewrite (scoreCandidates_none a creators _ Hn). reflexivity.
Qed.

Lemma stale_candidates_give_empty_success_witness :
  postMatches true Examples.request_plain Examples.world_stale
  = ({| status := 200;
        body := BNoMatches Examples.assignment_plain noCreatorsReasoning
                  false |},
     [CallGenerateEmbedding (assignmentText Examples.assignment_plain);
      CallQueryVectors TOP_K_QUERY; CallLoadCreators]).
Proof.
  apply (@stale_candidates_give_empty_success Examples.request_plain
           Examples.world_stale Examples.assignment_plain [Fin 0]
           (Some [{| cand_id := "retired"; cand_score := Fin 0.9 |}])
           Examples.catalog_one eq_refl eq_refl eq_refl eq_refl eq_refl).
Defined.

(** X14.  When the catalog cannot be loaded the request fails, fallback or
    not: the status is 503 when the message of the error mentions the
    circuit breaker and 500 otherwise, the body is an error, and nothing is
    called after the load. *)
Theorem catalog_failure_fails_request (req : Request) (w : World)
  (a : Assignment) (e : Error) :
  req_assignment req = Some a ->
  loadCreators w = inl e ->
  exists calls,
    postMatches true req w
    = ({| status := if str_includes (err_message e) "Circuit breaker"
                    then 503%Z else 500%Z;
          body := BError
                    (if str_includes (err_message e) "Circuit breaker"
                     then "Service temporarily unavailable"
                     else "Failed to create match")%string |},
       (calls ++ [CallLoadCreators])%list) /\
    existsb is_completion_call calls = false.
Proof.
  intros Ha Hl. unfold postMatches, vectorSearch. rewrite Ha, Hl.
  cbn [negb]. unfold failure.
  destruct (generateEmbedding w (assignmentText a)) as [e1|emb];
    [|destruct (queryVectors w emb TOP_K_QUERY) as [e2|cands]];
    destruct (str_includes (err_message e) "Circuit breaker");
    eexists; split; reflexivity.
Qed.

Lemma catalog_failure_fails_request_witness :
  exists calls,
    postMatches true Examples.request_plain Examples.world_no_catalog
    = ({| status := 500%Z; body := BError "Failed to create match" |},
       (calls ++ [CallLoadCreators])%list) /\
    existsb is_completion_call calls = false.
Proof.
  apply (@catalog_failure_fails_request Examples.request_plain
           Examples.world_no_catalog Examples.assignment_plain
           Examples.fileMissing eq_refl eq_refl).
Defined.

Lemma own_analysis (creators : Catalog) (id : string) (c : Creator) :
  wellFormedCatalog creators -> own creators id = Some c ->
  analysis c <> None.
Proof.
  induction 1 as [|[k c'] t Hc _ IH]; simpl; [discriminate|].
  destruct (String.eqb k id).
  - intro E. injection E as <-. exact Hc.
  - exact IH.
Qed.

Lemma scoreCandidates_ok (a : Assignment) (creators : Catalog)
  (cands : list Candidate) :
  wellFormedCatalog creators ->
  forallb (plainCandidate creators) cands = true ->
  exists scored,
    scoreCandidates a creators cands = Ok scored /\
    List.length scored = List.length (filter (inCatalog creators) cands) /\
    Forall (fun m => analysis (creator m) <> None
                     /\ scoredFrom creators cands m) scored.
Proof.
  intros W P.
  induction cands as [|cand t IH]; simpl.
  - exists []. repeat split; constructor.
  - cbn [forallb] in P. apply andb_true_iff in P. destruct P as [Pc Pt].
    destruct (IH Pt) as (scored & Es & L & F). clear IH.
    unfold inCatalog at 1.
    assert (F' : Forall (fun m => analysis (creator m) <> None
                                  /\ scoredFrom creators (cand :: t) m)
                        scored).
    { revert F. apply Forall_impl.
      intros m [H1 (cd & s & I & R)].
      split; [exact H1|]. exists cd, s.
      split; [right; exact I | exact R]. }
    unfold plainCandidate, inherits, cosineScore in Pc.
    apply andb_true_iff in Pc. destruct Pc as [Pi Ps].
    destruct (lookup creators (cand_id cand)) as [c|] eqn:Lk.
    + destruct (lookup_cases _ _ Lk) as [O|(O & I & _)];
        [|rewrite O, I in Pi; discriminate].
      pose proof (own_analysis _ W O) as NA.
      destruct (analysis c) as [an|] eqn:E; [|congruence].
      destruct (cand_score cand) as [s| | |] eqn:Sc; try discriminate.
      apply andb_true_iff in Ps. destruct Ps as [Lo Hi].
      apply Qle_bool_iff in Lo, Hi.
      destruct (@calculateMatch_finite a c an E s)
        as (n & au & v & _ & _ & _ & _ & _ & _ & Em).
      rewrite Em. cbn [bind Ok]. rewrite Es. cbn [bind Ok].
      eexists. split; [reflexivity|].
      split; [simpl; congruence|].
      constructor; [|exact F'].
      cbn [creator scoreBreakdown semanticSimilarity].
      split; [rewrite E; discriminate|].
      exists cand, s. split; [left; reflexivity|].
      split; [exact O|]. split; [exact Sc|].
      cbn [creator scoreBreakdown semanticSimilarity].
      assert (0 <= (s + 1) / 2) by (apply Qle_shift_div_l; lra).
      assert ((s + 1) / 2 <= 1) by (apply Qle_shift_div_r; lra).
      apply toFixed4_fourDecimals; [lra | reflexivity].
    + exists scored. split; [exact Es|]. split; [exact L | exact F'].
Qed.

(** X15.  On the vector path with a catalog whose creators carry their
    analysis, and candidates that have cosine scores and no inherited name
    as id, the answer has [isFallback] false and as many matches as there
    are candidates with a catalog entry, up to three; the semantic
    similarity of each match is the score of its candidate, normalized and
    rounded to four decimals (up to [fpError]). *)
Theorem vector_path_scores_candidates (req : Request) (w : World)
  (a : Assignment) (emb : Embedding) (cands : list Candidate)
  (creators : Catalog) :
  req_assignment req = Some a ->
  generateEmbedding w (assignmentText a) = inr emb ->
  queryVectors w emb TOP_K_QUERY = inr (Some cands) ->
  loadCreators w = inr creators ->
  wellFormedCatalog creators ->
  forallb (plainCandidate creators) cands = true ->
  vectorResponse req w creators cands.
Proof.
  intros Ha He Hq Hl W P.
  destruct (scoreCandidates_ok a cands W P) as (scored & Es & Ls & Fs).
  unfold vectorResponse, postMatches, vectorSearch.
  rewrite Ha, He, Hq, Hl. cbn [negb app]. rewrite Es.
  destruct scored as [|m0 ms].
  { eexists; eexists. split; [reflexivity|].
    repeat split; try constructor. cbn [body matchesOf].
    rewrite <- Ls. reflexivity. }
  assert (Fr : Forall (fun m => analysis (creator m) <> None
                                /\ scoredFrom creators cands m)
                      (slice0 TOP_K (rankMatches (m0 :: ms)))).
  { apply Forall_firstn.
    apply (Permutation_Forall (rankMatches_perm (m0 :: ms))), Fs. }
  destruct (@mapM_ok _ _ creatorLine (slice0 TOP_K (rankMatches (m0 :: ms))))
    as (lines & El & _).
  { apply (Forall_impl _ (fun m H => creatorLine_ok m (proj1 H)) Fr). }
  cbn [Ok]. rewrite El.
  eexists; eexists. split; [reflexivity|].
  cbn [status body matchesOf fallbackOf].
  repeat split.
  - unfold slice0, TOP_K, rankMatches.
    rewrite length_firstn, sort_length, Ls. reflexivity.
  - apply (Forall_impl _ (fun m H => proj2 H) Fr).
Qed.

Lemma vector_path_scores_candidates_witness :
  vectorResponse Examples.request_plain Examples.world_ok
    Examples.catalog_one
    [{| cand_id := "homefixhacks"; cand_score := Fin 0.9 |}].
Proof.
  apply (@vector_path_scores_candidates Examples.request_plain
           Examples.world_ok Examples.assignment_plain [Fin 0]
           [{| cand_id := "homefixhacks"; cand_score := Fin 0.9 |}]
           Examples.catalog_one eq_refl eq_refl eq_refl eq_refl).
  - repeat constructor. simpl. discriminate.
  - reflexivity.
Defined.

(** A candidate whose id is a name that every object inherits is looked
    up with success; the value has no analysis, and the request fails when
    the creator line is built. *)
Example inherited_id_fails_request :
  inCatalog Examples.catalog_one
    {| cand_id := "constructor"; cand_score := Fin 0.9 |} = true /\
  status (fst (postMatches true Examples.request_plain
                 Scenarios.world_inherited)) = 500%Z.
Proof. split; vm_compute; reflexivity. Qed.

End EndpointBehaviour.

(** ** Retry, further *)

Section RetryBehaviour.

Import Resilience Behaviour.
Local Open Scope Z_scope.

(** A wait is decided only when another attempt is left. *)
Lemma onError_wait (ad : Adapter) (s : Service) (attempt : nat) (e : Error)
  (w : list Z) :
  onError ad s attempt e = Again w ->
  w = [] \/ ((attempt < maxRetries s)%nat /\ List.length w = 1%nat).
Proof.
  destruct ad; simpl.
  - unfold pinecone_onError.
    destruct (Nat.ltb_spec attempt (maxRetries s)); intro E;
      injection E as <-; auto.
  - unfold bedrock_onError.
    destruct (Nat.ltb_spec attempt (maxRetries s));
      rewrite ?andb_false_r; cbn [andb];
      repeat match goal with
             | |- (if ?b then _ else _) = _ -> _ => destruct b
             end;
      intro E; try discriminate E; injection E as <-; auto.
  - unfold openai_onError.
    destruct (Nat.ltb_spec attempt (maxRetries s));
      rewrite ?andb_false_r; cbn [andb];
      repeat match goal with
             | |- (if ?b then _ else _) = _ -> _ => destruct b
             end;
      intro E; try discriminate E; injection E as <-; auto.
Qed.

Lemma retry_from_waits {A} (ad : Adapter) (s : Service) (op : Operation A)
  (fuel attempt : nat) (lastError : option Error) (waited : list Z) :
  (attempt + fuel = S (maxRetries s))%nat -> (0 < fuel)%nat ->
  let run := retry_from ad s op fuel attempt lastError waited in
  (attempt <= attempts run)%nat /\
  (List.length (waits run) + attempt
   <= List.length waited + attempts run)%nat.
Proof.
  revert attempt lastError waited.
  induction fuel as [|fuel IH]; intros attempt lastError waited F P; [lia|].
  cbv zeta. cbn [retry_from].
  destruct (op attempt) as [e|v]; cbn [attempts waits]; [|lia].
  destruct (onError ad s attempt e) as [w|] eqn:E; cbn [attempts waits];
    [|lia].
  destruct (onError_wait ad s attempt e E) as [->|[L W]].
  - destruct fuel as [|fuel'].
    + cbn [retry_from attempts waits Nat.pred]. rewrite app_nil_r. lia.
    + pose proof (IH (S attempt) (Some e) (waited ++ [])%list) as I.
      cbv zeta in I. destruct I as [I1 I2]; [lia | lia |].
      rewrite length_app in I2. cbn [List.length] in I2. lia.
  - pose proof (IH (S attempt) (Some e) (waited ++ w)%list) as I.
    cbv zeta in I. destruct I as [I1 I2]; [lia | lia |].
    rewrite length_app in I2. lia.
Qed.

(** X16.  On every adapter and for every operation, [executeWithRetry]
    calls the operation at most [maxRetries] times and waits only between
    two attempts: there are fewer waits than attempts. *)
Theorem retry_bounded_and_waits_between {A} (ad : Adapter) (s : Service)
  (op : Operation A) :
  (attempts (executeWithRetry ad s op) <= maxRetries s)%nat /\
  (List.length (waits (executeWithRetry ad s op))
   <= Nat.pred (attempts (executeWithRetry ad s op)))%nat.
Proof.
  split; [apply executeWithRetry_attempts|].
  unfold executeWithRetry.
  destruct (maxRetries s) as [|k] eqn:K; [simpl; lia|].
  pose proof (@retry_from_waits A ad s op (S k) 1 None []) as I.
  cbv zeta in I. destruct I as [I1 I2]; [lia | lia |].
  cbn [List.length] in I2. lia.
Qed.

End RetryBehaviour.

Section RetrySchedules.

Import Resilience Behaviour.
Local Open Scope Z_scope.

Lemma scripted_fails {A} (errs : list Error) (v : A) (attempt : nat) :
  (1 <= attempt <= List.length errs)%nat ->
  exists e, nth_error errs (Nat.pred attempt) = Some e /\
            scripted errs v attempt = inl e.
Proof.
  intro H. unfold scripted.
  destruct (nth_error errs (Nat.pred attempt)) as [e|] eqn:E.
  - exists e. split; reflexivity.
  - apply nth_error_None in E. lia.
Qed.

Lemma scripted_succeeds {A} (errs : list Error) (v : A) :
  scripted errs v (S (List.length errs)) = inr v.
Proof.
  unfold scripted. cbn [Nat.pred].
  destruct (nth_error errs (List.length errs)) as [e|] eqn:E; [|reflexivity].
  assert (nth_error errs (List.length errs) <> None) as N by congruence.
  apply nth_error_Some in N. lia.
Qed.

Lemma pinecone_success_from {A} (s : Service) (errs : list Error) (v : A)
  (fuel attempt : nat) (lastError : option Error) (waited : list Z) :
  (attempt + fuel = S (maxRetries s))%nat -> (1 <= attempt)%nat ->
  (List.length errs < maxRetries s)%nat ->
  (attempt <= S (List.length errs))%nat ->
  retry_from Pinecone s (scripted errs v) fuel attempt lastError waited
  = {| outcome := Ok v;
       attempts := S (List.length errs);
       waits := (waited
                 ++ map (backoff s)
                        (seq attempt (S (List.length errs) - attempt)))%list |}.
Proof.
  revert attempt lastError waited.
  induction fuel as [|fuel IH]; intros attempt lastError waited F P L U;
    [lia|].
  cbn [retry_from].
  destruct (Nat.eq_dec attempt (S (List.length errs))) as [->|N].
  - rewrite scripted_succeeds. rewrite Nat.sub_diag. cbn [seq map].
    rewrite app_nil_r. reflexivity.
  - destruct (@scripted_fails A errs v attempt) as (e & _ & ->); [lia|].
    cbn [onError]. unfold pinecone_onError.
    destruct (Nat.ltb_spec attempt (maxRetries s)); [|lia].
    rewrite IH by lia.
    replace (S (List.length errs) - attempt)%nat
      with (S (S (List.length errs) - S attempt))%nat by lia.
    cbn [seq map]. rewrite <- app_assoc. reflexivity.
Qed.

Lemma total_backoffs_from (s : Service) (n a : nat) :
  (1 <= a)%nat ->
  total (map (backoff s) (seq a n))
  = retryDelay s * (2 ^ Z.of_nat (a + n - 1) - 2 ^ Z.of_nat (a - 1)).
Proof.
  revert a. induction n as [|n IH]; intros a H.
  - cbn [seq map total fold_right]. replace (a + 0 - 1)%nat with (a - 1)%nat by lia.
    lia.
  - cbn [seq map]. unfold total in *. cbn [fold_right].
    rewrite IH by lia. unfold backoff.
    replace (Z.of_nat a - 1) with (Z.of_nat (a - 1)) by lia.
    replace (S a - 1)%nat with (S (a - 1))%nat by lia.
    replace (S a + n - 1)%nat with (a + S n - 1)%nat by lia.
    rewrite (Nat2Z.inj_succ (a - 1)), Z.pow_succ_r by lia. lia.
Qed.

(** X17.  On the Pinecone adapter an operation that fails [k - 1] times
    and then succeeds, with [k] within [maxRetries], is called [k] times;
    the waits in between double from [retryDelay], and add up to
    [retryDelay * (2 ^ (k - 1) - 1)]. *)
Theorem pinecone_backoff_until_success {A} (s : Service) (errs : list Error)
  (v : A) :
  (List.length errs < maxRetries s)%nat ->
  executeWithRetry Pinecone s (scripted errs v)
  = {| outcome := Ok v;
       attempts := S (List.length errs);
       waits := backoffs s (S (List.length errs)) |}
  /\ total (backoffs s (S (List.length errs)))
     = retryDelay s * (2 ^ Z.of_nat (List.length errs) - 1).
Proof.
  intro L. split.
  - unfold executeWithRetry.
    rewrite (@pinecone_success_from A s errs v (maxRetries s) 1 None [])
      by lia.
    unfold backoffs. cbn [app Nat.pred].
    replace (S (List.length errs) - 1)%nat with (List.length errs) by lia.
    reflexivity.
  - unfold backoffs. cbn [Nat.pred].
    rewrite total_backoffs_from by lia.
    replace (1 + List.length errs - 1)%nat with (List.length errs) by lia.
    cbn [Nat.sub Z.of_nat]. rewrite Z.pow_0_r. reflexivity.
Qed.

Lemma pinecone_backoff_until_success_witness :
  (List.length [Examples.unavailable; Examples.unavailable]
   < maxRetries newService)%nat /\
  (executeWithRetry Pinecone newService
     (scripted [Examples.unavailable; Examples.unavailable] tt)
   = {| outcome := Ok tt; attempts := 3; waits := [1000; 2000] |}
   /\ total [1000; 2000] = 1000 * (2 ^ 2 - 1)).
Proof.
  split; [vm_compute; lia|].
  exact (@pinecone_backoff_until_success unit newService
           [Examples.unavailable; Examples.unavailable] tt
           ltac:(vm_compute; lia)).
Defined.

Lemma pinecone_exhausted_from {A} (s : Service) (errs : list Error) (v : A)
  (elast : Error) (fuel attempt : nat) (lastError : option Error)
  (waited : list Z) :
  (attempt + fuel = S (maxRetries s))%nat -> (1 <= attempt)%nat ->
  (maxRetries s <= List.length errs)%nat ->
  nth_error errs (Nat.pred (maxRetries s)) = Some elast ->
  (fuel = 0%nat -> lastError = Some elast) ->
  retry_from Pinecone s (scripted errs v) fuel attempt lastError waited
  = {| outcome := Throw elast;
       attempts := maxRetries s;
       waits := (waited
                 ++ map (backoff s) (seq attempt (maxRetries s - attempt)))%list |}.
Proof.
  revert attempt lastError waited.
  induction fuel as [|fuel IH]; intros attempt lastError waited F P L E Z.
  - cbn [retry_from]. rewrite (Z eq_refl).
    replace attempt with (S (maxRetries s)) by lia.
    cbn [Nat.pred]. replace (maxRetries s - S (maxRetries s))%nat with 0%nat by lia.
    cbn [seq map]. rewrite app_nil_r. reflexivity.
  - cbn [retry_from].
    destruct (@scripted_fails A errs v attempt) as (e & N & ->); [lia|].
    cbn [onError]. unfold pinecone_onError.
    destruct (Nat.ltb_spec attempt (maxRetries s)).
    + rewrite IH; try lia; try assumption.
      replace (maxRetries s - attempt)%nat
        with (S (maxRetries s - S attempt))%nat by lia.
      cbn [seq map]. rewrite <- app_assoc. reflexivity.
    + assert (attempt = maxRetries s) as -> by lia.
      rewrite IH; try lia; try assumption.
      * replace (maxRetries s - S (maxRetries s))%nat with 0%nat by lia.
        rewrite Nat.sub_diag. cbn [seq map]. rewrite !app_nil_r. reflexivity.
      * intros _. congruence.
Qed.

(** X18.  On the Pinecone adapter an operation that fails at every one of
    the [maxRetries] attempts is called [maxRetries] times, with all the
    back-off waits but none after the last attempt, and the error thrown
    is the one of the last attempt. *)
Theorem pinecone_exhausted_throws_last {A} (s : Service) (errs : list Error)
  (v : A) (elast : Error) :
  (0 < maxRetries s)%nat ->
  (maxRetries s <= List.length errs)%nat ->
  nth_error errs (Nat.pred (maxRetries s)) = Some elast ->
  executeWithRetry Pinecone s (scripted errs v)
  = {| outcome := Throw elast;
       attempts := maxRetries s;
       waits := backoffs s (maxRetries s) |}.
Proof.
  intros M L E. unfold executeWithRetry.
  rewrite (@pinecone_exhausted_from A s errs v elast (maxRetries s) 1 None [])
    by (try lia; try assumption).
  unfold backoffs. cbn [app].
  replace (maxRetries s - 1)%nat with (Nat.pred (maxRetries s)) by lia.
  reflexivity.
Qed.

Lemma pinecone_exhausted_throws_last_witness :
  (0 < maxRetries newService)%nat /\
  (maxRetries newService
   <= List.length [Examples.unavailable; Examples.unavailable;
                   Examples.configInvalid])%nat /\
  executeWithRetry Pinecone newService
    (scripted [Examples.unavailable; Examples.unavailable;
               Examples.configInvalid] tt)
  = {| outcome := Throw Examples.configInvalid;
       attempts := 3;
       waits := [1000; 2000] |}.
Proof.
  split; [vm_compute; lia|]. split; [vm_compute; lia|].
  exact (@pinecone_exhausted_throws_last unit newService
           [Examples.unavailable; Examples.unavailable;
            Examples.configInvalid] tt Examples.configInvalid
           ltac:(vm_compute; lia) ltac:(vm_compute; lia) eq_refl).
Defined.

End RetrySchedules.

Section RateLimit.

Import Resilience Behaviour.
Local Open Scope Z_scope.

Lemma rateLimited_wait (ad : Adapter) (s : Service) (attempt : nat)
  (e : Error) :
  rateLimited ad e = true -> (attempt < maxRetries s)%nat ->
  onError ad s attempt e = Again [2 ^ Z.of_nat attempt * 1000].
Proof.
  intros R L. apply Nat.ltb_lt in L.
  destruct ad; cbn [rateLimited onError] in *; [discriminate R| |].
  - unfold bedrock_onError. rewrite R, L. reflexivity.
  - unfold openai_onError. apply andb_true_iff in R. destruct R as [R1 R2].
    rewrite R1, L. destruct (err_retry_after e); [discriminate R2|].
    reflexivity.
Qed.

Lemma rateLimited_last (ad : Adapter) (s : Service) (attempt : nat)
  (e : Error) :
  rateLimited ad e = true -> (maxRetries s <= attempt)%nat ->
  onError ad s attempt e = Break \/ onError ad s attempt e = Again [].
Proof.
  intros R L. apply Nat.ltb_ge in L.
  destruct ad; cbn [rateLimited onError] in *; [discriminate R| |].
  - left. unfold bedrock_onError. rewrite L, andb_false_r. reflexivity.
  - right. unfold openai_onError. apply andb_true_iff in R.
    destruct R as [R1 R2].
    rewrite L, andb_false_r. cbn [andb].
    unfold openai_isRetryableError. rewrite R1, orb_true_r. reflexivity.
Qed.

Lemma rateLimited_from {A} (ad : Adapter) (s : Service) (e : Error)
  (fuel attempt : nat) (lastError : option Error) (waited : list Z) :
  rateLimited ad e = true ->
  (attempt + fuel = S (maxRetries s))%nat -> (1 <= attempt)%nat ->
  (fuel = 0%nat -> lastError = Some e) ->
  retry_from ad s (failing (A := A) e) fuel attempt lastError waited
  = {| outcome := Throw e;
       attempts := maxRetries s;
       waits := (waited
                 ++ map (fun i => 2 ^ Z.of_nat i * 1000)
                        (seq attempt (maxRetries s - attempt)))%list |}.
Proof.
  intro R. revert attempt lastError waited.
  induction fuel as [|fuel IH]; intros attempt lastError waited F P Z.
  - cbn [retry_from]. rewrite (Z eq_refl).
    replace attempt with (S (maxRetries s)) by lia.
    cbn [Nat.pred].
    replace (maxRetries s - S (maxRetries s))%nat with 0%nat by lia.
    cbn [seq map]. rewrite app_nil_r. reflexivity.
  - cbn [retry_from]. unfold failing at 1. cbn [Throw].
    destruct (Nat.ltb_spec attempt (maxRetries s)) as [L|L].
    + rewrite (rateLimited_wait ad s e R L).
      rewrite IH by (try lia; intro; lia).
      replace (maxRetries s - attempt)%nat
        with (S (maxRetries s - S attempt))%nat by lia.
      cbn [seq map]. rewrite <- app_assoc. reflexivity.
    + assert (attempt = maxRetries s) as -> by lia.
      rewrite Nat.sub_diag. cbn [seq map].
      destruct (rateLimited_last ad s e R (le_n (maxRetries s))) as [-> | ->].
      * rewrite app_nil_r. reflexivity.
      * rewrite IH by (try lia; intros _; reflexivity).
        replace (maxRetries s - S (maxRetries s))%nat with 0%nat by lia.
        cbn [seq map]. rewrite !app_nil_r. reflexivity.
Qed.

(** X19.  A call that is rate limited at every attempt (a throttling
    exception on Bedrock, status 429 without [retry-after] on OpenAI)
    is tried [maxRetries] times, and the waits in between are 2, 4, 8, ...
    seconds whatever [retryDelay] is; the rate-limit error is thrown. *)
Theorem rate_limit_waits_ignore_retry_delay {A} (ad : Adapter) (s : Service)
  (e : Error) :
  rateLimited ad e = true -> (0 < maxRetries s)%nat ->
  executeWithRetry ad s (failing (A := A) e)
  = {| outcome := Throw e;
       attempts := maxRetries s;
       waits := rateLimitWaits (maxRetries s) |}.
Proof.
  intros R M. unfold executeWithRetry.
  rewrite (@rateLimited_from A ad s e (maxRetries s) 1 None [] R)
    by (try lia; intro; lia).
  unfold rateLimitWaits. cbn [app].
  replace (maxRetries s - 1)%nat with (Nat.pred (maxRetries s)) by lia.
  reflexivity.
Qed.

Lemma rate_limit_waits_ignore_retry_delay_witness :
  rateLimited Bedrock Examples.throttled = true /\
  (0 < maxRetries newService)%nat /\
  executeWithRetry Bedrock newService (failing (A := unit) Examples.throttled)
  = {| outcome := Throw Examples.throttled;
       attempts := 3;
       waits := [2000; 4000] |}.
Proof.
  split; [reflexivity|]. split; [vm_compute; lia|].
  exact (@rate_limit_waits_ignore_retry_delay unit Bedrock newService
           Examples.throttled eq_refl ltac:(vm_compute; lia)).
Defined.

End RateLimit.

Section BreakerBehaviour.

Import Resilience Behaviour.
Local Open Scope Z_scope.

Lemma breaker_step_consistent {A} (ad : Adapter) (now later : Z)
  (op : Operation A) (s : Service) :
  0 < failureThreshold s -> breakerConsistent s ->
  breakerConsistent (stateAfter (executeWithCircuitBreaker ad now later op s))
  /\ failureThreshold (stateAfter (executeWithCircuitBreaker ad now later op s))
     = failureThreshold s.
Proof.
  intros T C. unfold executeWithCircuitBreaker, breakerConsistent in *.
  destruct (circuitBreakerState s) eqn:St; [| |contradiction].
  - cbn [Ok].
    destruct (outcome (executeWithRetry ad s op)) as [e|v].
    + unfold stateAfter, handleFailure. cbn [fst failureThreshold set_failures failureCount].
      destruct (Z.leb_spec (failureThreshold s) (failureCount s + 1));
        cbn; rewrite ?St; repeat split; try lia; try discriminate.
    + rewrite St. unfold stateAfter. cbn [fst]. rewrite St. split; [lia|reflexivity].
  - destruct C as [C1 C2].
    destruct (Z.ltb _ _).
    + cbn [Ok].
      destruct (outcome (executeWithRetry ad (set_state HALF_OPEN s) op))
        as [e|v].
      * unfold stateAfter, handleFailure. cbn.
        destruct (Z.leb_spec (failureThreshold s) (failureCount s + 1));
          cbn; repeat split; try lia; try discriminate.
      * unfold stateAfter. cbn. split; [lia|reflexivity].
    + unfold stateAfter. cbn. rewrite St. repeat split; assumption.
Qed.

(** X20.  Between calls made one after the other the breaker is never
    left half open: over any history of calls, whatever the operations do
    and whenever they are made, it is closed with fewer failures counted
    than the threshold, or open with the threshold reached and the time of
    the last failure recorded. *)
Theorem breaker_consistent_over_history (ad : Adapter)
  (calls : list (Z * Z * Operation unit)) (s : Service) :
  0 < failureThreshold s -> breakerConsistent s ->
  breakerConsistent (runOperations ad calls s).
Proof.
  revert s. induction calls as [|[[now later] op] rest IH]; intros s T C;
    [exact C|].
  cbn [runOperations].
  destruct (@breaker_step_consistent unit ad now later op s T C) as [C' T'].
  unfold stateAfter in *.
  destruct (executeWithCircuitBreaker ad now later op s) as [[s' r] n].
  cbn [fst] in *. apply IH; [lia|exact C'].
Qed.

Lemma breaker_consistent_over_history_witness :
  0 < failureThreshold newService /\ breakerConsistent newService /\
  breakerConsistent
    (runOperations OpenAI
       [(0, 1, failing Examples.unavailable);
        (2, 3, succeeding tt);
        (4, 5, failing Examples.configInvalid)] newService).
Proof.
  split; [reflexivity|]. split; [reflexivity|].
  exact (@breaker_consistent_over_history OpenAI
           [(0, 1, failing Examples.unavailable);
            (2, 3, succeeding tt);
            (4, 5, failing Examples.configInvalid)] newService
           eq_refl eq_refl).
Defined.

Lemma open_rejects {A} (ad : Adapter) (now later : Z) (op : Operation A)
  (s : Service) :
  circuitBreakerState s = OPEN -> timedOut s now = false ->
  executeWithCircuitBreaker ad now later op s
  = (s, Throw (circuitOpenError ad), 0%nat).
Proof.
  intros O W. unfold executeWithCircuitBreaker, timedOut in *.
  rewrite O, W. reflexivity.
Qed.

(** X21.  While the breaker is open and the reset timeout has not run
    out, calls are refused without the operation being called, and they
    change nothing: the failure count and the time of the last failure
    stay, so refused calls do not extend the window. *)
Theorem open_breaker_rejects_within_window (ad : Adapter)
  (calls : list (Z * Z * Operation unit)) (s : Service) :
  circuitBreakerState s = OPEN -> withinWindow s calls = true ->
  runOperations ad calls s = s /\
  Forall (fun n => n = 0%nat) (operationCalls ad calls s).
Proof.
  intros O. induction calls as [|[[now later] op] rest IH]; intro W.
  - split; [reflexivity|constructor].
  - unfold withinWindow in W. cbn [forallb fst] in W.
    apply andb_true_iff in W. destruct W as [W1 W2].
    apply negb_true_iff in W1.
    cbn [runOperations operationCalls].
    rewrite (open_rejects ad now later op s O W1).
    unfold callsOf, stateAfter. cbn [fst snd].
    destruct (IH W2) as [I1 I2]. split; [exact I1|].
    constructor; [reflexivity|exact I2].
Qed.

Lemma open_breaker_rejects_within_window_witness :
  circuitBreakerState Examples.service_open = OPEN /\
  withinWindow Examples.service_open
    [(100, 100, succeeding tt); (30004, 30004, succeeding tt)] = true /\
  runOperations Bedrock
    [(100, 100, succeeding tt); (30004, 30004, succeeding tt)]
    Examples.service_open = Examples.service_open /\
  Forall (fun n => n = 0%nat)
    (operationCalls Bedrock
       [(100, 100, succeeding tt); (30004, 30004, succeeding tt)]
       Examples.service_open).
Proof.
  split; [reflexivity|]. split; [reflexivity|].
  exact (@open_breaker_rejects_within_window Bedrock
           [(100, 100, succeeding tt); (30004, 30004, succeeding tt)]
           Examples.service_open eq_refl eq_refl).
Defined.

Lemma retry_from_ignores_state {A} (ad : Adapter) (st : BreakerState)
  (s : Service) (op : Operation A) (fuel attempt : nat)
  (lastError : option Error) (waited : list Z) :
  retry_from ad (set_state st s) op fuel attempt lastError waited
  = retry_from ad s op fuel attempt lastError waited.
Proof.
  revert attempt lastError waited.
  induction fuel as [|fuel IH]; intros attempt l w; [reflexivity|].
  cbn [retry_from]. destruct (op attempt) as [e|v]; [|reflexivity].
  assert (onError ad (set_state st s) attempt e = onError ad s attempt e) as ->
    by (destruct ad; reflexivity).
  destruct (onError ad s attempt e); [apply IH|reflexivity].
Qed.

Lemma retry_ignores_state {A} (ad : Adapter) (st : BreakerState)
  (s : Service) (op : Operation A) :
  executeWithRetry ad (set_state st s) op = executeWithRetry ad s op.
Proof. unfold executeWithRetry. apply retry_from_ignores_state. Qed.

(** X22.  The first call entered after the reset timeout is a probe: it
    runs the operation as the retry loop does; if it succeeds the
    breaker closes and the failure count is reset to 0, if it fails the
    breaker is open again at once, with the timer restarted. *)
Theorem half_open_probe_decides {A} (ad : Adapter) (now later : Z)
  (op : Operation A) (s : Service) :
  circuitBreakerState s = OPEN -> timedOut s now = true ->
  failureThreshold s <= failureCount s ->
  probeOutcome s later (executeWithCircuitBreaker ad now later op s) /\
  outcomeOf (executeWithCircuitBreaker ad now later op s)
  = outcome (executeWithRetry ad s op).
Proof.
  intros O W C. unfold executeWithCircuitBreaker, timedOut in *.
  rewrite O, W. cbn [Ok]. rewrite retry_ignores_state.
  unfold probeOutcome, outcomeOf, stateAfter.
  destruct (outcome (executeWithRetry ad s op)) as [e|v]; cbn [fst snd].
  - split; [|reflexivity].
    unfold handleFailure. cbn [failureThreshold set_failures failureCount set_state].
    destruct (Z.leb_spec (failureThreshold s) (failureCount s + 1)); [|lia].
    cbn. repeat split.
  - split; [|reflexivity]. cbn. split; reflexivity.
Qed.

Lemma half_open_probe_decides_witness :
  circuitBreakerState Examples.service_open = OPEN /\
  timedOut Examples.service_open 30005 = true /\
  failureThreshold Examples.service_open
  <= failureCount Examples.service_open /\
  probeOutcome Examples.service_open 30006
    (executeWithCircuitBreaker Pinecone 30005 30006 (succeeding tt)
       Examples.service_open) /\
  outcomeOf (executeWithCircuitBreaker Pinecone 30005 30006 (succeeding tt)
               Examples.service_open)
  = outcome (executeWithRetry Pinecone Examples.service_open (succeeding tt)).
Proof.
  split; [reflexivity|]. split; [reflexivity|]. split; [vm_compute; discriminate|].
  exact (@half_open_probe_decides unit Pinecone 30005 30006 (succeeding tt)
           Examples.service_open eq_refl eq_refl
           ltac:(vm_compute; discriminate)).
Defined.

Lemma failing_throws {A} (ad : Adapter) (s : Service) (e : Error)
  (fuel attempt : nat) (lastError : option Error) (waited : list Z) :
  exists e',
    outcome (retry_from ad s (failing (A := A) e) fuel attempt lastError waited)
    = inl e'.
Proof.
  revert attempt lastError waited.
  induction fuel as [|fuel IH]; intros attempt lastError waited.
  - cbn. eexists. reflexivity.
  - cbn [retry_from]. unfold failing at 1. cbn [Throw].
    destruct (onError ad s attempt e); [apply IH|].
    cbn. eexists. reflexivity.
Qed.

Lemma closed_failure_counts (ad : Adapter) (e : Error) (now : Z)
  (s : Service) :
  circuitBreakerState s = CLOSED ->
  stateAfter (executeWithCircuitBreaker ad now now (failing (A := unit) e) s)
  = handleFailure now s.
Proof.
  intro C. unfold executeWithCircuitBreaker. rewrite C. cbn [Ok].
  destruct (@failing_throws unit ad s e (maxRetries s) 1 None []) as [e' E].
  unfold executeWithRetry. rewrite E. reflexivity.
Qed.

(** X23.  From a closed breaker, failed calls are counted one by one, on
    every adapter and whatever the error, and the breaker opens exactly
    when the count reaches [failureThreshold]. *)
Theorem breaker_opens_at_threshold (ad : Adapter) (e : Error)
  (times : list Z) (s : Service) :
  circuitBreakerState s = CLOSED ->
  failureCount s < failureThreshold s ->
  failureCount s + Z.of_nat (List.length times) <= failureThreshold s ->
  let s' := runCalls ad e (failedCalls times) s in
  failureCount s' = failureCount s + Z.of_nat (List.length times) /\
  circuitBreakerState s'
  = (if Z.eqb (failureCount s') (failureThreshold s) then OPEN else CLOSED).
Proof.
  revert s. induction times as [|t rest IH]; intros s C L U; cbv zeta.
  - cbn [failedCalls map runCalls List.length Z.of_nat].
    rewrite C. destruct (Z.eqb_spec (failureCount s) (failureThreshold s));
      [lia|]. split; [lia|reflexivity].
  - cbn [failedCalls map runCalls].
    pose proof (closed_failure_counts ad e t s C) as H.
    unfold stateAfter in H.
    destruct (executeWithCircuitBreaker ad t t (failing e) s) as [[s1 r] n].
    cbn [fst] in H. subst s1.
    cbn [List.length] in U. rewrite Nat2Z.inj_succ in U.
    destruct rest as [|t' rest'].
    + cbn [map runCalls List.length]. unfold handleFailure.
      cbn [failureThreshold set_failures failureCount].
      destruct (Z.leb_spec (failureThreshold s) (failureCount s + 1));
        cbn; rewrite ?C.
      * destruct (Z.eqb_spec (failureCount s + 1) (failureThreshold s)); [|lia].
        split; [lia|reflexivity].
      * destruct (Z.eqb_spec (failureCount s + 1) (failureThreshold s)); [lia|].
        split; [lia|reflexivity].
    + assert (handleFailure t s
              = set_failures (failureCount s + 1) (Some t) s) as E.
      { unfold handleFailure. cbn [failureThreshold set_failures failureCount].
        cbn [List.length] in U. rewrite Nat2Z.inj_succ in U.
        destruct (Z.leb_spec (failureThreshold s) (failureCount s + 1));
          [lia|reflexivity]. }
      rewrite E.
      specialize (IH (set_failures (failureCount s + 1) (Some t) s)).
      cbv zeta in IH. cbn [set_failures circuitBreakerState failureCount
                           failureThreshold] in IH.
      cbn [List.length] in U. rewrite Nat2Z.inj_succ in U.
      destruct IH as [I1 I2]; [exact C| lia | cbn [List.length]; lia |].
      fold (failedCalls (t' :: rest')).
      rewrite I2, I1. cbn [List.length]. rewrite !Nat2Z.inj_succ.
      split; [lia|reflexivity].
Qed.

Lemma breaker_opens_at_threshold_witness :
  circuitBreakerState newService = CLOSED /\
  failureCount newService < failureThreshold newService /\
  failureCount newService + Z.of_nat (List.length [0; 1; 2; 3; 4])
  <= failureThreshold newService /\
  failureCount
    (runCalls OpenAI Examples.unavailable (failedCalls [0; 1; 2; 3; 4])
       newService) = 0 + 5 /\
  circuitBreakerState
    (runCalls OpenAI Examples.unavailable (failedCalls [0; 1; 2; 3; 4])
       newService) = OPEN.
Proof.
  split; [reflexivity|]. split; [reflexivity|].
  split; [vm_compute; discriminate|].
  exact (@breaker_opens_at_threshold OpenAI Examples.unavailable
           [0; 1; 2; 3; 4] newService eq_refl eq_refl
           ltac:(vm_compute; discriminate)).
Defined.

(** X24.  On the Bedrock and OpenAI adapters an error that is not
    retryable is thrown after one attempt, and still counts as a failure
    of the breaker, as a retryable one does. *)
Theorem non_retryable_error_counts_as_failure {A} (ad : Adapter)
  (now later : Z) (op : Operation A) (e : Error) (s : Service) :
  circuitBreakerState s = CLOSED -> (0 < maxRetries s)%nat ->
  op 1%nat = inl e -> notRetryable ad e = true ->
  executeWithCircuitBreaker ad now later op s
  = (handleFailure later s, Throw e, 1%nat).
Proof.
  intros C M E N. unfold executeWithCircuitBreaker. rewrite C. cbn [Ok].
  destruct (@classified_error_not_retried A s op e M E) as [B O].
  destruct ad; cbn [notRetryable] in N; [discriminate N| |];
    apply negb_true_iff in N.
  - rewrite (B N). reflexivity.
  - rewrite (O N). reflexivity.
Qed.

Lemma non_retryable_error_counts_as_failure_witness :
  circuitBreakerState newService = CLOSED /\
  (0 < maxRetries newService)%nat /\
  failing (A := unit) Examples.configInvalid 1%nat
  = inl Examples.configInvalid /\
  notRetryable Bedrock Examples.configInvalid = true /\
  executeWithCircuitBreaker Bedrock 7 8 (failing (A := unit)
                                            Examples.configInvalid) newService
  = (handleFailure 8 newService, Throw Examples.configInvalid, 1%nat).
Proof.
  split; [reflexivity|]. split; [vm_compute; lia|].
  split; [reflexivity|]. split; [reflexivity|].
  exact (@non_retryable_error_counts_as_failure unit Bedrock 7 8
           (failing Examples.configInvalid) Examples.configInvalid newService
           eq_refl ltac:(vm_compute; lia) eq_refl eq_refl).
Defined.

End BreakerBehaviour.

Section MonitorBehaviour.

Import Resilience Health Monitor.
Local Open Scope string_scope.

Lemma addToHistory_latest (history : list HealthResult) (r : HealthResult) :
  (List.length history <= maxHistorySize)%nat ->
  addToHistory history r = latest (history ++ [r]) /\
  (List.length (addToHistory history r) <= maxHistorySize)%nat.
Proof.
  intro L. unfold addToHistory, latest. rewrite length_app. cbn [List.length].
  destruct (Nat.ltb_spec maxHistorySize (List.length history + 1)) as [G|G].
  - replace (List.length history + 1 - maxHistorySize)%nat with 1%nat by lia.
    split; [reflexivity|].
    destruct history as [|x t]; cbn [app tl List.length] in *;
      [unfold maxHistorySize in *; lia|].
    rewrite length_app. cbn [List.length]. lia.
  - replace (List.length history + 1 - maxHistorySize)%nat with 0%nat by lia.
    split; [reflexivity|]. rewrite length_app. cbn [List.length]. lia.
Qed.

Lemma latest_app (history rest : list HealthResult) :
  latest (latest history ++ rest) = latest (history ++ rest).
Proof.
  change (latest history)
    with (skipn (List.length history - maxHistorySize) history).
  set (k := (List.length history - maxHistorySize)%nat).
  assert (history ++ rest
          = firstn k history ++ (skipn k history ++ rest))%list as E
    by (rewrite app_assoc, firstn_skipn; reflexivity).
  rewrite E. unfold latest.
  assert (List.length (firstn k history) = k) as K
    by (rewrite length_firstn; lia).
  rewrite (length_app (firstn k history)), K.
  rewrite (skipn_app _ (firstn k history)), K.
  pose proof (length_skipn k history) as S.
  rewrite !length_app.
  rewrite (@skipn_all2 _ _ (firstn k history)) by (unfold k in *; lia).
  cbn [app].
  f_equal. unfold k in *. lia.
Qed.

(** X25.  Whatever results are added to a history that holds at most
    [maxHistorySize] of them, the history is then the latest
    [maxHistorySize] results of the old history followed by the new
    ones, in order; it never holds more than [maxHistorySize]. *)
Theorem history_keeps_latest_hundred (history results : list HealthResult) :
  (List.length history <= maxHistorySize)%nat ->
  recordAll history results = latest (history ++ results) /\
  (List.length (recordAll history results) <= maxHistorySize)%nat.
Proof.
  revert history. induction results as [|r rest IH]; intros history L.
  - unfold recordAll, latest. cbn [fold_left]. rewrite app_nil_r.
    replace (List.length history - maxHistorySize)%nat with 0%nat by lia.
    split; [reflexivity|exact L].
  - unfold recordAll in *. cbn [fold_left].
    destruct (addToHistory_latest history r L) as [E B].
    destruct (IH (addToHistory history r) B) as [I1 I2].
    split; [|exact I2].
    rewrite I1, E, latest_app, <- app_assoc. reflexivity.
Qed.

Lemma history_keeps_latest_hundred_witness :
  (List.length (repeat Scenarios.check_ok 100) <= maxHistorySize)%nat /\
  recordAll (repeat Scenarios.check_ok 100) [Scenarios.check_failed]
  = latest (repeat Scenarios.check_ok 100 ++ [Scenarios.check_failed]) /\
  (List.length (recordAll (repeat Scenarios.check_ok 100)
                  [Scenarios.check_failed]) <= maxHistorySize)%nat.
Proof.
  split; [vm_compute; lia|].
  exact (@history_keeps_latest_hundred (repeat Scenarios.check_ok 100)
           [Scenarios.check_failed] ltac:(vm_compute; lia)).
Defined.

(** X26.  [getServiceHistory] with a positive limit gives the end of the
    history, as many results as the limit or all of them when there are
    fewer; with limit 0 it gives the whole history, not an empty one. *)
Theorem history_limit_counts_from_the_end (history : list HealthResult)
  (limit : Z) :
  (0 < limit)%Z ->
  (exists older,
      history = (older ++ getServiceHistory history (Some limit))%list) /\
  List.length (getServiceHistory history (Some limit))
  = Nat.min (Z.to_nat limit) (List.length history) /\
  getServiceHistory history (Some 0%Z) = history.
Proof.
  intro P. unfold getServiceHistory, slice_from.
  destruct (Z.ltb_spec (- limit) 0) as [N|N]; [|lia].
  repeat split.
  - eexists. symmetry. apply firstn_skipn.
  - rewrite length_skipn. lia.
  - change (- 0)%Z with 0%Z. cbn [Z.ltb Z.compare].
    rewrite Z.min_l by lia. reflexivity.
Qed.

Lemma history_limit_counts_from_the_end_witness :
  (0 < 2)%Z /\
  (exists older,
      Scenarios.history_mixed
      = (older ++ getServiceHistory Scenarios.history_mixed (Some 2%Z))%list)
  /\ List.length (getServiceHistory Scenarios.history_mixed (Some 2%Z))
     = Nat.min (Z.to_nat 2) (List.length Scenarios.history_mixed)
  /\ getServiceHistory Scenarios.history_mixed (Some 0%Z)
     = Scenarios.history_mixed.
Proof.
  split; [reflexivity|].
  exact (@history_limit_counts_from_the_end Scenarios.history_mixed 2
           eq_refl).
Defined.

Lemma fold_min_le (l : list Z) (x : Z) :
  (fold_left Z.min l x <= x)%Z /\
  Forall (fun y => fold_left Z.min l x <= y)%Z l.
Proof.
  revert x. induction l as [|y t IH]; intro x; cbn [fold_left].
  - split; [lia|constructor].
  - destruct (IH (Z.min x y)) as [I1 I2]. split; [lia|].
    constructor; [lia|exact I2].
Qed.

Lemma fold_max_ge (l : list Z) (x : Z) :
  (x <= fold_left Z.max l x)%Z /\
  Forall (fun y => y <= fold_left Z.max l x)%Z l.
Proof.
  revert x. induction l as [|y t IH]; intro x; cbn [fold_left].
  - split; [lia|constructor].
  - destruct (IH (Z.max x y)) as [I1 I2]. split; [lia|].
    constructor; [lia|exact I2].
Qed.

Lemma sum_between (lo hi : Z) (l : list Z) (acc : Z) :
  Forall (fun y => lo <= y <= hi)%Z l ->
  (acc + lo * Z.of_nat (List.length l) <= fold_left Z.add l acc
   <= acc + hi * Z.of_nat (List.length l))%Z.
Proof.
  intro F. revert acc. induction F as [|y t H F IH]; intro acc.
  - cbn [fold_left List.length Z.of_nat]. lia.
  - cbn [fold_left List.length]. rewrite Nat2Z.inj_succ.
    specialize (IH (acc + y)%Z). nia.
Qed.

Lemma js_round_between (lo hi : Z) (q : Q) :
  (inject_Z lo <= q)%Q -> (q <= inject_Z hi)%Q ->
  (lo <= js_round q <= hi)%Z.
Proof.
  intros L H. unfold js_round. split.
  - rewrite <- (Qfloor_Z lo). apply Qfloor_resp_le. lra.
  - assert (Qfloor (q + (1 # 2)) < hi + 1)%Z; [|lia].
    rewrite Zlt_Qlt.
    apply Qle_lt_trans with (q + (1 # 2))%Q; [apply Qfloor_le|].
    rewrite inject_Z_plus. change (inject_Z 1) with 1%Q. lra.
Qed.

Lemma ratio_between (lo hi s : Z) (n : nat) :
  (0 < n)%nat ->
  (lo * Z.of_nat n <= s <= hi * Z.of_nat n)%Z ->
  (inject_Z lo <= inject_Z s / inject_Z (Z.of_nat n))%Q /\
  (inject_Z s / inject_Z (Z.of_nat n) <= inject_Z hi)%Q.
Proof.
  intros P [L H].
  assert (0 < inject_Z (Z.of_nat n))%Q as N.
  { change 0%Q with (inject_Z 0). rewrite <- Zlt_Qlt. lia. }
  split.
  - apply Qle_shift_div_l; [exact N|].
    rewrite <- inject_Z_mult, <- Zle_Qle. exact L.
  - apply Qle_shift_div_r; [exact N|].
    rewrite <- inject_Z_mult, <- Zle_Qle. exact H.
Qed.

Lemma filter_length_le' {A} (f : A -> bool) (l : list A) :
  (List.length (filter f l) <= List.length l)%nat.
Proof.
  induction l as [|x t IH]; cbn [filter List.length]; [lia|].
  destruct (f x); cbn [List.length]; lia.
Qed.

(** X27.  The metrics of a history agree with each other: the uptime lies
    between 0 and 100, the failed checks are no more than the checks, and
    the average response time, rounded, lies between the least and the
    greatest response time (all three are missing together). *)
Theorem metrics_are_consistent (history : list HealthResult) (m : Metrics) :
  getServiceMetrics history = Some m -> metricsConsistent m.
Proof.
  unfold getServiceMetrics. destruct history as [|h0 rest] eqn:HE; [discriminate|].
  rewrite <- HE. intro E. injection E as <-.
  assert (0 < List.length history)%nat as P by (rewrite HE; cbn; lia).
  clear HE h0 rest. unfold metricsConsistent.
  cbn [uptime failedChecks totalChecks minResponseTime averageResponseTime
       maxResponseTime].
  split; [|split].
  - pose proof (filter_length_le' (is_status "healthy") history) as F.
    destruct (@ratio_between 0 1 (Z.of_nat (List.length
                (filter (is_status "healthy") history)))
                (List.length history) P) as [R1 R2]; [lia|].
    fold (ratio (List.length (filter (is_status "healthy") history))
                (List.length history)) in R1, R2.
    set (up := ratio _ _) in *.
    change (inject_Z 0) with 0%Q in R1. change (inject_Z 1) with 1%Q in R2.
    destruct (@js_round_between 0 10000 (up * 100 * 100)) as [J1 J2].
    { change (inject_Z 0) with 0%Q. nra. }
    { change (inject_Z 10000) with 10000%Q. nra. }
    rewrite Zle_Qle in J1, J2.
    change (inject_Z 0) with 0%Q in J1.
    change (inject_Z 10000) with 10000%Q in J2.
    split.
    + apply Qle_shift_div_l; [reflexivity|]. lra.
    + apply Qle_shift_div_r; [reflexivity|]. lra.
  - apply filter_length_le'.
  - destruct (defined (map hr_responseTime history)) as [|x t]; [exact I|].
    destruct (fold_min_le t x) as [M1 M2].
    destruct (fold_max_ge t x) as [G1 G2].
    set (lo := fold_left Z.min t x) in *.
    set (hi := fold_left Z.max t x) in *.
    assert (Forall (fun y => lo <= y <= hi)%Z (x :: t)) as B.
    { constructor; [lia|].
      rewrite Forall_forall in *. intros y Y.
      specialize (M2 y Y). specialize (G2 y Y). lia. }
    pose proof (@sum_between lo hi (x :: t) 0%Z B) as S.
    fold (sum (x :: t)) in S.
    destruct (@ratio_between lo hi (sum (x :: t)) (List.length (x :: t)))
      as [R1 R2]; [cbn; lia | lia |].
    apply js_round_between; assumption.
Qed.

Lemma metrics_are_consistent_witness :
  getServiceMetrics Scenarios.history_mixed = Some Scenarios.metrics_mixed /\
  metricsConsistent Scenarios.metrics_mixed.
Proof.
  split; [reflexivity|].
  exact (@metrics_are_consistent Scenarios.history_mixed
           Scenarios.metrics_mixed eq_refl).
Defined.

Lemma disabled_found (n : string) (services : Services) (e : ServiceEntry) :
  getService n services = Some e ->
  In (with_enabled false e) (disableService n services).
Proof.
  unfold getService, disableService.
  induction services as [|x t IH]; cbn [find set_enabled]; [discriminate|].
  destruct (String.eqb (name x) n).
  - intro E. injection E as ->. left. reflexivity.
  - intro E. right. exact (IH E).
Qed.

Lemma disabled_stays (st : SystemState) (services : Services)
  (e : ServiceEntry) :
  enabled e = false -> In e services -> In e (checkAllServices st services).
Proof.
  intros D I. unfold checkAllServices.
  apply in_map_iff. exists e. rewrite D. split; [reflexivity|exact I].
Qed.

(** X28.  Disabling a service stops its checks but not its vote: a
    critical service that was last seen unhealthy and is then disabled
    keeps the overall health "critical" through any number of monitoring
    rounds, whatever state the system is in. *)
Theorem disabled_service_still_counts (n : string) (services : Services)
  (e : ServiceEntry) (states : list SystemState) :
  getService n services = Some e ->
  critical e = true -> lastStatus e = "unhealthy" ->
  getOverallHealth (monitor states (disableService n services)) = "critical".
Proof.
  intros G C U.
  assert (In (with_enabled false e)
             (monitor states (disableService n services))) as I.
  { pose proof (disabled_found n services G) as I. revert I.
    generalize (disableService n services). unfold monitor.
    induction states as [|st rest IH]; intros sv I; cbn [fold_left];
      [exact I|].
    apply IH. apply disabled_stays; [reflexivity|exact I]. }
  rewrite getOverallHealth_rule.
  replace (existsb (fun x => andb (critical x) (unhealthy x))
             (monitor states (disableService n services))) with true;
    [reflexivity|].
  symmetry. apply existsb_exists. eexists. split; [exact I|].
  unfold unhealthy. cbn [with_enabled critical lastStatus]. rewrite C, U.
  reflexivity.
Qed.

Lemma disabled_service_still_counts_witness :
  getService "bedrock" Scenarios.services_ai_down
  = Some Scenarios.entry_bedrock /\
  critical Scenarios.entry_bedrock = true /\
  lastStatus Scenarios.entry_bedrock = "unhealthy" /\
  getOverallHealth
    (monitor [Scenarios.state_all_up; Scenarios.state_all_up]
       (disableService "bedrock" Scenarios.services_ai_down)) = "critical".
Proof.
  split; [reflexivity|]. split; [reflexivity|]. split; [reflexivity|].
  exact (@disabled_service_still_counts "bedrock" Scenarios.services_ai_down
           Scenarios.entry_bedrock
           [Scenarios.state_all_up; Scenarios.state_all_up]
           eq_refl eq_refl eq_refl).
Defined.

End MonitorBehaviour.

Section CacheBehaviour.

Import Cache.
Local Open Scope Z_scope.

Lemma loads_fresh (calls past : list (Z * result Server.Catalog))
  (st : CacheState) :
  match creatorCache st with
  | Some c => In (lastCacheUpdate st, inr c) past
  | None => True
  end ->
  Forall (servedFresh (past ++ calls)) (loads calls st).
Proof.
  revert past st.
  induction calls as [|[now file] rest IH]; intros past st C;
    cbn [loads]; [constructor|].
  assert (forall st', match creatorCache st' with
                      | Some c => In (lastCacheUpdate st', inr c)
                                     (past ++ [(now, file)])
                      | None => True
                      end ->
          Forall (servedFresh (past ++ (now, file) :: rest)) (loads rest st'))
    as Next.
  { intros st' C'. specialize (IH (past ++ [(now, file)])%list st' C').
    rewrite <- app_assoc in IH. exact IH. }
  assert (match creatorCache st with
          | Some c => In (lastCacheUpdate st, inr c) (past ++ [(now, file)])
          | None => True
          end) as Keep.
  { destruct (creatorCache st); [|exact I]. apply in_or_app. left. exact C. }
  assert (forall (c : Server.Catalog),
             file = inr c ->
             In (now, @inr Error Server.Catalog c)
                (past ++ (now, file) :: rest)) as Here.
  { intros c ->. apply in_or_app. right. left. reflexivity. }
  unfold loadCreators.
  destruct (creatorCache st) as [c|] eqn:CC.
  - destruct (Z.ltb_spec (now - lastCacheUpdate st) CACHE_TTL) as [L|L].
    + constructor.
      * cbn. exists (lastCacheUpdate st). split; [|exact L].
        apply in_or_app. left. exact C.
      * apply Next. rewrite CC. exact Keep.
    + destruct file as [e|c'].
      * constructor; [reflexivity|]. apply Next. rewrite CC. exact Keep.
      * constructor.
        -- cbn. exists now. split; [apply Here; reflexivity|].
           unfold CACHE_TTL. lia.
        -- apply Next. cbn. apply in_or_app. right. left. reflexivity.
  - destruct file as [e|c'].
    + constructor; [reflexivity|]. apply Next. rewrite CC. exact I.
    + constructor.
      * cbn. exists now. split; [apply Here; reflexivity|].
        unfold CACHE_TTL. lia.
      * apply Next. cbn. apply in_or_app. right. left. reflexivity.
Qed.

(** X29.  Over any history of loads from an empty cache, a catalog that
    [loadCreators] answers with was read from the file at one of the
    loads, less than [CACHE_TTL] before; and when it throws, the error
    is the one of the read just made: a cached catalog is not served in
    place of a failed read. *)
Theorem cache_serves_recent_reads
  (calls : list (Z * result Server.Catalog)) :
  Forall (servedFresh calls) (loads calls initialCache).
Proof. exact (@loads_fresh calls [] initialCache I). Qed.

End CacheBehaviour.

Section FramingBehaviour.

Import Resilience Behaviour Framing.
Local Open Scope string_scope.

Lemma circuitOpenError_message (ad : Adapter) :
  str_includes (err_message (circuitOpenError ad)) "Circuit breaker" = true.
Proof. destruct ad; vm_compute; reflexivity. Qed.

(** X30.  The framing endpoint does not degrade: while the AI adapter is
    connected, its breaker open and the reset timeout not run out, a
    complete framing request is answered 503 "Service temporarily
    unavailable", on Bedrock as on OpenAI. *)
Theorem framing_refused_by_open_breaker (ad : Adapter)
  (start now later : Z) (connect : Connect)
  (operation : string -> Operation string) (cn : Connection)
  (req : FramingRequest) :
  ad <> Pinecone ->
  complete req = true ->
  needsInitialize ad cn = false ->
  circuitBreakerState (service cn) = OPEN ->
  timedOut (service cn) now = false ->
  fst (postFraming true req
         (managerCompletion ad start now later connect operation cn))
  = {| f_status := 503; f_body := FError "Service temporarily unavailable" |}.
Proof.
  intros A C I O W. unfold postFraming, complete in *. cbn [negb].
  destruct (fr_assignment req) as [a|]; [|discriminate C].
  destruct (fr_creator req) as [c|]; [|discriminate C].
  assert (E : managerCompletion ad start now later connect operation cn
                (framingPrompt a c)
              = Throw (circuitOpenError ad)).
  { unfold managerCompletion, generateCompletion. rewrite I.
    rewrite (@open_rejects string ad now later
               (operation (framingPrompt a c)) (service cn) O W).
    destruct ad; [congruence | reflexivity | reflexivity]. }
  rewrite E. cbn [fst snd Throw]. unfold failure.
  rewrite circuitOpenError_message. reflexivity.
Qed.

Lemma framing_refused_by_open_breaker_witness :
  Bedrock <> Pinecone /\
  complete Scenarios.framing_request = true /\
  needsInitialize Bedrock Scenarios.connection_open = false /\
  circuitBreakerState (service Scenarios.connection_open) = OPEN /\
  timedOut (service Scenarios.connection_open) 100 = false /\
  fst (postFraming true Scenarios.framing_request
         (managerCompletion Bedrock 99 100 101 Connected
            (fun prompt => succeeding prompt) Scenarios.connection_open))
  = {| f_status := 503; f_body := FError "Service temporarily unavailable" |}.
Proof.
  assert (A : Bedrock <> Pinecone) by discriminate.
  split; [exact A|].
  split; [reflexivity|]. split; [reflexivity|]. split; [reflexivity|].
  split; [reflexivity|].
  exact (@framing_refused_by_open_breaker Bedrock 99 100 101 Connected
           (fun prompt => succeeding prompt) Scenarios.connection_open
           Scenarios.framing_request A eq_refl eq_refl eq_refl eq_refl).
Defined.

(** An adapter that is not connected starts again before its breaker is
    looked at: with the breaker open and its timeout not run out, a
    framing request is answered 200 when the start succeeds (it closes the
    breaker) and 500 when it fails. *)
Example framing_reconnects_first :
  f_status (fst (postFraming true Scenarios.framing_request
                   (managerCompletion OpenAI 99 100 101 Connected
                      (fun prompt => succeeding prompt)
                      Scenarios.connection_lost))) = 200%Z /\
  f_status (fst (postFraming true Scenarios.framing_request
                   (managerCompletion OpenAI 99 100 101
                      (NoAnswer Scenarios.testFailed)
                      (fun prompt => succeeding prompt)
                      Scenarios.connection_lost))) = 500%Z.
Proof. split; vm_compute; reflexivity. Qed.

End FramingBehaviour.
